(** * tiny_coro: a shallow embedding of the M:N coroutine scheduler

    The development follows the headers under [include/]:
    [task.h], [ebr.h], [queue.h], [parker.h], [poller.h], [scheduler.h],
    [socket.h], [async_mutex.h] and [channel.h], then the upload loop of
    [http/http_server.h], the header lookup of [http/http_parser.h] and the
    request tokenizer of [mini_redis.cpp].

    Conventions.
    - A [void*] or a [std::coroutine_handle<>] is its address, a [Z];
      [nullptr] is [0].
    - Objects that the C++ code reaches through pointers (coroutine frames,
      awaiters living in a frame) are kept in finite maps keyed by address.
    - A function that runs under a [std::lock_guard] is one atomic state
      transformer; lock-free code (the steal deque, the reclaimer) is cut
      at its accesses to shared state, and its runs are the interleavings
      of those accesses (sequentially consistent memory). *)

From Stdlib Require Import ZArith List Lia Bool Ascii.
From stdpp Require Import base option list gmap.
Import ListNotations.

#[local] Open Scope Z_scope.

(** ** Machine integers *)

(** [int] of [std::atomic<int>]: atomic arithmetic wraps in two's complement. *)
Definition wrap_int (x : Z) : Z := (x + 2 ^ 31) mod 2 ^ 32 - 2 ^ 31.

(** [size_t] on the 64-bit targets of the runtime. *)
Definition wrap_size_t (x : Z) : Z := x mod 2 ^ 64.

Definition nullptr : Z := 0.

(** ** task.h *)

Module Task.

(** [Task::Promise].  [destroyed] is a ghost field: the number of times
    [handle.destroy()] ran on the frame that holds the promise. *)
Record Promise := mkPromise {
  ref_count : Z;
  is_running : bool;
  continuation : Z;
  destroyed : nat
}.

(** A promise as the coroutine machinery creates it: [ref_count{1}],
    [is_running{false}], [continuation = nullptr]. *)
Definition Promise_init : Promise := mkPromise 1 false nullptr 0.

Definition set_ref_count (n : Z) (p : Promise) : Promise :=
  mkPromise n (is_running p) (continuation p) (destroyed p).

Definition mark_destroyed (p : Promise) : Promise :=
  mkPromise (ref_count p) (is_running p) (continuation p) (S (destroyed p)).

(** The coroutine frames of the process, by address. *)
Abbreviation Heap := (gmap Z Promise).

(** [struct Task]: one field, the handle. *)
Record Task := mkTask { handle : Z }.

(** [ref_count.fetch_add(1)] on the promise of [h]. *)
Definition fetch_add_ref (h : Z) (hp : Heap) : Heap :=
  alter (fun p => set_ref_count (wrap_int (ref_count p + 1)) p) h hp.

(** [handle.destroy()]. *)
Definition destroy (h : Z) (hp : Heap) : Heap := alter mark_destroyed h hp.

(** [Task()]. *)
Definition Task_default : Task := mkTask nullptr.

(** [explicit Task(std::coroutine_handle<Promise> h)]. *)
Definition Task_of_handle (h : Z) (hp : Heap) : Task * Heap :=
  (mkTask h, if h =? nullptr then hp else fetch_add_ref h hp).

(** [Task(std::coroutine_handle<Promise> h, AdoptTag)]. *)
Definition Task_adopt (h : Z) (hp : Heap) : Task * Heap := (mkTask h, hp).

(** [Task(const Task& o)]. *)
Definition Task_copy (o : Task) (hp : Heap) : Task * Heap :=
  (mkTask (handle o),
   if handle o =? nullptr then hp else fetch_add_ref (handle o) hp).

(** [Task(Task&& o)]: the new object and what is left of [o]. *)
Definition Task_move (o : Task) (hp : Heap) : (Task * Task) * Heap :=
  ((mkTask (handle o), mkTask nullptr), hp).

(** [void dec_ref()]: [fetch_sub(1)] returns the old value. *)
Definition dec_ref (t : Task) (hp : Heap) : Heap :=
  match hp !! handle t with
  | Some p =>
      let hp' := <[handle t := set_ref_count (wrap_int (ref_count p - 1)) p]> hp in
      if ref_count p =? 1 then destroy (handle t) hp' else hp'
  | None => hp
  end.

(** [~Task()]. *)
Definition Task_drop (t : Task) (hp : Heap) : Heap :=
  if handle t =? nullptr then hp else dec_ref t hp.

(** [Task& operator=(Task&& o)], for two distinct objects. *)
Definition Task_move_assign (this o : Task) (hp : Heap) : (Task * Task) * Heap :=
  let hp' := if handle this =? nullptr then hp else dec_ref this hp in
  ((mkTask (handle o), mkTask nullptr), hp').

(** [void* detach()]: the pointer and the task left behind. *)
Definition detach (t : Task) (hp : Heap) : (Z * Task) * Heap :=
  let ptr := if handle t =? nullptr then nullptr else handle t in
  ((ptr, mkTask nullptr), hp).

(** [void* to_address()]. *)
Definition to_address (t : Task) (hp : Heap) : Z * Heap :=
  if handle t =? nullptr then (nullptr, hp)
  else (handle t, fetch_add_ref (handle t) hp).

(** [static Task from_address(void* ptr)]. *)
Definition from_address (ptr : Z) (hp : Heap) : Task * Heap :=
  if ptr =? nullptr then (Task_default, hp) else Task_adopt ptr hp.

(** The count stored for [h], if there is a frame at [h]. *)
Definition count_of (h : Z) (hp : Heap) : option Z := ref_count <$> hp !! h.

Definition destroyed_of (h : Z) (hp : Heap) : option nat := destroyed <$> hp !! h.

(** The destructors of [n] handles to the promise of [t], one after
    another. *)
Fixpoint drop_n (n : nat) (t : Task) (hp : Heap) : Heap :=
  match n with
  | O => hp
  | S n' => Task_drop t (drop_n n' t hp)
  end.

End Task.

(** ** ebr.h *)

Module Ebr.

(** [EbrManager::Node].  Every node is built by [retire] with the deleter
    [delete static_cast<T*>(p)]; running it is recorded in the manager's
    [deleted] log. *)
Record Node := mkNode { ptr : Z }.

(** [EbrManager::LocalState]; [retire_bins] has three entries. *)
Record LocalState := mkLocal {
  active : bool;
  epoch : Z;
  retire_bins : list (list Node);
  op_count : Z
}.

Definition LocalState_init : LocalState := mkLocal false 0 [[]; []; []] 0.

Definition set_active (b : bool) (t : LocalState) : LocalState :=
  mkLocal b (epoch t) (retire_bins t) (op_count t).
Definition set_epoch (e : Z) (t : LocalState) : LocalState :=
  mkLocal (active t) e (retire_bins t) (op_count t).
Definition set_retire_bins (bs : list (list Node)) (t : LocalState) : LocalState :=
  mkLocal (active t) (epoch t) bs (op_count t).
Definition set_op_count (n : Z) (t : LocalState) : LocalState :=
  mkLocal (active t) (epoch t) (retire_bins t) n.

(** [class EbrManager].  A [LocalState*] is the position of the state in
    [threads_] (states are appended and never removed).  [deleted] is the
    ghost log of the pointers handed to a deleter, in call order. *)
Record EbrManager := mkEbr {
  global_epoch_ : Z;
  threads_ : list LocalState;
  deleted : list Z
}.

Definition EbrManager_init : EbrManager := mkEbr 0 [] [].

Definition set_threads (ts : list LocalState) (m : EbrManager) : EbrManager :=
  mkEbr (global_epoch_ m) ts (deleted m).

(** [retire_bins[i]] of one thread. *)
Definition bin (i : nat) (t : LocalState) : list Node :=
  default [] (retire_bins t !! i).

(** The loop test of [try_advance]: an active thread that has not caught up. *)
Definition lagging (global : Z) (t : LocalState) : bool :=
  active t && negb (epoch t =? global).

(** [bin.clear()]. *)
Definition clear_bin (i : nat) (t : LocalState) : LocalState :=
  set_retire_bins (<[i := []]> (retire_bins t)) t.

(** The part of [try_advance] that runs under [mtx_], for the value
    [global] that was loaded from [global_epoch_] before the lock was taken. *)
Definition try_advance_locked (global : Z) (m : EbrManager) : EbrManager :=
  if existsb (lagging global) (threads_ m) then m
  else
    let next := wrap_size_t (global + 1) in
    let safe_bin_idx := Z.to_nat (wrap_size_t (next + 1) mod 3) in
    mkEbr next
          (map (clear_bin safe_bin_idx) (threads_ m))
          (deleted m ++ concat (map (fun t => map ptr (bin safe_bin_idx t)) (threads_ m))).

(** [try_advance] with nothing running between its load and its lock. *)
Definition try_advance (m : EbrManager) : EbrManager :=
  try_advance_locked (global_epoch_ m) m.

(** [register_thread]. *)
Definition register_thread (m : EbrManager) : nat * EbrManager :=
  (length (threads_ m), set_threads (threads_ m ++ [LocalState_init]) m).

(** [enter]. *)
Definition enter (local : nat) (m : EbrManager) : EbrManager :=
  let g := global_epoch_ m in
  set_threads (alter (fun t => set_active true (set_epoch g t)) local (threads_ m)) m.

(** [exit]. *)
Definition exit (local : nat) (m : EbrManager) : EbrManager :=
  set_threads (alter (set_active false) local (threads_ m)) m.

(** [retire]. *)
Definition retire (local : nat) (p : Z) (m : EbrManager) : EbrManager :=
  let e := global_epoch_ m in
  let push t :=
    set_retire_bins
      (alter (fun b => b ++ [mkNode p]) (Z.to_nat (e mod 3)) (retire_bins t)) t in
  let bump t := set_op_count (wrap_size_t (op_count t + 1)) t in
  let m1 := set_threads (alter (fun t => bump (push t)) local (threads_ m)) m in
  match threads_ m1 !! local with
  | Some t =>
      if 64 <? op_count t
      then try_advance (set_threads (alter (set_op_count 0) local (threads_ m1)) m1)
      else m1
  | None => m1
  end.

(** [n] retirements in a row by one thread: pointers [p], [p+1], ... *)
Fixpoint retire_many (n : nat) (local : nat) (p : Z) (m : EbrManager) : EbrManager :=
  match n with
  | O => m
  | S n' => retire_many n' local (p + 1) (retire local p m)
  end.

(** The pointers waiting in the bins of one thread, and of all threads. *)
Definition local_ptrs (t : LocalState) : list Z := concat (map (map ptr) (retire_bins t)).
Definition pending (m : EbrManager) : list Z := concat (map local_ptrs (threads_ m)).


(** Every thread has its three bins. *)
Definition bins_ok (m : EbrManager) : Prop :=
  Forall (fun t => length (retire_bins t) = 3%nat) (threads_ m).

(** *** The calls cut at their accesses to shared state *)

(** Line 77 of [enter], for the [g] that line 76 loaded. *)
Definition enter_store_epoch (g : Z) (local : nat) (m : EbrManager) : EbrManager :=
  set_threads (alter (set_epoch g) local (threads_ m)) m.

(** Line 78 of [enter]. *)
Definition enter_store_active (local : nat) (m : EbrManager) : EbrManager :=
  set_threads (alter (set_active true) local (threads_ m)) m.

(** Lines 90-97 of [retire], for the [e] that line 89 loaded: the push
    into the thread's own bin and the count, taken as one step (they
    touch no atomic; other threads reach the bins only under [mtx_], in
    [try_advance]).  The boolean says whether [try_advance] is called
    next. *)
Definition retire_push (e : Z) (local : nat) (p : Z) (m : EbrManager)
    : bool * EbrManager :=
  let push t :=
    set_retire_bins
      (alter (fun b => b ++ [mkNode p]) (Z.to_nat (e mod 3)) (retire_bins t)) t in
  let bump t := set_op_count (wrap_size_t (op_count t + 1)) t in
  let m1 := set_threads (alter (fun t => bump (push t)) local (threads_ m)) m in
  match threads_ m1 !! local with
  | Some t =>
      if 64 <? op_count t
      then (true, set_threads (alter (set_op_count 0) local (threads_ m1)) m1)
      else (false, m1)
  | None => (false, m1)
  end.

(** Where a thread stands: between two calls, or inside [enter], [retire]
    or the [try_advance] that [retire] called, with the value it has
    loaded from [global_epoch_] and not used yet. *)
Inductive Pc :=
| Idle
| EnterLoaded (g : Z)
| EnterStored
| RetireLoaded (e : Z) (p : Z)
| AdvanceCalled
| AdvanceLoaded (global : Z).

(** The manager and, for each registered thread, where it stands. *)
Record Config := mkConfig { manager : EbrManager; pcs : list Pc }.

(** What a thread does next: it calls [enter], [exit] or [retire] (and
    makes the first access of the call), or it makes the next access of
    the call it is in. *)
Inductive Op :=
| CallEnter (local : nat)
| CallExit (local : nat)
| CallRetire (local : nat) (p : Z)
| Next (local : nat).

Definition at_pc (local : nat) (pc : Pc) (m : EbrManager) (c : Config) : Config :=
  mkConfig m (<[local := pc]> (pcs c)).

(** One access.  [None]: a call by a thread that is inside a call, or
    [Next] for a thread that is in none. *)
Definition step (o : Op) (c : Config) : option Config :=
  let m := manager c in
  match o with
  | CallEnter l =>
      match pcs c !! l with
      | Some Idle => Some (at_pc l (EnterLoaded (global_epoch_ m)) m c)
      | _ => None
      end
  | CallExit l =>
      match pcs c !! l with
      | Some Idle => Some (at_pc l Idle (exit l m) c)
      | _ => None
      end
  | CallRetire l p =>
      match pcs c !! l with
      | Some Idle => Some (at_pc l (RetireLoaded (global_epoch_ m) p) m c)
      | _ => None
      end
  | Next l =>
      match pcs c !! l with
      | Some (EnterLoaded g) => Some (at_pc l EnterStored (enter_store_epoch g l m) c)
      | Some EnterStored => Some (at_pc l Idle (enter_store_active l m) c)
      | Some (RetireLoaded e p) =>
          let '(advance, m1) := retire_push e l p m in
          Some (at_pc l (if advance then AdvanceCalled else Idle) m1 c)
      | Some AdvanceCalled => Some (at_pc l (AdvanceLoaded (global_epoch_ m)) m c)
      | Some (AdvanceLoaded g) => Some (at_pc l Idle (try_advance_locked g m) c)
      | Some Idle | None => None
      end
  end.

Fixpoint run (ops : list Op) (c : Config) : option Config :=
  match ops with
  | [] => Some c
  | o :: rest =>
      match step o c with
      | None => None
      | Some c' => run rest c'
      end
  end.





End Ebr.

(** ** queue.h: the Chase-Lev deque *)

Module StealQueue.

(** [StealQueue::Array]; [self] is the address of the array object. *)
Record Array := mkArray { self : Z; buffer : list Z; cap : Z; mask : Z }.

(** [Array(size_t c)] allocated at [at_]. *)
Definition Array_new (at_ : Z) (c : Z) : Array :=
  mkArray at_ (replicate (Z.to_nat c) nullptr) c (wrap_size_t (c - 1)).

(** [i & mask] for a [long] or [size_t] index converted to [size_t]. *)
Definition slot (a : Array) (i : Z) : nat := Z.to_nat (Z.land (wrap_size_t i) (mask a)).

Definition put (i p : Z) (a : Array) : Array :=
  mkArray (self a) (<[slot a i := p]> (buffer a)) (cap a) (mask a).

Definition get (i : Z) (a : Array) : Z := default nullptr (buffer a !! slot a i).

(** [resize(b, t)]: the new array is allocated at [at_]. *)
Definition resize (at_ : Z) (b t : Z) (a : Array) : Array :=
  foldl (fun new_arr i => put i (get i a) new_arr)
        (Array_new at_ (wrap_size_t (cap a * 2))) (seqZ t (b - t)).

(** [class StealQueue<Task>].  [top] and [bottom] are [long]; the code
    moves them by one from zero and the model keeps them unbounded. *)
Record StealQueue := mkQueue {
  top : Z;
  bottom : Z;
  array : Array;
  local_state : nat
}.

(** [StealQueue(LocalState* ls)], its first array allocated at [at_]. *)
Definition StealQueue_new (at_ : Z) (ls : nat) : StealQueue :=
  mkQueue 0 0 (Array_new at_ 1024) ls.

Definition set_top (t : Z) (q : StealQueue) : StealQueue :=
  mkQueue t (bottom q) (array q) (local_state q).
Definition set_bottom (b : Z) (q : StealQueue) : StealQueue :=
  mkQueue (top q) b (array q) (local_state q).
Definition set_array (a : Array) (q : StealQueue) : StealQueue :=
  mkQueue (top q) (bottom q) a (local_state q).

(** [top.compare_exchange_strong(t, t+1)]. *)
Definition cas_top (t : Z) (q : StealQueue) : bool * StealQueue :=
  if top q =? t then (true, set_top (t + 1) q) else (false, q).

(** [push(T item)], run by the owner with no thief in between; a new array,
    when one is needed, is allocated at [at_].  The by-value parameter
    [item] is destroyed on return. *)
Definition push (at_ : Z) (item : Task.Task)
    (s : StealQueue * Task.Heap * Ebr.EbrManager)
    : StealQueue * Task.Heap * Ebr.EbrManager :=
  let '(q, hp, m) := s in
  let b := bottom q in
  let t := top q in
  let a := array q in
  let '(a', q1, m1) :=
    if cap a - 1 <=? b - t
    then let new_a := resize at_ b t a in
         (new_a, set_array new_a q, Ebr.retire (local_state q) (self a) m)
    else (a, q, m) in
  let '(p, hp1) := Task.to_address item hp in
  let q2 := set_array (put b p a') q1 in
  (set_bottom (b + 1) q2, Task.Task_drop item hp1, m1).

(** *** [pop()], cut at its accesses to the shared indices *)

(** Lines 87-89: [b = bottom - 1; bottom.store(b)]. *)
Definition pop_reserve (q : StealQueue) : Z * StealQueue :=
  let b := bottom q - 1 in (b, set_bottom b q).

(** Line 91, after the fence: [t = top.load()]. *)
Definition pop_load_top (q : StealQueue) : Z := top q.

(** Lines 93-110, for the [b] and [t] of the two steps above, on the
    deque as it is when the owner gets there. *)
Definition pop_take (b t : Z) (hp : Task.Heap) (q : StealQueue)
    : option Task.Task * Task.Heap * StealQueue :=
  if t <=? b then
    let a := array q in
    let val := get b a in
    if t =? b then
      let '(won, q1) := cas_top t q in
      if negb won then (None, hp, set_bottom (b + 1) q1)
      else
        let q2 := set_bottom (b + 1) q1 in
        let '(task, hp1) := Task.from_address val hp in
        (Some task, hp1, q2)
    else
      let '(task, hp1) := Task.from_address val hp in
      (Some task, hp1, q)
  else (None, hp, set_bottom (b + 1) q).

(** [pop()] with thieves running [before] between the owner's store to
    [bottom] and its load of [top], and [after] between that load and
    the rest of the function. *)
Definition pop_with (before after : StealQueue -> StealQueue) (hp : Task.Heap)
    (q : StealQueue) : option Task.Task * Task.Heap * StealQueue :=
  let '(b, q1) := pop_reserve q in
  let qa := before q1 in
  let t := pop_load_top qa in
  pop_take b t hp (after qa).

(** [pop()] run alone. *)
Definition pop (hp : Task.Heap) (q : StealQueue)
    : option Task.Task * Task.Heap * StealQueue :=
  pop_with (fun q => q) (fun q => q) hp q.

(** *** [steal()], cut the same way *)

(** Lines 114-116: the thief's loads of [top] and [bottom]. *)
Definition steal_load (q : StealQueue) : Z * Z := (top q, bottom q).

(** Lines 118-127 for the loaded [t] and [b]. *)
Definition steal_take (t b : Z) (hp : Task.Heap) (q : StealQueue)
    : option Task.Task * Task.Heap * StealQueue :=
  if t <? b then
    let val := get t (array q) in
    let '(won, q1) := cas_top t q in
    if negb won then (None, hp, q1)
    else
      let '(task, hp1) := Task.from_address val hp in
      (Some task, hp1, q1)
  else (None, hp, q).

(** [steal()] run alone. *)
Definition steal (hp : Task.Heap) (q : StealQueue)
    : option Task.Task * Task.Heap * StealQueue :=
  let '(t, b) := steal_load q in steal_take t b hp q.

(** An array as its constructor and [resize] make it: a power-of-two
    capacity (below the [size_t] range), the matching mask, [cap] slots. *)
Definition wf_array (a : Array) : Prop :=
  exists k, 0 <= k <= 62 /\ cap a = 2 ^ k /\ mask a = cap a - 1
            /\ length (buffer a) = Z.to_nat (cap a).

(** The pointers queued in the deque, oldest first. *)
Definition contents (q : StealQueue) : list Z :=
  map (fun i => get i (array q)) (seqZ (top q) (bottom q - top q)).

(** A deque between two operations of its owner. *)
Definition wf_queue (q : StealQueue) : Prop :=
  wf_array (array q)
  /\ top q <= bottom q
  /\ bottom q - top q <= cap (array q) - 1.

End StealQueue.

(** ** parker.h *)

Module Parker.

Inductive State := EMPTY | PARKED | NOTIFIED.

(** [class Parker]; [notified] counts the [state.notify_one()] calls. *)
Record Parker := mkParker { state : State; notified : nat }.

Definition Parker_init : Parker := mkParker EMPTY 0.

(** [unpark()]: [exchange(NOTIFIED)], then [notify_one] if a thread was parked. *)
Definition unpark (p : Parker) : Parker :=
  match state p with
  | PARKED => mkParker NOTIFIED (S (notified p))
  | _ => mkParker NOTIFIED (notified p)
  end.

(** [park()], cut at its accesses to [state]. *)

(** The compare-and-swap [EMPTY -> PARKED]; [true]: it succeeded and the
    thread goes on to wait. *)
Definition park_enter (p : Parker) : bool * Parker :=
  match state p with
  | EMPTY => (true, mkParker PARKED (notified p))
  | _ => (false, p)
  end.

(** The test of the wait loop: the thread stays blocked while it holds. *)
Definition park_waiting (p : Parker) : bool :=
  match state p with
  | PARKED => true
  | _ => false
  end.

(** The final [state.store(EMPTY)]. *)
Definition park_exit (p : Parker) : Parker := mkParker EMPTY (notified p).

(** [park()] with no other thread running: [None] when the caller blocks. *)
Definition park (p : Parker) : option Parker :=
  let '(entered, p1) := park_enter p in
  if entered && park_waiting p1 then None else Some (park_exit p1).

End Parker.

(** ** poller.h, Linux branch (epoll) *)

Module Epoll.

Definition EPOLLIN : Z := 1.
Definition EPOLLOUT : Z := 4.
Definition EPOLLRDHUP : Z := 8192.
Definition EPOLLONESHOT : Z := 2 ^ 30.
Definition EPOLLET : Z := 2 ^ 31.

(** [struct epoll_event].  [data] is the 64-bit [epoll_data] union
    ([void *ptr; int fd; uint32_t u32; uint64_t u64]) as one word. *)
Record epoll_event := mkEvent { events : Z; data : Z }.

(** [struct epoll_event ev = {}]. *)
Definition event_zero : epoll_event := mkEvent 0 0.

(** [ev.data.ptr]: the whole word. *)
Definition data_ptr (ev : epoll_event) : Z := data ev.

(** [ev.data.ptr = p]. *)
Definition set_data_ptr (p : Z) (ev : epoll_event) : epoll_event :=
  mkEvent (events ev) (p mod 2 ^ 64).

(** [ev.data.fd = fd]: the four low bytes of the union (little endian),
    the others keep their value. *)
Definition set_data_fd (fd : Z) (ev : epoll_event) : epoll_event :=
  mkEvent (events ev)
          (Z.lor (Z.shiftl (Z.shiftr (data ev) 32) 32) (fd mod 2 ^ 32)).

Definition set_events (e : Z) (ev : epoll_event) : epoll_event :=
  mkEvent e (data ev).

(** What the kernel keeps for one descriptor of the interest list:
    the event given to [epoll_ctl] and whether it is still armed
    (a one-shot entry is disarmed when it is reported). *)
Record Interest := mkInterest { registered : epoll_event; armed : bool }.

(** [class Poller] with the kernel objects behind its descriptors:
    the interest list of [epoll_fd_]; the counter of the eventfd
    [wake_fd_] and whether a write to it has not been reported yet. *)
Record Poller := mkPoller {
  epoll_fd_ : Z;
  wake_fd_ : Z;
  interest : gmap Z Interest;
  wake_counter : Z;
  wake_pending : bool
}.

Definition set_interest (i : gmap Z Interest) (p : Poller) : Poller :=
  mkPoller (epoll_fd_ p) (wake_fd_ p) i (wake_counter p) (wake_pending p).

(** [epoll_ctl(EPOLL_CTL_ADD)]: [None] is the failure with [EEXIST]. *)
Definition epoll_ctl_add (fd : Z) (ev : epoll_event) (p : Poller) : option Poller :=
  match interest p !! fd with
  | Some _ => None
  | None => Some (set_interest (<[fd := mkInterest ev true]> (interest p)) p)
  end.

(** [epoll_ctl(EPOLL_CTL_MOD)] on a registered descriptor. *)
Definition epoll_ctl_mod (fd : Z) (ev : epoll_event) (p : Poller) : Poller :=
  set_interest (<[fd := mkInterest ev true]> (interest p)) p.

(** [Poller()], for the descriptors that [epoll_create1] and [eventfd]
    returned. *)
Definition Poller_new (efd wfd : Z) : Poller :=
  let p := mkPoller efd wfd ∅ 0 false in
  let ev := set_data_fd wfd (set_events (Z.lor EPOLLIN EPOLLET) event_zero) in
  default p (epoll_ctl_add wfd ev p).

(** [wake()]: [write(wake_fd_, 1)]. *)
Definition wake (p : Poller) : Poller :=
  mkPoller (epoll_fd_ p) (wake_fd_ p) (interest p) (wake_counter p + 1) true.

(** The registration shared by [add_read] and [add_write]:
    [ADD], and [MOD] when the descriptor is already there. *)
Definition add_interest (evmask : Z) (fd udata : Z) (p : Poller) : Poller :=
  let ev := set_data_ptr udata (set_events evmask event_zero) in
  match epoll_ctl_add fd ev p with
  | Some p' => p'
  | None => epoll_ctl_mod fd ev p
  end.

(** [add_read(fd, udata)]. *)
Definition add_read (fd udata : Z) (p : Poller) : Poller :=
  add_interest (Z.lor (Z.lor EPOLLIN EPOLLONESHOT) EPOLLRDHUP) fd udata p.

(** [add_write(fd, udata)]. *)
Definition add_write (fd udata : Z) (p : Poller) : Poller :=
  add_interest (Z.lor (Z.lor EPOLLOUT EPOLLONESHOT) EPOLLRDHUP) fd udata p.

(** The kernel side of [epoll_wait] for one descriptor that has become
    ready: an armed entry is reported with the [data] it was registered
    with, and disarmed if it is one-shot; the eventfd is ready when a
    write is pending (it is registered edge-triggered). *)
Definition report (fd : Z) (p : Poller) : option epoll_event * Poller :=
  match interest p !! fd with
  | Some i =>
      if armed i && (negb (fd =? wake_fd_ p) || wake_pending p) then
        let oneshot := Z.testbit (events (registered i)) 30 in
        let p1 := if oneshot
                  then set_interest (<[fd := mkInterest (registered i) false]> (interest p)) p
                  else p in
        let p2 := if fd =? wake_fd_ p
                  then mkPoller (epoll_fd_ p1) (wake_fd_ p1) (interest p1) (wake_counter p1) false
                  else p1 in
        (Some (mkEvent (events (registered i)) (data (registered i))), p2)
      else (None, p)
  | None => (None, p)
  end.

(** [epoll_wait(epoll_fd_, events_, 128, timeout_ms)] when the descriptors
    [ready] have become ready: the filled prefix of [events_]. *)
Fixpoint epoll_wait_fill (room : nat) (ready : list Z) (p : Poller)
    : list epoll_event * Poller :=
  match ready, room with
  | [], _ | _, O => ([], p)
  | fd :: rest, S room' =>
      match report fd p with
      | (Some ev, p1) =>
          let '(evs, p2) := epoll_wait_fill room' rest p1 in (ev :: evs, p2)
      | (None, p1) => epoll_wait_fill room rest p1
      end
  end.

Definition epoll_wait (ready : list Z) (p : Poller) : list epoll_event * Poller :=
  epoll_wait_fill 128 ready p.

(** [read(wake_fd_, &val, 8)]: an eventfd read resets the counter. *)
Definition read_wake_fd (p : Poller) : Poller :=
  mkPoller (epoll_fd_ p) (wake_fd_ p) (interest p) 0 (wake_pending p).

(** The loop of [wait] over the [n] events that [epoll_wait] stored.
    The callback is a state transformer on [St]. *)
Fixpoint wait_loop {St : Type} (callback : Z -> St -> St)
    (evs : list epoll_event) (ps : Poller * St) : Poller * St :=
  match evs with
  | [] => ps
  | ev :: rest =>
      if data_ptr ev =? nullptr
      then wait_loop callback rest (read_wake_fd (fst ps), snd ps)
      else wait_loop callback rest (fst ps, callback (data_ptr ev) (snd ps))
  end.

(** [wait(timeout_ms, callback)], returning [n]. *)
Definition wait {St : Type} (ready : list Z) (callback : Z -> St -> St)
    (ps : Poller * St) : Z * (Poller * St) :=
  let '(evs, p1) := epoll_wait ready (fst ps) in
  (Z.of_nat (length evs), wait_loop callback evs (p1, snd ps)).

(** A callback that only records the pointers it is called with. *)
Definition record_call (udata : Z) (calls : list Z) : list Z := calls ++ [udata].

End Epoll.

(** ** poller.h, macOS / FreeBSD branch (kqueue) *)

Module Kqueue.

Definition EVFILT_READ : Z := -1.
Definition EVFILT_WRITE : Z := -2.
Definition EVFILT_USER : Z := -10.

(** The fields of [struct kevent] that the poller reads. *)
Record kevent_t := mkKevent { ident : Z; filter : Z; udata : Z }.

(** The event the kernel reports for the user event that [Poller()]
    adds ([wakeup_id_ = 42], [udata = nullptr]) once [wake()] triggers it. *)
Definition wake_event : kevent_t := mkKevent 42 EVFILT_USER nullptr.

(** The event reported for the registration of [add_read(fd, udata)]. *)
Definition read_event (fd ud : Z) : kevent_t := mkKevent fd EVFILT_READ ud.

(** The event reported for the registration of [add_write(fd, udata)]. *)
Definition write_event (fd ud : Z) : kevent_t := mkKevent fd EVFILT_WRITE ud.

(** The loop of [wait] over the events that [kevent] stored. *)
Fixpoint wait_loop {St : Type} (callback : Z -> St -> St)
    (evs : list kevent_t) (s : St) : St :=
  match evs with
  | [] => s
  | ev :: rest =>
      if filter ev =? EVFILT_USER then wait_loop callback rest s
      else if udata ev =? nullptr then wait_loop callback rest s
      else wait_loop callback rest (callback (udata ev) s)
  end.

(** [wait(timeout_ms, callback)] when [kevent] stored [evs]. *)
Definition wait {St : Type} (evs : list kevent_t) (callback : Z -> St -> St)
    (s : St) : Z * St :=
  (Z.of_nat (length evs), wait_loop callback evs s).

End Kqueue.

(** ** scheduler.h *)

Module Runtime.

(** [struct Timer]; [expiry] in clock ticks. *)
Record Timer := mkTimer { expiry : Z; handle : Z }.

(** [class Reactor].  [timers_] is the min-heap, kept as the list of its
    elements by ascending [expiry] ([top()] is the head). *)
Record Reactor := mkReactor {
  poller_ : Epoll.Poller;
  running_ : bool;
  timers_ : list Timer
}.

(** [class Worker]. *)
Record Worker := mkWorker {
  id_ : Z;
  ebr_state_ : nat;
  local_queue_ : StealQueue.StealQueue;
  parker_ : Parker.Parker
}.

(** [class Scheduler]: [global_queue_] holds the [std::deque<Task>] of the
    [GlobalQueue].  The reactor it owns is the [reactor] of the [World]. *)
Record Scheduler := mkScheduler {
  global_queue_ : list Task.Task;
  workers_ : list Worker;
  stop_ : bool
}.

(** The objects that the functions of one scheduler reach.  [next] is the
    function-local [static std::atomic<size_t> next] of [Scheduler::spawn]:
    the process has one such counter, and the [spawn] of every
    [Scheduler] object advances it. *)
Record World := mkWorld {
  heap : Task.Heap;
  sched : Scheduler;
  reactor : Reactor;
  next : Z
}.

Definition set_heap (hp : Task.Heap) (w : World) : World :=
  mkWorld hp (sched w) (reactor w) (next w).
Definition set_sched (s : Scheduler) (w : World) : World :=
  mkWorld (heap w) s (reactor w) (next w).
Definition set_reactor (r : Reactor) (w : World) : World :=
  mkWorld (heap w) (sched w) r (next w).
Definition set_next (n : Z) (w : World) : World :=
  mkWorld (heap w) (sched w) (reactor w) n.
Definition set_poller (p : Epoll.Poller) (r : Reactor) : Reactor :=
  mkReactor p (running_ r) (timers_ r).
Definition set_timers (ts : list Timer) (r : Reactor) : Reactor :=
  mkReactor (poller_ r) (running_ r) ts.

(** *** GlobalQueue<Task> *)

(** [push(T item)]: the element is move-constructed from [item], which
    is destroyed on return. *)
Definition GlobalQueue_push (item : Task.Task) (qh : list Task.Task * Task.Heap)
    : list Task.Task * Task.Heap :=
  let '((elem, hollow), hp1) := Task.Task_move item (snd qh) in
  (fst qh ++ [elem], Task.Task_drop hollow hp1).

(** [push_ptr(void* ptr)]. *)
Definition GlobalQueue_push_ptr (ptr : Z) (qh : list Task.Task * Task.Heap)
    : list Task.Task * Task.Heap :=
  let '(item, hp1) := Task.from_address ptr (snd qh) in
  GlobalQueue_push item (fst qh, hp1).

(** [pop()]. *)
Definition GlobalQueue_pop (qh : list Task.Task * Task.Heap)
    : option Task.Task * (list Task.Task * Task.Heap) :=
  match fst qh with
  | [] => (None, qh)
  | front :: rest =>
      let '((item, hollow), hp1) := Task.Task_move front (snd qh) in
      (Some item, (rest, Task.Task_drop hollow hp1))
  end.

(** *** Worker and Scheduler *)

(** [Worker::wake()]. *)
Definition Worker_wake (wk : Worker) : Worker :=
  mkWorker (id_ wk) (ebr_state_ wk) (local_queue_ wk) (Parker.unpark (parker_ wk)).

(** [Scheduler::spawn(Task t)]. *)
Definition spawn (t : Task.Task) (w : World) : World :=
  let '((ptr, t'), hp1) := Task.detach t (heap w) in
  let w1 :=
    if ptr =? nullptr then set_heap hp1 w
    else
      let s := sched w in
      let '(q, hp2) := GlobalQueue_push_ptr ptr (global_queue_ s, hp1) in
      let s1 := mkScheduler q (workers_ s) (stop_ s) in
      match workers_ s1 with
      | [] => mkWorld hp2 s1 (reactor w) (next w)
      | _ :: _ =>
          let i := Z.to_nat (next w mod Z.of_nat (length (workers_ s1))) in
          mkWorld hp2
                  (mkScheduler (global_queue_ s1)
                               (alter Worker_wake i (workers_ s1))
                               (stop_ s1))
                  (reactor w)
                  (wrap_size_t (next w + 1))
      end in
  set_heap (Task.Task_drop t' (heap w1)) w1.

(** The call [sched.spawn(Task::from_address(p))] that every waker makes;
    the task that [from_address] returns is the parameter of [spawn]. *)
Definition spawn_from_address (p : Z) (w : World) : World :=
  let '(t, hp) := Task.from_address p (heap w) in
  spawn t (set_heap hp w).

(** [Scheduler::pop_global()]. *)
Definition pop_global (w : World) : option Task.Task * World :=
  let s := sched w in
  let '(r, (q, hp)) := GlobalQueue_pop (global_queue_ s, heap w) in
  (r, mkWorld hp (mkScheduler q (workers_ s) (stop_ s)) (reactor w) (next w)).

(** *** Reactor *)

(** [timers_.push(t)].  The priority queue is the list of its timers in
    the order in which [top()] and [pop()] give them, the earliest expiry
    first.  Among timers with the same expiry the binary heap has an
    order of its own; the list puts the new one last, and no statement
    below depends on the order among equal expiries. *)
Fixpoint timers_push (t : Timer) (ts : list Timer) : list Timer :=
  match ts with
  | [] => [t]
  | u :: rest => if expiry u <=? expiry t then u :: timers_push t rest else t :: ts
  end.

(** [Reactor::add_timer]. *)
Definition add_timer (expiry_ : Z) (h : Z) (w : World) : World :=
  let r := reactor w in
  let ts := timers_push (mkTimer expiry_ h) (timers_ r) in
  let need_wake :=
    match ts with
    | top :: _ => expiry top =? expiry_
    | [] => false
    end in
  let p := if need_wake then Epoll.wake (poller_ r) else poller_ r in
  set_reactor (mkReactor p (running_ r) ts) w.

(** [Reactor::register_read]. *)
Definition register_read (fd h : Z) (w : World) : World :=
  set_reactor (set_poller (Epoll.add_read fd h (poller_ (reactor w))) (reactor w)) w.

(** [Reactor::register_write]. *)
Definition register_write (fd h : Z) (w : World) : World :=
  set_reactor (set_poller (Epoll.add_write fd h (poller_ (reactor w))) (reactor w)) w.

(** The lambda [io_handler] of [Reactor::loop]. *)
Definition io_handler (udata : Z) (w : World) : World :=
  if udata =? nullptr then w else spawn_from_address udata w.

(** The timer block of [Reactor::loop] at clock value [now]. *)
Fixpoint fire_expired (now : Z) (ts : list Timer) (w : World) : list Timer * World :=
  match ts with
  | [] => ([], w)
  | t :: rest =>
      if expiry t <=? now
      then fire_expired now rest (spawn_from_address (handle t) w)
      else (ts, w)
  end.

Definition handle_timers (now : Z) (w : World) : World :=
  let '(ts, w1) := fire_expired now (timers_ (reactor w)) w in
  set_reactor (set_timers ts (reactor w1)) w1.

(** One turn of the [while (running_)] loop: the descriptors [ready]
    become ready during [poller_.wait], the clock reads [now] afterwards.
    The timeout that the loop computes only bounds how long the kernel
    waits; what is ready when it returns is an input here. *)
Definition loop_turn (ready : list Z) (now : Z) (w : World) : World :=
  let '(_, (p, w1)) := Epoll.wait ready io_handler (poller_ (reactor w), w) in
  handle_timers now (set_reactor (set_poller p (reactor w1)) w1).

(** *** AsyncSleep (scheduler.h) and the socket awaiters (socket.h) *)

(** [AsyncSleep::await_suspend(h)] with [duration_ = d], called at [now]. *)
Definition AsyncSleep_await_suspend (d now : Z) (h : Z) (w : World) : World :=
  add_timer (now + d) h w.

(** [AsyncReadAwaiter::await_suspend(h)] with [fd_ = fd]. *)
Definition AsyncRead_await_suspend (fd : Z) (h : Z) (w : World) : World :=
  register_read fd h (set_heap (Task.fetch_add_ref h (heap w)) w).

(** [AsyncWriteAwaiter::await_suspend(h)] with [fd_ = fd]. *)
Definition AsyncWrite_await_suspend (fd : Z) (h : Z) (w : World) : World :=
  register_write fd h (set_heap (Task.fetch_add_ref h (heap w)) w).

(** [AsyncAcceptAwaiter::await_suspend(h)] with [fd_ = fd]. *)
Definition AsyncAccept_await_suspend (fd : Z) (h : Z) (w : World) : World :=
  register_read fd h (set_heap (Task.fetch_add_ref h (heap w)) w).

(** The end of [Worker::run_once] for a task it took from the global
    queue: after [task->resume()] returns, the [std::optional<Task>] is
    destroyed. *)
Definition release (t : Task.Task) (w : World) : World :=
  set_heap (Task.Task_drop t (heap w)) w.

(** [spawn] called for each task of [ts], in order. *)
Definition spawn_all (ts : list Task.Task) (w : World) : World :=
  foldl (fun w t => spawn t w) w ts.

(** A [spawn] of a task on another [Scheduler] of the process, one that
    has workers, as this scheduler's world sees it: the [fetch_add]
    moves the shared counter; the queue and the workers it touches
    belong to the other object. *)
Definition spawn_elsewhere (w : World) : World :=
  set_next (wrap_size_t (next w + 1)) w.

(** The spawns of the process, in the order of their [fetch_add] on
    [next]: on this scheduler, or on another one. *)
Inductive SpawnEvent :=
| Here (t : Task.Task)
| Elsewhere.

Definition spawn_event (e : SpawnEvent) (w : World) : World :=
  match e with
  | Here t => spawn t w
  | Elsewhere => spawn_elsewhere w
  end.

Definition spawn_events (es : list SpawnEvent) (w : World) : World :=
  foldl (fun w e => spawn_event e w) w es.

(** [pop_global] called [n] times; the tasks it returned, in order. *)
Fixpoint pop_global_n (n : nat) (w : World) : list Task.Task * World :=
  match n with
  | O => ([], w)
  | S n' =>
      match pop_global w with
      | (Some t, w1) => let '(ts, w2) := pop_global_n n' w1 in (t :: ts, w2)
      | (None, w1) => pop_global_n n' w1
      end
  end.

(** The parker state of worker [k]. *)
Definition parker_state_at (k : nat) (w : World) : option Parker.State :=
  (fun wk => Parker.state (parker_ wk)) <$> workers_ (sched w) !! k.

(** The order that [timers_] keeps: every timer expires no later than
    those behind it. *)
Fixpoint timers_sorted (ts : list Timer) : Prop :=
  match ts with
  | [] => True
  | t :: rest => Forall (fun u => expiry t <= expiry u) rest /\ timers_sorted rest
  end.

(** [Worker::steal()] of worker [idx]: a thief's [steal] on its deque. *)
Definition Worker_steal (idx : nat) (w : World) : option (option Task.Task * World) :=
  match workers_ (sched w) !! idx with
  | None => None
  | Some wk =>
      let '(r, hp, q) := StealQueue.steal (heap w) (local_queue_ wk) in
      let wk' := mkWorker (id_ wk) (ebr_state_ wk) q (parker_ wk) in
      let s := sched w in
      Some (r, mkWorld hp
                 (mkScheduler (global_queue_ s) (<[idx := wk']> (workers_ s))
                              (stop_ s))
                 (reactor w) (next w))
  end.

(** The loop of [Scheduler::steal] over the victims [idxs]. *)
Fixpoint steal_scan (idxs : list nat) (w : World) : option Task.Task * World :=
  match idxs with
  | [] => (None, w)
  | idx :: rest =>
      match Worker_steal idx w with
      | None => (None, w)
      | Some (Some t, w') => (Some t, w')
      | Some (None, w') => steal_scan rest w'
      end
  end.

(** [Scheduler::steal()] when the random generator draws [start]. *)
Definition Scheduler_steal (start : Z) (w : World) : option Task.Task * World :=
  let n := Z.of_nat (length (workers_ (sched w))) in
  if n <=? 1 then (None, w)
  else steal_scan (map (fun i => Z.to_nat ((start + i) mod n)) (seqZ 0 n)) w.

End Runtime.

(** ** socket.h: the eager system call of the I/O awaiters *)

Module Socket.

(** The outcome of one non-blocking [read], [write] or [accept]: a
    non-negative return value, which leaves [errno] alone, or [-1] with
    [errno] set. *)
Inductive SysResult :=
| SysOk (n : Z)
| SysErr (e : Z).

(** The value the call returns and [errno] after it. *)
Definition sys_return (r : SysResult) : Z :=
  match r with SysOk n => n | SysErr _ => -1 end.
Definition sys_errno (r : SysResult) (errno : Z) : Z :=
  match r with SysOk _ => errno | SysErr e => e end.

Section WithErrno.

(** The platform's values of the two error codes. *)
Variables EAGAIN EWOULDBLOCK : Z.

Definition would_block (errno : Z) : bool :=
  (errno =? EAGAIN) || (errno =? EWOULDBLOCK).

(** [AsyncReadAwaiter::await_ready] and [AsyncWriteAwaiter::await_ready]
    when the call they make has outcome [r]: the answer, [result_] and
    [errno] afterwards. *)
Definition await_ready (r : SysResult) (errno : Z) : bool * Z * Z :=
  let result_ := sys_return r in
  let errno1 := sys_errno r errno in
  if 0 <=? result_ then (true, result_, errno1)
  else if would_block errno1 then (false, result_, errno1)
  else (true, result_, errno1).

(** [await_resume] of the same awaiters, for the [result_] stored and
    the [errno] of the resuming thread; [retry] is the outcome of the
    call it makes if it makes one.  Returns the value, whether the call
    was made, and [errno] afterwards. *)
Definition await_resume (result_ errno : Z) (retry : SysResult) : Z * bool * Z :=
  if (result_ <? 0) && would_block errno
  then (sys_return retry, true, sys_errno retry errno)
  else (result_, false, errno).

End WithErrno.

End Socket.

(** ** async_mutex.h *)

Module AsyncMutex.

(** [class AsyncMutex]: the state guarded by [wait_mtx_]. *)
Record AsyncMutex := mkMutex { locked_ : bool; waiters_ : list Z }.

(** [AsyncMutex(Scheduler&)]. *)
Definition AsyncMutex_new : AsyncMutex := mkMutex false [].

(** [LockAwaiter::await_ready()]. *)
Definition await_ready (m : AsyncMutex) : bool * AsyncMutex :=
  if negb (locked_ m) then (true, mkMutex true (waiters_ m)) else (false, m).

(** [LockAwaiter::await_suspend(h)]. *)
Definition await_suspend (h : Z) (m : AsyncMutex) : bool * AsyncMutex :=
  if negb (locked_ m) then (false, mkMutex true (waiters_ m))
  else (true, mkMutex (locked_ m) (waiters_ m ++ [h])).

(** [unlock()]. *)
Definition unlock (mw : AsyncMutex * Runtime.World) : AsyncMutex * Runtime.World :=
  let '(m, w) := mw in
  match waiters_ m with
  | [] => (mkMutex false (waiters_ m), w)
  | h :: rest => (mkMutex (locked_ m) rest, Runtime.spawn_from_address h w)
  end.

(** [unlock()] called [n] times. *)
Fixpoint unlock_n (n : nat) (mw : AsyncMutex * Runtime.World) : AsyncMutex * Runtime.World :=
  match n with
  | O => mw
  | S n' => unlock_n n' (unlock mw)
  end.

(** [await_suspend] called for each handle of [hs], in order. *)
Fixpoint suspend_all (hs : list Z) (m : AsyncMutex) : AsyncMutex :=
  match hs with
  | [] => m
  | h :: rest => suspend_all rest (snd (await_suspend h m))
  end.

(** Waiters are queued only behind a holder. *)
Definition mutex_inv (m : AsyncMutex) : Prop := waiters_ m <> [] -> locked_ m = true.

(** The calls that coroutines make on a mutex.  [co_await m.lock()] by
    the coroutine with handle [h] is [await_ready] and, when that
    returns false, [await_suspend(h)]: each takes [wait_mtx_] on its own,
    so calls of other coroutines run between the two.  [unlock()] is
    made by the guard of a holder. *)
Inductive Op :=
| OpReady (h : Z)
| OpSuspend (h : Z)
| OpUnlock.

(** [l] without the first [h]; [None] when [h] is not in [l]. *)
Fixpoint take_out (h : Z) (l : list Z) : option (list Z) :=
  match l with
  | [] => None
  | x :: rest => if x =? h then Some rest else cons x <$> take_out h rest
  end.

(** A mutex in use: the mutex, the runtime, the coroutines that own a
    [ScopedLock], and the coroutines whose [await_ready] returned false
    and whose [await_suspend] has not run yet. *)
Record Config := mkConfig {
  mutex : AsyncMutex;
  world : Runtime.World;
  holders : list Z;
  between : list Z
}.

(** One call.  [co_await m.lock()] yields a guard at once when
    [await_ready] is true or [await_suspend] returns false; a waiter
    that [unlock] spawns gets its guard from [await_resume].  [None]:
    [await_suspend] by a coroutine that is not between the two calls,
    or [unlock] without a holder. *)
Definition step (o : Op) (c : Config) : option Config :=
  match o with
  | OpReady h =>
      let '(ready, m1) := await_ready (mutex c) in
      if ready then Some (mkConfig m1 (world c) (h :: holders c) (between c))
      else Some (mkConfig m1 (world c) (holders c) (h :: between c))
  | OpSuspend h =>
      match take_out h (between c) with
      | None => None
      | Some others =>
          let '(suspended, m2) := await_suspend h (mutex c) in
          if suspended then Some (mkConfig m2 (world c) (holders c) others)
          else Some (mkConfig m2 (world c) (h :: holders c) others)
      end
  | OpUnlock =>
      match holders c with
      | [] => None
      | _ :: others =>
          let '(m', w') := unlock (mutex c, world c) in
          match waiters_ (mutex c) with
          | [] => Some (mkConfig m' w' others (between c))
          | next :: _ => Some (mkConfig m' w' (next :: others) (between c))
          end
      end
  end.

Fixpoint run (ops : list Op) (c : Config) : option Config :=
  match ops with
  | [] => Some c
  | o :: rest =>
      match step o c with
      | None => None
      | Some c' => run rest c'
      end
  end.

(** A new mutex that no coroutine has called yet. *)
Definition Config_new (w : Runtime.World) : Config := mkConfig AsyncMutex_new w [] [].

(** At most one coroutine owns a guard, and [locked_] says whether one
    does. *)
Definition exclusive (c : Config) : Prop :=
  (length (holders c) <= 1)%nat
  /\ (locked_ (mutex c) = true <-> holders c <> [])
  /\ mutex_inv (mutex c).

End AsyncMutex.

(** ** channel.h *)

Module Channel.

Section WithElem.

Context {T : Type}.

(** [Channel::SenderWaiter]. *)
Record SenderWaiter := mkSenderWaiter { sw_handle : Z; value_ptr : Z }.

(** [Channel::RecvWaiter]. *)
Record RecvWaiter := mkRecvWaiter { rw_handle : Z; result_ptr : Z }.

(** [class Channel<T>]: the state guarded by [mtx_]. *)
Record Channel := mkChannel {
  capacity_ : Z;
  closed_ : bool;
  buffer_ : list T;
  send_waiters_ : list SenderWaiter;
  recv_waiters_ : list RecvWaiter
}.

(** [Channel::SendAwaiter], without its reference to the channel. *)
Record SendAwaiter := mkSendAwaiter { value : T; s_result : bool }.

(** [Channel::RecvAwaiter], without its reference to the channel. *)
Record RecvAwaiter := mkRecvAwaiter { r_result : option T }.

(** A channel, the awaiters that live in coroutine frames ([senders] by
    the address of their [value], [receivers] by the address of their
    [result]) and the runtime. *)
Record State := mkState {
  chan : Channel;
  senders : gmap Z SendAwaiter;
  receivers : gmap Z RecvAwaiter;
  world : Runtime.World
}.

(** [Channel(sched, capacity)]. *)
Definition Channel_new (capacity : Z) : Channel := mkChannel capacity false [] [] [].

(** [send(val)] builds [SendAwaiter{*this, val}]; [result] starts [true]. *)
Definition SendAwaiter_new (v : T) : SendAwaiter := mkSendAwaiter v true.

(** [recv()] builds [RecvAwaiter{*this}]; [result] starts empty. *)
Definition RecvAwaiter_new : RecvAwaiter := mkRecvAwaiter None.

(** The first loop of [close]. *)
Fixpoint wake_senders (ws : list SenderWaiter) (w : Runtime.World) : Runtime.World :=
  match ws with
  | [] => w
  | x :: rest => wake_senders rest (Runtime.spawn_from_address (sw_handle x) w)
  end.

(** The second loop of [close]. *)
Fixpoint wake_receivers (ws : list RecvWaiter)
    (rw : gmap Z RecvAwaiter * Runtime.World) : gmap Z RecvAwaiter * Runtime.World :=
  match ws with
  | [] => rw
  | x :: rest =>
      let rs := if result_ptr x =? nullptr then fst rw
                else <[result_ptr x := mkRecvAwaiter None]> (fst rw) in
      wake_receivers rest (rs, Runtime.spawn_from_address (rw_handle x) (snd rw))
  end.

(** [close()]. *)
Definition close (s : State) : State :=
  let c := chan s in
  if closed_ c then s
  else
    let w1 := wake_senders (send_waiters_ c) (world s) in
    let '(rs, w2) := wake_receivers (recv_waiters_ c) (receivers s, w1) in
    mkState (mkChannel (capacity_ c) true (buffer_ c) [] []) (senders s) rs w2.

(** [~Channel()]. *)
Definition Channel_destroy (s : State) : State := close s.

(** [is_closed()]. *)
Definition is_closed (s : State) : bool := closed_ (chan s).

(** [SendAwaiter::await_suspend(h)] for the awaiter at [this].
    [None]: no awaiter lives at [this]. *)
Definition send_await_suspend (this h : Z) (s : State) : option (bool * State) :=
  match senders s !! this with
  | None => None
  | Some aw =>
      let c := chan s in
      if closed_ c then
        Some (false, mkState c (<[this := mkSendAwaiter (value aw) false]> (senders s))
                             (receivers s) (world s))
      else
        match recv_waiters_ c with
        | waiter :: rest =>
            Some (false,
                  mkState (mkChannel (capacity_ c) (closed_ c) (buffer_ c)
                                     (send_waiters_ c) rest)
                          (senders s)
                          (<[result_ptr waiter := mkRecvAwaiter (Some (value aw))]> (receivers s))
                          (Runtime.spawn_from_address (rw_handle waiter) (world s)))
        | [] =>
            if Z.of_nat (length (buffer_ c)) <? capacity_ c then
              Some (false,
                    mkState (mkChannel (capacity_ c) (closed_ c) (buffer_ c ++ [value aw])
                                       (send_waiters_ c) (recv_waiters_ c))
                            (senders s) (receivers s) (world s))
            else
              Some (true,
                    mkState (mkChannel (capacity_ c) (closed_ c) (buffer_ c)
                                       (send_waiters_ c ++ [mkSenderWaiter h this])
                                       (recv_waiters_ c))
                            (senders s) (receivers s) (world s))
        end
  end.

(** [SendAwaiter::await_resume()]. *)
Definition send_await_resume (this : Z) (s : State) : option bool :=
  s_result <$> senders s !! this.

(** [RecvAwaiter::await_suspend(h)] for the awaiter at [this].
    [None]: a queued sender's [value_ptr] points at no awaiter. *)
Definition recv_await_suspend (this h : Z) (s : State) : option (bool * State) :=
  let c := chan s in
  match buffer_ c with
  | front :: rest_buf =>
      let rs := <[this := mkRecvAwaiter (Some front)]> (receivers s) in
      match send_waiters_ c with
      | sender :: rest_w =>
          match senders s !! value_ptr sender with
          | None => None
          | Some sa =>
              Some (false,
                    mkState (mkChannel (capacity_ c) (closed_ c) (rest_buf ++ [value sa])
                                       rest_w (recv_waiters_ c))
                            (senders s) rs
                            (Runtime.spawn_from_address (sw_handle sender) (world s)))
          end
      | [] =>
          Some (false,
                mkState (mkChannel (capacity_ c) (closed_ c) rest_buf
                                   (send_waiters_ c) (recv_waiters_ c))
                        (senders s) rs (world s))
      end
  | [] =>
      match send_waiters_ c with
      | sender :: rest_w =>
          match senders s !! value_ptr sender with
          | None => None
          | Some sa =>
              Some (false,
                    mkState (mkChannel (capacity_ c) (closed_ c) (buffer_ c)
                                       rest_w (recv_waiters_ c))
                            (senders s)
                            (<[this := mkRecvAwaiter (Some (value sa))]> (receivers s))
                            (Runtime.spawn_from_address (sw_handle sender) (world s)))
          end
      | [] =>
          if closed_ c then
            Some (false,
                  mkState c (senders s) (<[this := mkRecvAwaiter None]> (receivers s))
                          (world s))
          else
            Some (true,
                  mkState (mkChannel (capacity_ c) (closed_ c) (buffer_ c)
                                     (send_waiters_ c)
                                     (recv_waiters_ c ++ [mkRecvWaiter h this]))
                          (senders s) (receivers s) (world s))
      end
  end.

(** [RecvAwaiter::await_resume()]. *)
Definition recv_await_resume (this : Z) (s : State) : option (option T) :=
  r_result <$> receivers s !! this.

(** The state invariant of a channel (its capacity is [capacity_]). *)
Definition chan_inv (c : Channel) : Prop :=
  Z.of_nat (length (buffer_ c)) <= capacity_ c
  /\ (buffer_ c <> [] -> recv_waiters_ c = [])
  /\ (Z.of_nat (length (buffer_ c)) < capacity_ c -> send_waiters_ c = []).

(** Every queued sender's [value_ptr] points at a live awaiter. *)
Definition senders_live (s : State) : Prop :=
  Forall (fun x => is_Some (senders s !! value_ptr x)) (send_waiters_ (chan s)).

(** What one operation taking [s] to [s'] must keep: the invariant, the
    capacity, a raised [closed_] flag and the liveness of queued senders. *)
Definition preserved (s s' : State) : Prop :=
  chan_inv (chan s')
  /\ capacity_ (chan s') = capacity_ (chan s)
  /\ (closed_ (chan s) = true -> closed_ (chan s') = true)
  /\ senders_live s'.

End WithElem.

Arguments Channel : clear implicits.
Arguments SendAwaiter : clear implicits.
Arguments RecvAwaiter : clear implicits.
Arguments State : clear implicits.

(** What a [co_await] on a channel awaiter comes to at once: the
    coroutine is suspended, or it goes on with the value of
    [await_resume]. *)
Inductive Await (R : Type) :=
| Suspended
| Returned (r : R).

Arguments Suspended {R}.
Arguments Returned {R} r.

Section WithElemAwait.

Context {T : Type}.

(** [co_await ch.send(v)] for the awaiter at [this] in coroutine [h]:
    [await_ready] is false, [await_suspend] runs, and unless it suspends
    [await_resume] gives the result. *)
Definition co_send (this h : Z) (s : State T) : option (Await bool * State T) :=
  match send_await_suspend this h s with
  | None => None
  | Some (true, s') => Some (Suspended, s')
  | Some (false, s') =>
      match send_await_resume this s' with
      | Some r => Some (Returned r, s')
      | None => None
      end
  end.

(** [co_await ch.recv()] likewise. *)
Definition co_recv (this h : Z) (s : State T) : option (Await (option T) * State T) :=
  match recv_await_suspend this h s with
  | None => None
  | Some (true, s') => Some (Suspended, s')
  | Some (false, s') =>
      match recv_await_resume this s' with
      | Some r => Some (Returned r, s')
      | None => None
      end
  end.

(** The awaiters of [xs] (address, coroutine), one [co_await] after another. *)
Fixpoint co_send_all (xs : list (Z * Z)) (s : State T)
    : option (list (Await bool) * State T) :=
  match xs with
  | [] => Some ([], s)
  | (this, h) :: rest =>
      match co_send this h s with
      | None => None
      | Some (r, s1) =>
          match co_send_all rest s1 with
          | None => None
          | Some (rs, s2) => Some (r :: rs, s2)
          end
      end
  end.

Fixpoint co_recv_all (xs : list (Z * Z)) (s : State T)
    : option (list (Await (option T)) * State T) :=
  match xs with
  | [] => Some ([], s)
  | (this, h) :: rest =>
      match co_recv this h s with
      | None => None
      | Some (r, s1) =>
          match co_recv_all rest s1 with
          | None => None
          | Some (rs, s2) => Some (r :: rs, s2)
          end
      end
  end.

End WithElemAwait.

End Channel.

(** ** mini_redis.cpp: the request tokenizer *)

Module MiniRedis.

(** Characters of a [std::string]. *)
Definition CR : ascii := "013"%char.
Definition LF : ascii := "010"%char.

(** The scan of [data.find("\r\n", pos)] over [l], the characters of
    [data] from index [i] on. *)
Fixpoint find_from (l : list ascii) (i : nat) : option nat :=
  match l with
  | [] => None
  | a :: tl =>
      match tl with
      | [] => None
      | b :: _ => if Ascii.eqb a CR && Ascii.eqb b LF then Some i else find_from tl (S i)
      end
  end.

(** [data.find("\r\n", pos)]; [None] is [std::string::npos]. *)
Definition find (data : list ascii) (pos : nat) : option nat := find_from (drop pos data) pos.

(** [data.substr(pos, n)]. *)
Definition substr (data : list ascii) (pos n : nat) : list ascii := take n (drop pos data).

(** The [while] loop of [parse_resp]; [None] when [fuel] iterations do
    not reach its end. *)
Fixpoint parse_loop (fuel : nat) (data : list ascii) (pos : nat) (tokens : list (list ascii))
    : option (list (list ascii)) :=
  if (pos <? length data)%nat then
    match fuel with
    | O => None
    | S fuel' =>
        match find data pos with
        | None => Some tokens
        | Some rn =>
            let line := substr data pos (rn - pos) in
            let pos' := (rn + 2)%nat in
            match line with
            | [] => parse_loop fuel' data pos' tokens
            | c :: _ =>
                if Ascii.eqb c "*"%char || Ascii.eqb c "$"%char
                then parse_loop fuel' data pos' tokens
                else parse_loop fuel' data pos' (tokens ++ [line])
            end
        end
    end
  else Some tokens.

(** [parse_resp(data)]. *)
Definition parse_resp (data : list ascii) : option (list (list ascii)) :=
  parse_loop (length data) data 0 [].

(** The lines that [parse_resp] keeps. *)
Definition is_token (line : list ascii) : bool :=
  match line with
  | [] => false
  | c :: _ => negb (Ascii.eqb c "*"%char || Ascii.eqb c "$"%char)
  end.

End MiniRedis.

(** ** http/http_server.h: the upload loop *)

Module HttpServer.

(** What [receive_to_file] has done when it returns or stays suspended in
    a read: the bytes written to the file, the sizes it asked of
    [socket_.read], and whether it returned. *)
Record Upload := mkUpload { file_bytes : Z; requests : list Z; returned : bool }.

(** [sizeof(buf)]. *)
Definition buf_size : Z := 8192.

(** The [while] loop.  [reads] gives the result of each completed
    [co_await socket_.read(buf, to_read)] as a function of [to_read]; when
    it runs out the coroutine stays suspended in the read. *)
Fixpoint receive_loop (reads : list (Z -> Z)) (content_length total_received file : Z)
    (reqs : list Z) : Upload :=
  if total_received <? content_length then
    let to_read := Z.min buf_size (content_length - total_received) in
    match reads with
    | [] => mkUpload file (reqs ++ [to_read]) false
    | rd :: rest =>
        let n := rd to_read in
        if n <=? 0 then mkUpload file (reqs ++ [to_read]) true
        else receive_loop rest content_length (total_received + n) (file + n)
                          (reqs ++ [to_read])
    end
  else mkUpload file reqs true.

(** [receive_to_file(save_path, content_length, initial_data)] with
    [initial_size = initial_data.size()]; [is_open] is [file.is_open()]. *)
Definition receive_to_file (is_open : bool) (content_length initial_size : Z)
    (reads : list (Z -> Z)) : Upload :=
  if negb is_open then mkUpload 0 [] true
  else
    let to_write := Z.min initial_size content_length in
    if negb (initial_size =? 0)
    then receive_loop reads content_length to_write to_write []
    else receive_loop reads content_length 0 0 [].

End HttpServer.

(** ** http/http_parser.h: header lookup *)

Module HttpRequest.

(** [HttpRequest::Header]; a [std::string_view] is its characters. *)
Record Header := mkHeader { name : list ascii; value : list ascii }.

(** [std::tolower] in the "C" locale, which the program never changes:
    only [A] to [Z] move. *)
Definition tolower (c : ascii) : ascii :=
  let n := nat_of_ascii c in
  if (65 <=? n)%nat && (n <=? 90)%nat then ascii_of_nat (n + 32) else c.

(** The inner [for] loop of [get_header], entered with
    [h.name.size() == name.size()]: the value of [match] at its end. *)
Fixpoint names_match (hname name : list ascii) : bool :=
  match name, hname with
  | c :: name', d :: hname' =>
      if Ascii.eqb (tolower d) (tolower c) then names_match hname' name' else false
  | _, _ => true
  end.

(** [get_header(name)] over [headers]; the empty view when none matches. *)
Fixpoint get_header (headers : list Header) (nm : list ascii) : list ascii :=
  match headers with
  | [] => []
  | h :: rest =>
      if (length (name h) =? length nm)%nat && names_match (name h) nm
      then value h
      else get_header rest nm
  end.

(** Two names that [get_header] does not tell apart: the same length and
    the same characters after [tolower]. *)
Definition same_name (a b : list ascii) : Prop :=
  Forall2 (fun c d => tolower c = tolower d) a b.

End HttpRequest.

(** * Properties *)

(** ** Machine integers *)

Lemma wrap_int_id x : - 2 ^ 31 <= x < 2 ^ 31 -> wrap_int x = x.
Proof.
  intros Hx. unfold wrap_int.
  rewrite Z.mod_small by lia. lia.
Qed.

Lemma wrap_size_t_id x : 0 <= x < 2 ^ 64 -> wrap_size_t x = x.
Proof. intros Hx. unfold wrap_size_t. now rewrite Z.mod_small. Qed.

(** ** Task handles *)

Lemma eqb_nullptr_false h : h <> nullptr -> (h =? nullptr) = false.
Proof. intros Hh. now apply Z.eqb_neq. Qed.

Lemma detach_heap t hp : snd (Task.detach t hp) = hp.
Proof. reflexivity. Qed.

Lemma detach_ptr t hp : fst (fst (Task.detach t hp)) = Task.handle t.
Proof.
  unfold Task.detach, nullptr. simpl.
  destruct (Z.eqb_spec (Task.handle t) 0) as [-> | _]; reflexivity.
Qed.

Lemma from_address_task ptr hp : Task.from_address ptr hp = (Task.mkTask ptr, hp).
Proof.
  unfold Task.from_address, Task.Task_default, Task.Task_adopt, nullptr.
  destruct (Z.eqb_spec ptr 0) as [-> | _]; reflexivity.
Qed.

Lemma Task_drop_null hp : Task.Task_drop (Task.mkTask nullptr) hp = hp.
Proof. reflexivity. Qed.

Lemma count_of_fetch_add h hp n :
  Task.count_of h hp = Some n ->
  Task.count_of h (Task.fetch_add_ref h hp) = Some (wrap_int (n + 1)).
Proof.
  unfold Task.count_of, Task.fetch_add_ref. intros Hn.
  rewrite lookup_alter_eq.
  destruct (hp !! h) as [p |]; simpl in *; [| discriminate].
  now inversion Hn.
Qed.

Lemma count_of_to_address t hp n :
  Task.handle t <> nullptr ->
  Task.count_of (Task.handle t) hp = Some n ->
  Task.count_of (Task.handle t) (snd (Task.to_address t hp)) = Some (wrap_int (n + 1)).
Proof.
  intros Hh Hn. unfold Task.to_address.
  rewrite eqb_nullptr_false by assumption. simpl.
  now apply count_of_fetch_add.
Qed.

Lemma count_of_drop t hp n :
  Task.handle t <> nullptr ->
  Task.count_of (Task.handle t) hp = Some n ->
  Task.count_of (Task.handle t) (Task.Task_drop t hp) = Some (wrap_int (n - 1)).
Proof.
  intros Hh Hn. unfold Task.Task_drop, Task.dec_ref, Task.count_of in *.
  rewrite eqb_nullptr_false by assumption.
  destruct (hp !! Task.handle t) as [p |] eqn:Hp; simpl in Hn; [| discriminate].
  inversion Hn; subst n; clear Hn.
  destruct (Task.ref_count p =? 1); unfold Task.destroy;
    rewrite ?lookup_alter_eq, lookup_insert_eq; reflexivity.
Qed.

(** C8.  For a task with a non-null handle, [detach] returns the address
    of the promise and leaves a null handle, without touching any frame;
    [from_address] on that pointer gives back a handle to the same promise,
    again without touching any frame; so after [detach] followed by
    [from_address] the reference count is what it was before [detach]. *)
Theorem detach_from_address_preserves_ref_count (t : Task.Task) (hp : Task.Heap) :
  Task.handle t <> nullptr ->
  let '((ptr, t'), hp1) := Task.detach t hp in
  let '(t2, hp2) := Task.from_address ptr hp1 in
  ptr = Task.handle t /\ Task.handle t' = nullptr /\ hp1 = hp
  /\ t2 = t /\ hp2 = hp1
  /\ Task.count_of (Task.handle t) hp2 = Task.count_of (Task.handle t) hp.
Proof.
  intros Hh. destruct t as [h]. simpl in Hh.
  unfold Task.detach. simpl.
  rewrite eqb_nullptr_false by assumption.
  rewrite from_address_task. repeat split; reflexivity.
Qed.

Lemma detach_from_address_preserves_ref_count_witness :
  let t := Task.mkTask 4096 in
  let hp : Task.Heap := {[ 4096 := Task.mkPromise 3 true nullptr 0 ]} in
  Task.handle t <> nullptr
  /\ (let '((ptr, t'), hp1) := Task.detach t hp in
      let '(t2, hp2) := Task.from_address ptr hp1 in
      ptr = Task.handle t /\ Task.handle t' = nullptr /\ hp1 = hp
      /\ t2 = t /\ hp2 = hp1
      /\ Task.count_of (Task.handle t) hp2 = Task.count_of (Task.handle t) hp).
Proof.
  intros t hp.
  assert (Hh : Task.handle t <> nullptr) by (unfold t, nullptr; simpl; lia).
  split; [exact Hh | exact (detach_from_address_preserves_ref_count t hp Hh)].
Defined.

(** By contrast [to_address] takes a reference that the later adopt
    keeps, and a copy followed by the destruction of the copy is neutral. *)
Example to_address_then_from_address_adds_one :
  let hp : Task.Heap := {[ 4096 := Task.Promise_init ]} in
  let '(ptr, hp1) := Task.to_address (Task.mkTask 4096) hp in
  let '(t2, hp2) := Task.from_address ptr hp1 in
  t2 = Task.mkTask 4096 /\ Task.count_of 4096 hp2 = Some 2.
Proof. split; reflexivity. Qed.

Lemma copy_then_drop_is_neutral t hp n :
  Task.handle t <> nullptr ->
  Task.count_of (Task.handle t) hp = Some n ->
  - 2 ^ 31 <= n < 2 ^ 31 - 1 ->
  let '(t', hp1) := Task.Task_copy t hp in
  Task.count_of (Task.handle t) (Task.Task_drop t' hp1) = Some n.
Proof.
  intros Hh Hn Hr. unfold Task.Task_copy. rewrite (eqb_nullptr_false _ Hh).
  change (Task.handle t) with (Task.handle (Task.mkTask (Task.handle t))) at 1.
  rewrite (count_of_drop _ _ (wrap_int (n + 1))); simpl; [| exact Hh |].
  - rewrite (wrap_int_id (n + 1)) by lia. rewrite wrap_int_id by lia. f_equal. lia.
  - now apply count_of_fetch_add.
Qed.

(** The last handle to go destroys the frame, once. *)
Example last_drop_destroys :
  let hp : Task.Heap := {[ 4096 := Task.Promise_init ]} in
  let hp1 := Task.Task_drop (Task.mkTask 4096) hp in
  Task.count_of 4096 hp1 = Some 0 /\ Task.destroyed_of 4096 hp1 = Some 1%nat.
Proof. split; reflexivity. Qed.

(** ** Scheduler::spawn *)

Lemma set_heap_same w : Runtime.set_heap (Runtime.heap w) w = w.
Proof. now destruct w. Qed.

Lemma spawn_heap t w : Runtime.heap (Runtime.spawn t w) = Runtime.heap w.
Proof.
  destruct t as [h]. unfold Runtime.spawn, Task.detach. simpl.
  destruct (Z.eqb_spec h nullptr) as [Hn | Hn].
  - reflexivity.
  - rewrite !(eqb_nullptr_false h Hn).
    unfold Runtime.GlobalQueue_push_ptr. rewrite from_address_task.
    unfold Runtime.GlobalQueue_push. simpl.
    destruct (Runtime.workers_ (Runtime.sched w)); reflexivity.
Qed.

Lemma spawn_reactor t w : Runtime.reactor (Runtime.spawn t w) = Runtime.reactor w.
Proof.
  destruct t as [h]. unfold Runtime.spawn, Task.detach. simpl.
  destruct (Z.eqb_spec h nullptr) as [Hn | Hn].
  - reflexivity.
  - rewrite !(eqb_nullptr_false h Hn).
    unfold Runtime.GlobalQueue_push_ptr. rewrite from_address_task.
    unfold Runtime.GlobalQueue_push. simpl.
    destruct (Runtime.workers_ (Runtime.sched w)); reflexivity.
Qed.

Lemma spawn_global_queue t w :
  Task.handle t <> nullptr ->
  Runtime.global_queue_ (Runtime.sched (Runtime.spawn t w))
  = Runtime.global_queue_ (Runtime.sched w) ++ [t].
Proof.
  intros Hn. destruct t as [h]. simpl in Hn.
  unfold Runtime.spawn, Task.detach. simpl.
  rewrite !(eqb_nullptr_false h Hn).
  unfold Runtime.GlobalQueue_push_ptr. rewrite from_address_task.
  unfold Runtime.GlobalQueue_push. simpl.
  destruct (Runtime.workers_ (Runtime.sched w)); reflexivity.
Qed.

Lemma spawn_from_address_heap p w :
  Runtime.heap (Runtime.spawn_from_address p w) = Runtime.heap w.
Proof.
  unfold Runtime.spawn_from_address. rewrite from_address_task.
  rewrite spawn_heap. reflexivity.
Qed.

Lemma spawn_from_address_reactor p w :
  Runtime.reactor (Runtime.spawn_from_address p w) = Runtime.reactor w.
Proof.
  unfold Runtime.spawn_from_address. rewrite from_address_task.
  rewrite spawn_reactor. reflexivity.
Qed.

Lemma spawn_from_address_global_queue p w :
  p <> nullptr ->
  Runtime.global_queue_ (Runtime.sched (Runtime.spawn_from_address p w))
  = Runtime.global_queue_ (Runtime.sched w) ++ [Task.mkTask p].
Proof.
  intros Hp. unfold Runtime.spawn_from_address. rewrite from_address_task.
  rewrite spawn_global_queue by exact Hp. reflexivity.
Qed.

(** With a task to run, [spawn] queues it, unparks the worker that
    [next] selects and advances [next]. *)
Example spawn_wakes_round_robin :
  let wk i := Runtime.mkWorker i 0 (StealQueue.StealQueue_new 8192 0)
                               (Parker.mkParker Parker.PARKED 0) in
  let w := Runtime.mkWorld
             {[ 4096 := Task.Promise_init ]}
             (Runtime.mkScheduler [] [wk 0; wk 1] false)
             (Runtime.mkReactor (Epoll.Poller_new 3 4) true []) 3 in
  let w' := Runtime.spawn (Task.mkTask 4096) w in
  Runtime.global_queue_ (Runtime.sched w') = [Task.mkTask 4096]
  /\ Runtime.next w' = 4
  /\ map Runtime.parker_ (Runtime.workers_ (Runtime.sched w'))
     = [Parker.mkParker Parker.PARKED 0; Parker.mkParker Parker.NOTIFIED 1]
  /\ Task.count_of 4096 (Runtime.heap w') = Some 1.
Proof. vm_compute. repeat split; reflexivity. Qed.

(** C9.  [spawn] of a task whose handle is null: [detach] returns
    [nullptr], and the world after the call is the world before it, so
    the global queue, the round-robin counter [next], every worker's
    parker and every coroutine frame are unchanged. *)
Theorem spawn_empty_task_is_noop (t : Task.Task) (w : Runtime.World) :
  Task.handle t = nullptr ->
  fst (fst (Task.detach t (Runtime.heap w))) = nullptr
  /\ Runtime.spawn t w = w.
Proof.
  intros Hn. split.
  - rewrite detach_ptr. exact Hn.
  - destruct w as [hp s r nx].
    unfold Runtime.spawn, Task.detach. rewrite Hn. reflexivity.
Qed.

Lemma spawn_empty_task_is_noop_witness :
  let w := Runtime.mkWorld
             {[ 4096 := Task.Promise_init ]}
             (Runtime.mkScheduler
                [Task.mkTask 4096]
                [Runtime.mkWorker 0 0 (StealQueue.StealQueue_new 8192 0)
                                  (Parker.mkParker Parker.PARKED 0)] false)
             (Runtime.mkReactor (Epoll.Poller_new 3 4) true []) 5 in
  Task.handle Task.Task_default = nullptr
  /\ fst (fst (Task.detach Task.Task_default (Runtime.heap w))) = nullptr
  /\ Runtime.spawn Task.Task_default w = w.
Proof.
  intros w. split; [reflexivity |].
  exact (spawn_empty_task_is_noop Task.Task_default w eq_refl).
Defined.

(** ** AsyncMutex *)

Lemma mutex_inv_new : AsyncMutex.mutex_inv AsyncMutex.AsyncMutex_new.
Proof. intros H. now contradiction H. Qed.

Lemma mutex_inv_await_ready m :
  AsyncMutex.mutex_inv m -> AsyncMutex.mutex_inv (snd (AsyncMutex.await_ready m)).
Proof.
  unfold AsyncMutex.mutex_inv, AsyncMutex.await_ready.
  destruct (AsyncMutex.locked_ m) eqn:Hl; simpl; intros H Hw; auto.
Qed.

Lemma mutex_inv_await_suspend h m :
  AsyncMutex.mutex_inv m -> AsyncMutex.mutex_inv (snd (AsyncMutex.await_suspend h m)).
Proof.
  unfold AsyncMutex.mutex_inv, AsyncMutex.await_suspend.
  destruct (AsyncMutex.locked_ m) eqn:Hl; simpl; intros H Hw; auto.
Qed.

Lemma mutex_inv_unlock m w :
  AsyncMutex.mutex_inv m -> AsyncMutex.mutex_inv (fst (AsyncMutex.unlock (m, w))).
Proof.
  unfold AsyncMutex.mutex_inv, AsyncMutex.unlock.
  destruct (AsyncMutex.waiters_ m) as [| h rest] eqn:Hw; simpl; intros H Hr.
  - now contradiction Hr.
  - apply H. discriminate.
Qed.

Lemma suspend_all_locked hs : forall m,
  AsyncMutex.locked_ m = true ->
  AsyncMutex.suspend_all hs m = AsyncMutex.mkMutex true (AsyncMutex.waiters_ m ++ hs).
Proof.
  induction hs as [| h hs IH]; intros [l ws] Hl; simpl in *; subst l.
  - now rewrite app_nil_r.
  - rewrite IH by reflexivity. simpl. now rewrite <- app_assoc.
Qed.

Lemma unlock_n_drains ws : forall w,
  Forall (fun h => h <> nullptr) ws ->
  exists w',
    AsyncMutex.unlock_n (length ws) (AsyncMutex.mkMutex true ws, w)
    = (AsyncMutex.mkMutex true [], w')
    /\ Runtime.global_queue_ (Runtime.sched w')
       = Runtime.global_queue_ (Runtime.sched w) ++ map Task.mkTask ws.
Proof.
  induction ws as [| h ws IH]; intros w Hnn.
  - exists w. simpl. now rewrite app_nil_r.
  - inversion Hnn as [| ? ? Hh Hrest]; subst.
    destruct (IH (Runtime.spawn_from_address h w) Hrest) as (w' & Hrun & Hq).
    exists w'. split.
    + simpl. exact Hrun.
    + rewrite Hq, spawn_from_address_global_queue by exact Hh.
      now rewrite <- app_assoc.
Qed.

(** C7.  [unlock], under its internal lock: with a waiter queued it takes
    the head of the queue, spawns it and leaves [locked_] true; with no
    waiter it sets [locked_] to false.  [await_suspend] on a held mutex
    appends at the tail, so a run of unlocks spawns the waiters in the
    order in which they were queued. *)
Theorem unlock_passes_baton_in_fifo_order (m : AsyncMutex.AsyncMutex) (w : Runtime.World) :
  AsyncMutex.mutex_inv m ->
  match AsyncMutex.waiters_ m with
  | h :: rest =>
      AsyncMutex.unlock (m, w)
      = (AsyncMutex.mkMutex true rest, Runtime.spawn_from_address h w)
  | [] => AsyncMutex.unlock (m, w) = (AsyncMutex.mkMutex false [], w)
  end
  /\ (forall h, AsyncMutex.locked_ m = true ->
        AsyncMutex.await_suspend h m
        = (true, AsyncMutex.mkMutex true (AsyncMutex.waiters_ m ++ [h])))
  /\ (forall hs, AsyncMutex.locked_ m = true ->
        Forall (fun h => h <> nullptr) (AsyncMutex.waiters_ m ++ hs) ->
        exists w',
          AsyncMutex.unlock_n (length (AsyncMutex.waiters_ m ++ hs))
                              (AsyncMutex.suspend_all hs m, w)
          = (AsyncMutex.mkMutex true [], w')
          /\ Runtime.global_queue_ (Runtime.sched w')
             = Runtime.global_queue_ (Runtime.sched w)
               ++ map Task.mkTask (AsyncMutex.waiters_ m ++ hs)).
Proof.
  intros Hinv. destruct m as [l ws]. unfold AsyncMutex.mutex_inv in Hinv.
  simpl in *. split; [| split].
  - destruct ws as [| h rest]; simpl; [reflexivity |].
    rewrite Hinv by discriminate. reflexivity.
  - intros h ->. reflexivity.
  - intros hs -> Hnn. rewrite suspend_all_locked by reflexivity. simpl.
    apply unlock_n_drains. exact Hnn.
Qed.

Lemma unlock_passes_baton_in_fifo_order_witness :
  let m := AsyncMutex.mkMutex true [4096; 8192] in
  let w := Runtime.mkWorld
             ∅ (Runtime.mkScheduler [] [] false)
             (Runtime.mkReactor (Epoll.Poller_new 3 4) true []) 0 in
  AsyncMutex.mutex_inv m
  /\ AsyncMutex.unlock (m, w)
     = (AsyncMutex.mkMutex true [8192], Runtime.spawn_from_address 4096 w)
  /\ Runtime.global_queue_ (Runtime.sched (snd (AsyncMutex.unlock (m, w))))
     = [Task.mkTask 4096].
Proof.
  intros m w.
  assert (Hinv : AsyncMutex.mutex_inv m) by (intros _; reflexivity).
  split; [exact Hinv |].
  pose proof (unlock_passes_baton_in_fifo_order m w Hinv) as [Hu _].
  split; [exact Hu |].
  rewrite Hu. reflexivity.
Defined.

(** ** Channel *)

Section ChannelFacts.

Context {T : Type}.

Implicit Types (s : Channel.State T) (c : Channel.Channel T).

Lemma close_closed s : Channel.closed_ (Channel.chan (Channel.close s)) = true.
Proof.
  unfold Channel.close.
  destruct (Channel.closed_ (Channel.chan s)) eqn:Hc; [exact Hc |].
  destruct (Channel.wake_receivers _ _). reflexivity.
Qed.

Lemma close_when_closed s :
  Channel.closed_ (Channel.chan s) = true -> Channel.close s = s.
Proof. intros Hc. unfold Channel.close. now rewrite Hc. Qed.

Lemma close_close s : Channel.close (Channel.close s) = Channel.close s.
Proof. apply close_when_closed, close_closed. Qed.

Lemma close_empties_waiters s :
  Channel.closed_ (Channel.chan s) = false ->
  Channel.send_waiters_ (Channel.chan (Channel.close s)) = []
  /\ Channel.recv_waiters_ (Channel.chan (Channel.close s)) = []
  /\ Channel.buffer_ (Channel.chan (Channel.close s)) = Channel.buffer_ (Channel.chan s)
  /\ Channel.capacity_ (Channel.chan (Channel.close s)) = Channel.capacity_ (Channel.chan s)
  /\ Channel.senders (Channel.close s) = Channel.senders s.
Proof.
  intros Hc. unfold Channel.close. rewrite Hc.
  destruct (Channel.wake_receivers _ _). simpl. repeat split; reflexivity.
Qed.

(** On a closed channel neither awaiter suspends, and no waiter is added. *)
Lemma closed_never_suspends s this h r s' :
  Channel.closed_ (Channel.chan s) = true ->
  Channel.send_await_suspend this h s = Some (r, s')
  \/ Channel.recv_await_suspend this h s = Some (r, s') ->
  r = false
  /\ Channel.closed_ (Channel.chan s') = true
  /\ (length (Channel.send_waiters_ (Channel.chan s'))
      <= length (Channel.send_waiters_ (Channel.chan s)))%nat
  /\ (length (Channel.recv_waiters_ (Channel.chan s'))
      <= length (Channel.recv_waiters_ (Channel.chan s)))%nat.
Proof.
  intros Hc [Hop | Hop].
  - unfold Channel.send_await_suspend in Hop.
    destruct (Channel.senders s !! this); [| discriminate].
    rewrite Hc in Hop. inversion Hop; subst; simpl. auto.
  - unfold Channel.recv_await_suspend in Hop.
    destruct (Channel.buffer_ (Channel.chan s)) as [| front rest];
      destruct (Channel.send_waiters_ (Channel.chan s)) as [| x ws] eqn:Hws;
      try destruct (Channel.senders s !! Channel.value_ptr x);
      try rewrite Hc in Hop;
      try discriminate; inversion Hop; subst; simpl; rewrite ?Hws; simpl;
      repeat split; auto with arith.
Qed.

(** C10.  [close] on a channel that is already closed returns at once:
    the buffer, both waiter queues, the flag, the awaiters and the
    runtime (so the global queue: nothing is spawned) are unchanged,
    however often it is called, the destructor's call included. *)
Theorem close_is_idempotent s :
  Channel.closed_ (Channel.chan s) = true ->
  Channel.close s = s
  /\ (forall n, Nat.iter n Channel.close s = s)
  /\ Channel.Channel_destroy s = s.
Proof.
  intros Hc. pose proof (close_when_closed s Hc) as Hs.
  split; [exact Hs |]. split; [| exact Hs].
  induction n as [| n IH]; simpl; [reflexivity |].
  rewrite IH. exact Hs.
Qed.

End ChannelFacts.

Lemma close_is_idempotent_witness :
  let w := Runtime.mkWorld
             ∅ (Runtime.mkScheduler [] [] false)
             (Runtime.mkReactor (Epoll.Poller_new 3 4) true []) 0 in
  let s0 : Channel.State Z :=
    Channel.mkState
      (Channel.mkChannel 0 false [] [] [Channel.mkRecvWaiter 4096 200])
      ∅ {[ 200 := Channel.RecvAwaiter_new ]} w in
  let s := Channel.close s0 in
  Channel.closed_ (Channel.chan s) = true
  /\ Runtime.global_queue_ (Runtime.sched (Channel.world s)) = [Task.mkTask 4096]
  /\ Channel.close s = s
  /\ (forall n, Nat.iter n Channel.close s = s)
  /\ Channel.Channel_destroy s = s.
Proof.
  intros w s0 s.
  assert (Hc : Channel.closed_ (Channel.chan s) = true) by reflexivity.
  split; [exact Hc |]. split; [reflexivity |].
  exact (close_is_idempotent s Hc).
Defined.

Section ChannelInvariant.

Context {T : Type}.

Implicit Types (s : Channel.State T).

Lemma chan_inv_new k : 0 <= k -> Channel.chan_inv (@Channel.Channel_new T k).
Proof.
  intros Hk. unfold Channel.chan_inv. simpl. repeat split; auto.
Qed.

Lemma preserved_send s this h aw :
  Channel.chan_inv (Channel.chan s) ->
  Channel.senders_live s ->
  Channel.senders s !! this = Some aw ->
  exists r s',
    Channel.send_await_suspend this h s = Some (r, s') /\ Channel.preserved s s'.
Proof.
  intros (Hlen & Hrecv & Hsend) Hlive Haw.
  unfold Channel.send_await_suspend. rewrite Haw.
  unfold Channel.preserved, Channel.chan_inv, Channel.senders_live in *.
  destruct s as [[k cl buf sw rw] sd rc w]. simpl in *.
  destruct cl.
  - eexists _, _. split; [reflexivity |]. simpl.
    repeat split; auto.
    eapply Forall_impl; [exact Hlive |]. intros x Hx. simpl in Hx.
    destruct (decide (this = Channel.value_ptr x)) as [<- | Hne].
    + rewrite lookup_insert_eq. eauto.
    + rewrite lookup_insert_ne by exact Hne. exact Hx.
  - destruct rw as [| waiter rest].
    + destruct (Z.ltb_spec (Z.of_nat (length buf)) k) as [Hlt | Hge].
      * eexists _, _. split; [reflexivity |]. simpl.
        rewrite length_app. simpl.
        repeat split; auto; try lia.
      * eexists _, _. split; [reflexivity |]. simpl.
        repeat split; auto; try lia.
        apply Forall_app. split; [exact Hlive |].
        constructor; [| constructor]. simpl. eauto.
    + eexists _, _. split; [reflexivity |]. simpl.
      assert (Hbuf : buf = []).
      { destruct buf; [reflexivity |].
        assert (Hc : waiter :: rest = []) by (apply Hrecv; discriminate).
        discriminate Hc. }
      subst buf. repeat split; auto. intros Hne. now contradiction Hne.
Qed.

Lemma preserved_recv s this h :
  Channel.chan_inv (Channel.chan s) ->
  Channel.senders_live s ->
  exists r s',
    Channel.recv_await_suspend this h s = Some (r, s') /\ Channel.preserved s s'.
Proof.
  intros (Hlen & Hrecv & Hsend) Hlive.
  unfold Channel.recv_await_suspend.
  unfold Channel.preserved, Channel.chan_inv, Channel.senders_live in *.
  destruct s as [[k cl buf sw rw] sd rc w]. simpl in *.
  destruct buf as [| front rest_buf]; destruct sw as [| sender rest_w].
  - destruct cl; eexists _, _; (split; [reflexivity |]); simpl;
      repeat split; auto; intros Hne; now contradiction Hne.
  - inversion Hlive as [| ? ? [sa Hsa] Hrest]; subst. rewrite Hsa.
    eexists _, _. split; [reflexivity |]. simpl.
    repeat split; auto.
    intros Hk. specialize (Hsend Hk). discriminate Hsend.
  - eexists _, _. split; [reflexivity |]. simpl in *.
    assert (Hrw : rw = []) by (apply Hrecv; discriminate).
    repeat split; auto; lia.
  - inversion Hlive as [| ? ? [sa Hsa] Hrest]; subst. rewrite Hsa.
    eexists _, _. split; [reflexivity |]. simpl in *.
    rewrite length_app. simpl.
    assert (Hrw : rw = []) by (apply Hrecv; discriminate).
    repeat split; auto; try lia.
    intros Hk. assert (Hc : sender :: rest_w = []) by (apply Hsend; lia).
    discriminate Hc.
Qed.

Lemma preserved_close s :
  Channel.chan_inv (Channel.chan s) ->
  Channel.senders_live s ->
  Channel.preserved s (Channel.close s).
Proof.
  intros (Hlen & Hrecv & Hsend) Hlive.
  unfold Channel.preserved.
  destruct (Channel.closed_ (Channel.chan s)) eqn:Hc.
  - rewrite close_when_closed by exact Hc.
    repeat split; auto.
  - destruct (close_empties_waiters s Hc) as (Hsw & Hrw & Hbuf & Hcap & Hsd).
    unfold Channel.chan_inv, Channel.senders_live.
    rewrite Hsw, Hrw, Hbuf, Hcap.
    repeat split; auto. intros _. apply close_closed.
Qed.

(** C6.  In a channel of capacity [capacity_] that satisfies the
    invariant (at most [capacity_] buffered values, no receiver waiting
    while the buffer is non-empty, no sender waiting while the buffer has
    room), [SendAwaiter::await_suspend], [RecvAwaiter::await_suspend] and
    [close] each return a state that satisfies it again, with the same
    capacity, and with [closed_] still true if it was true. *)
Theorem channel_operations_preserve_invariant s (this h : Z) :
  Channel.chan_inv (Channel.chan s) ->
  Channel.senders_live s ->
  (forall aw, Channel.senders s !! this = Some aw ->
     exists r s',
       Channel.send_await_suspend this h s = Some (r, s') /\ Channel.preserved s s')
  /\ (exists r s',
       Channel.recv_await_suspend this h s = Some (r, s') /\ Channel.preserved s s')
  /\ Channel.preserved s (Channel.close s).
Proof.
  intros Hinv Hlive. split; [| split].
  - intros aw Haw. now apply preserved_send with (aw := aw).
  - now apply preserved_recv.
  - now apply preserved_close.
Qed.

End ChannelInvariant.

Lemma channel_operations_preserve_invariant_witness :
  let w := Runtime.mkWorld
             ∅ (Runtime.mkScheduler [] [] false)
             (Runtime.mkReactor (Epoll.Poller_new 3 4) true []) 0 in
  let s : Channel.State Z :=
    Channel.mkState
      (Channel.mkChannel 1 false [5] [Channel.mkSenderWaiter 8192 100] [])
      {[ 100 := Channel.SendAwaiter_new 6 ]} ∅ w in
  Channel.chan_inv (Channel.chan s)
  /\ Channel.senders_live s
  /\ (forall aw, Channel.senders s !! 300 = Some aw ->
        exists r s',
          Channel.send_await_suspend 300 4096 s = Some (r, s')
          /\ Channel.preserved s s')
  /\ (exists r s',
        Channel.recv_await_suspend 300 4096 s = Some (r, s')
        /\ Channel.preserved s s')
  /\ Channel.preserved s (Channel.close s).
Proof.
  intros w s.
  assert (Hinv : Channel.chan_inv (Channel.chan s)).
  { unfold Channel.chan_inv. simpl. split; [lia |]. split; [reflexivity | lia]. }
  assert (Hlive : Channel.senders_live s).
  { unfold Channel.senders_live. simpl.
    constructor; [| constructor]. eexists. reflexivity. }
  split; [exact Hinv |]. split; [exact Hlive |].
  exact (channel_operations_preserve_invariant s 300 4096 Hinv Hlive).
Defined.

Section ChannelSend.

Context {T : Type}.

Implicit Types (s : Channel.State T).

(** A send that finds the channel closed does not suspend and resumes
    with [false]. *)
Lemma send_on_closed_channel_fails s this h aw :
  Channel.senders s !! this = Some aw ->
  Channel.closed_ (Channel.chan s) = true ->
  exists s',
    Channel.send_await_suspend this h s = Some (false, s')
    /\ Channel.send_await_resume this s' = Some false
    /\ Channel.chan s' = Channel.chan s
    /\ Channel.world s' = Channel.world s.
Proof.
  intros Haw Hc. unfold Channel.send_await_suspend. rewrite Haw, Hc.
  eexists. split; [reflexivity |].
  unfold Channel.send_await_resume. simpl.
  rewrite lookup_insert_eq. repeat split; reflexivity.
Qed.

(** [close] does not write to any sender's awaiter. *)
Lemma close_keeps_senders s : Channel.senders (Channel.close s) = Channel.senders s.
Proof.
  unfold Channel.close. destruct (Channel.closed_ (Channel.chan s)); [reflexivity |].
  destruct (Channel.wake_receivers _ _). reflexivity.
Qed.

(** A sender that suspended and is woken by [close] resumes with the
    [result] its awaiter was built with: [true]. *)
Lemma suspended_send_woken_by_close s this h aw s1 :
  Channel.senders s !! this = Some aw ->
  Channel.s_result aw = true ->
  Channel.send_await_suspend this h s = Some (true, s1) ->
  Channel.send_await_resume this (Channel.close s1) = Some true
  /\ Channel.buffer_ (Channel.chan (Channel.close s1)) = Channel.buffer_ (Channel.chan s)
  /\ Channel.receivers s1 = Channel.receivers s.
Proof.
  intros Haw Hres Hop. unfold Channel.send_await_suspend in Hop. rewrite Haw in Hop.
  destruct (Channel.closed_ (Channel.chan s)) eqn:Hc; [discriminate |].
  destruct (Channel.recv_waiters_ (Channel.chan s)); [| discriminate].
  destruct (Z.of_nat (length (Channel.buffer_ (Channel.chan s))) <? Channel.capacity_ (Channel.chan s));
    [discriminate |].
  inversion Hop; subst s1; clear Hop.
  unfold Channel.send_await_resume. rewrite close_keeps_senders. simpl.
  rewrite Haw. simpl. rewrite Hres. split; [reflexivity |].
  split; [| reflexivity].
  unfold Channel.close. simpl. reflexivity.
Qed.

End ChannelSend.

(** C2.  An unbuffered channel with no receiver: the sender at [100]
    (value [7], coroutine [4096]) suspends; [close] then spawns the
    coroutine; its [await_resume] returns [true] although the value is
    neither in the buffer nor in any receiver's slot. *)
Theorem send_woken_by_close_returns_true :
  let w := Runtime.mkWorld
             ∅ (Runtime.mkScheduler [] [] false)
             (Runtime.mkReactor (Epoll.Poller_new 3 4) true []) 0 in
  let s0 : Channel.State Z :=
    Channel.mkState (Channel.Channel_new 0)
                    {[ 100 := Channel.SendAwaiter_new 7 ]} ∅ w in
  exists s1,
    Channel.send_await_suspend 100 4096 s0 = Some (true, s1)
    /\ Channel.send_waiters_ (Channel.chan s1) = [Channel.mkSenderWaiter 4096 100]
    /\ Channel.is_closed (Channel.close s1) = true
    /\ Runtime.global_queue_ (Runtime.sched (Channel.world (Channel.close s1)))
       = [Task.mkTask 4096]
    /\ Channel.send_await_resume 100 (Channel.close s1) = Some true
    /\ Channel.buffer_ (Channel.chan (Channel.close s1)) = []
    /\ Channel.receivers (Channel.close s1) = ∅.
Proof.
  intros w s0. eexists. split; [reflexivity |].
  repeat split; reflexivity.
Qed.

(** ** The steal deque *)

Lemma cas_top_won t q :
  StealQueue.top q = t -> StealQueue.cas_top t q = (true, StealQueue.set_top (t + 1) q).
Proof. intros Ht. unfold StealQueue.cas_top. now rewrite Ht, Z.eqb_refl. Qed.

Lemma cas_top_lost t q :
  StealQueue.top q <> t -> StealQueue.cas_top t q = (false, q).
Proof.
  intros Ht. unfold StealQueue.cas_top.
  now destruct (Z.eqb_spec (StealQueue.top q) t).
Qed.

(** Run alone, [pop] never loses the race for the last element. *)
Lemma pop_alone hp q :
  StealQueue.pop hp q
  = if StealQueue.top q <? StealQueue.bottom q - 1 then
      (Some (Task.mkTask (StealQueue.get (StealQueue.bottom q - 1) (StealQueue.array q))),
       hp, StealQueue.set_bottom (StealQueue.bottom q - 1) q)
    else if StealQueue.top q =? StealQueue.bottom q - 1 then
      (Some (Task.mkTask (StealQueue.get (StealQueue.bottom q - 1) (StealQueue.array q))),
       hp, StealQueue.set_bottom (StealQueue.bottom q) (StealQueue.set_top (StealQueue.top q + 1) q))
    else (None, hp, q).
Proof.
  destruct q as [t b a ls].
  unfold StealQueue.pop, StealQueue.pop_with, StealQueue.pop_reserve,
    StealQueue.pop_load_top, StealQueue.pop_take, StealQueue.cas_top. simpl.
  destruct (Z.ltb_spec t (b - 1)); destruct (Z.leb_spec t (b - 1)); try lia;
    destruct (Z.eqb_spec t (b - 1)); try lia;
    rewrite ?Z.eqb_refl; simpl; rewrite ?from_address_task;
    unfold StealQueue.set_bottom, StealQueue.set_top; simpl;
    repeat f_equal; lia.
Qed.

(** A thief's [steal] leaves [bottom] to the owner. *)
Lemma steal_take_keeps_bottom t b hp q :
  StealQueue.bottom (snd (StealQueue.steal_take t b hp q)) = StealQueue.bottom q.
Proof.
  unfold StealQueue.steal_take, StealQueue.cas_top.
  destruct (t <? b); [| reflexivity].
  destruct (StealQueue.top q =? t); simpl; [| reflexivity].
  destruct (Task.from_address _ hp). reflexivity.
Qed.

(** C4.  The owner's [pop] on a deque [q], with thieves running
    [before] between its store to [bottom] and its load of [top], and
    [after] between that load and the rest (thieves never write
    [bottom]).  It first stores [bottom - 1] to [bottom], so the thieves
    of [before] see the decremented value, and then loads [top], seeing
    what they did.  With [b] the decremented [bottom], [t] the loaded
    [top] and [qb] the deque that it meets afterwards:
    - [t < b]: it returns the slot at [b] and writes nothing more;
    - [t = b]: one compare-and-swap on [top]; if [top] still has the
      loaded value it becomes [t + 1], [bottom] is set back to its value
      at the call and the slot is returned; otherwise [top] is left
      alone, [bottom] is set back and the result is empty;
    - [t > b]: [bottom] is set back and the result is empty.
    Run alone, [pop] is the same steps with no thief, and then never
    loses the compare-and-swap. *)
Theorem pop_follows_chase_lev_steps
    (before after : StealQueue.StealQueue -> StealQueue.StealQueue)
    (q : StealQueue.StealQueue) (hp : Task.Heap) :
  (forall x, StealQueue.bottom (before x) = StealQueue.bottom x) ->
  (forall x, StealQueue.bottom (after x) = StealQueue.bottom x) ->
  let b := StealQueue.bottom q - 1 in
  let qa := before (StealQueue.set_bottom b q) in
  let t := StealQueue.top qa in
  let qb := after qa in
  let slot_task := Task.mkTask (StealQueue.get b (StealQueue.array qb)) in
  StealQueue.bottom qb = b
  /\ (t < b ->
      StealQueue.pop_with before after hp q = (Some slot_task, hp, qb))
  /\ (t = b -> StealQueue.top qb = t ->
      StealQueue.pop_with before after hp q
      = (Some slot_task, hp,
         StealQueue.set_bottom (StealQueue.bottom q) (StealQueue.set_top (t + 1) qb)))
  /\ (t = b -> StealQueue.top qb <> t ->
      StealQueue.pop_with before after hp q
      = (None, hp, StealQueue.set_bottom (StealQueue.bottom q) qb))
  /\ (b < t ->
      StealQueue.pop_with before after hp q
      = (None, hp, StealQueue.set_bottom (StealQueue.bottom q) qb))
  /\ StealQueue.pop hp q
     = (if StealQueue.top q <? b then
          (Some (Task.mkTask (StealQueue.get b (StealQueue.array q))), hp,
           StealQueue.set_bottom b q)
        else if StealQueue.top q =? b then
          (Some (Task.mkTask (StealQueue.get b (StealQueue.array q))), hp,
           StealQueue.set_bottom (StealQueue.bottom q)
             (StealQueue.set_top (StealQueue.top q + 1) q))
        else (None, hp, q)).
Proof.
  intros Hbefore Hafter b qa t qb slot_task.
  assert (Hrestore : b + 1 = StealQueue.bottom q) by (unfold b; lia).
  assert (Hqb : StealQueue.bottom qb = b).
  { unfold qb, qa. now rewrite Hafter, Hbefore. }
  assert (Hpop : StealQueue.pop_with before after hp q = StealQueue.pop_take b t hp qb)
    by reflexivity.
  split; [exact Hqb |].
  rewrite Hpop. unfold StealQueue.pop_take. repeat split.
  - intros Hlt.
    destruct (Z.leb_spec t b); [| lia].
    destruct (Z.eqb_spec t b); [lia |].
    now rewrite from_address_task.
  - intros Heq Htop.
    destruct (Z.leb_spec t b); [| lia].
    destruct (Z.eqb_spec t b); [| lia].
    rewrite cas_top_won by exact Htop. simpl.
    now rewrite from_address_task, Hrestore.
  - intros Heq Htop.
    destruct (Z.leb_spec t b); [| lia].
    destruct (Z.eqb_spec t b); [| lia].
    rewrite cas_top_lost by exact Htop. simpl.
    now rewrite Hrestore.
  - intros Hgt.
    destruct (Z.leb_spec t b); [lia |].
    now rewrite Hrestore.
  - apply pop_alone.
Qed.

(** A thief that loaded [top] and [bottom] before the owner's [pop]
    and wins the compare-and-swap makes the owner's [pop] come back
    empty, with [bottom] restored. *)
Example pop_loses_last_element_to_thief :
  let q := StealQueue.mkQueue 5 6 (StealQueue.mkArray 8192 [10; 11; 12; 13] 4 3) 0 in
  let '(t0, b0) := StealQueue.steal_load q in
  let thief q1 := snd (StealQueue.steal_take t0 b0 ∅ q1) in
  StealQueue.pop_with (fun q1 => q1) thief ∅ q
  = (None, ∅, StealQueue.mkQueue 6 6 (StealQueue.mkArray 8192 [10; 11; 12; 13] 4 3) 0).
Proof. reflexivity. Qed.

Lemma pop_follows_chase_lev_steps_witness :
  let q := StealQueue.mkQueue 5 6 (StealQueue.mkArray 8192 [10; 11; 12; 13] 4 3) 0 in
  let thief x := snd (StealQueue.steal_take 5 6 ∅ x) in
  StealQueue.top (thief (StealQueue.set_bottom 5 q)) <> 5
  /\ StealQueue.pop_with (fun x => x) thief ∅ q
     = (None, ∅, StealQueue.mkQueue 6 6 (StealQueue.mkArray 8192 [10; 11; 12; 13] 4 3) 0).
Proof.
  intros q thief.
  assert (Hbefore : forall x : StealQueue.StealQueue,
             StealQueue.bottom ((fun y => y) x) = StealQueue.bottom x) by reflexivity.
  assert (Hafter : forall x, StealQueue.bottom (thief x) = StealQueue.bottom x)
    by (intros x; apply steal_take_keeps_bottom).
  assert (Heq : StealQueue.top (StealQueue.set_bottom 5 q) = StealQueue.bottom q - 1)
    by reflexivity.
  assert (Hne : StealQueue.top (thief (StealQueue.set_bottom 5 q)) <> 5)
    by (vm_compute; lia).
  split; [exact Hne |].
  exact (proj1 (proj2 (proj2 (proj2
           (pop_follows_chase_lev_steps (fun x => x) thief q ∅ Hbefore Hafter))))
           Heq Hne).
Defined.

(** A task pushed on a fresh deque comes back from [pop]; the slot's
    reference (taken by [to_address]) is the one the returned handle owns. *)
Example push_then_pop :
  let m := snd (Ebr.register_thread Ebr.EbrManager_init) in
  let hp : Task.Heap := {[ 4096 := Task.Promise_init ]} in
  let '(q1, hp1, m1) := StealQueue.push 12288 (Task.mkTask 4096)
                                        (StealQueue.StealQueue_new 8192 0, hp, m) in
  let '(r, hp2, q2) := StealQueue.pop hp1 q1 in
  r = Some (Task.mkTask 4096)
  /\ Task.count_of 4096 hp2 = Some 1
  /\ (StealQueue.top q2, StealQueue.bottom q2) = (1, 1)
  /\ m1 = m.
Proof. vm_compute. repeat split; reflexivity. Qed.

(** A thief alone takes from the other end. *)
Example steal_takes_oldest :
  let q := StealQueue.mkQueue 5 7 (StealQueue.mkArray 8192 [10; 11; 12; 13] 4 3) 0 in
  StealQueue.steal ∅ q
  = (Some (Task.mkTask 11), ∅, StealQueue.set_top 6 q).
Proof. reflexivity. Qed.

(** ** The epoch-based reclaimer *)

Lemma existsb_lagging_false g ts :
  (forall t, In t ts -> Ebr.active t = true -> Ebr.epoch t = g) ->
  existsb (Ebr.lagging g) ts = false.
Proof.
  intros Hall. apply not_true_is_false. intros Hex.
  apply existsb_exists in Hex. destruct Hex as (t & Hin & Hlag).
  unfold Ebr.lagging in Hlag. apply andb_prop in Hlag. destruct Hlag as [Ha Hne].
  specialize (Hall t Hin Ha). rewrite Hall, Z.eqb_refl in Hne. discriminate.
Qed.

(** An active thread that has not observed the global epoch blocks the
    advance: nothing changes. *)
Lemma try_advance_blocked m t :
  In t (Ebr.threads_ m) -> Ebr.active t = true -> Ebr.epoch t <> Ebr.global_epoch_ m ->
  Ebr.try_advance m = m.
Proof.
  intros Hin Ha Hne. unfold Ebr.try_advance, Ebr.try_advance_locked.
  replace (existsb _ _) with true; [reflexivity |].
  symmetry. apply existsb_exists. exists t. split; [exact Hin |].
  unfold Ebr.lagging. rewrite Ha. simpl.
  now destruct (Z.eqb_spec (Ebr.epoch t) (Ebr.global_epoch_ m)).
Qed.

(** When every active thread has observed the global epoch, the epoch
    grows by one and every thread's bin [(new_epoch + 1) mod 3] is
    emptied, its pointers going to their deleters. *)
Lemma try_advance_advances m :
  0 <= Ebr.global_epoch_ m < 2 ^ 64 - 2 ->
  (forall t, In t (Ebr.threads_ m) -> Ebr.active t = true ->
             Ebr.epoch t = Ebr.global_epoch_ m) ->
  let new_epoch := Ebr.global_epoch_ m + 1 in
  let i := Z.to_nat ((new_epoch + 1) mod 3) in
  Ebr.try_advance m
  = Ebr.mkEbr new_epoch
              (map (Ebr.clear_bin i) (Ebr.threads_ m))
              (Ebr.deleted m
               ++ concat (map (fun t => map Ebr.ptr (Ebr.bin i t)) (Ebr.threads_ m))).
Proof.
  intros Hg Hall new_epoch i. subst new_epoch i.
  unfold Ebr.try_advance, Ebr.try_advance_locked.
  rewrite existsb_lagging_false by exact Hall.
  rewrite !wrap_size_t_id by lia. reflexivity.
Qed.


(** Below the threshold [retire] only appends to the bin of the current
    epoch and counts the operation. *)
Lemma retire_below_threshold local p m t :
  Ebr.threads_ m !! local = Some t ->
  0 <= Ebr.op_count t < 64 ->
  let i := Z.to_nat (Ebr.global_epoch_ m mod 3) in
  let m' := Ebr.retire local p m in
  Ebr.global_epoch_ m' = Ebr.global_epoch_ m
  /\ Ebr.deleted m' = Ebr.deleted m
  /\ Ebr.threads_ m' !! local
     = Some (Ebr.mkLocal (Ebr.active t) (Ebr.epoch t)
                         (alter (fun b => b ++ [Ebr.mkNode p]) i (Ebr.retire_bins t))
                         (Ebr.op_count t + 1)).
Proof.
  intros Ht Hc i m'. subst i m'. unfold Ebr.retire. simpl.
  rewrite list_lookup_alter_eq, Ht. simpl.
  rewrite wrap_size_t_id by lia.
  destruct (Z.ltb_spec 64 (Ebr.op_count t + 1)); [lia |]. simpl.
  rewrite list_lookup_alter_eq, Ht. simpl.
  unfold Ebr.set_op_count, Ebr.set_retire_bins. simpl.
  rewrite wrap_size_t_id by lia. repeat split; reflexivity.
Qed.

(** With [op_count] at 64 the count passes the threshold: it is reset
    and [try_advance] runs. *)
Lemma retire_at_threshold local p m t :
  Ebr.threads_ m !! local = Some t ->
  Ebr.op_count t = 64 ->
  let i := Z.to_nat (Ebr.global_epoch_ m mod 3) in
  Ebr.retire local p m
  = Ebr.try_advance
      (Ebr.set_threads
         (alter (Ebr.set_op_count 0) local
            (alter (fun t =>
                      Ebr.set_op_count (wrap_size_t (Ebr.op_count t + 1))
                        (Ebr.set_retire_bins
                           (alter (fun b => b ++ [Ebr.mkNode p]) i (Ebr.retire_bins t)) t))
                   local (Ebr.threads_ m)))
         m).
Proof.
  intros Ht Hc i. subst i. unfold Ebr.retire. simpl.
  rewrite list_lookup_alter_eq, Ht. simpl. rewrite Hc. reflexivity.
Qed.

(** The epoch is loaded before [mtx_] is taken.  A trigger that loaded
    epoch 0 and gets the lock after two other advances stores epoch 1
    over epoch 2 and empties bin 2, the bin of the running epoch. *)
Example try_advance_with_stale_epoch :
  let t := Ebr.mkLocal false 2 [[]; []; [Ebr.mkNode 77]] 1 in
  Ebr.try_advance_locked 0 (Ebr.mkEbr 2 [t] [])
  = Ebr.mkEbr 1 [Ebr.mkLocal false 2 [[]; []; []] 1] [77].
Proof. reflexivity. Qed.

(** C5.  One registered thread, never inside a critical section (so an
    attempt to advance would succeed): after 64 retirements the epoch is
    still 0, nothing was freed and [op_count] is 64; the 65th retirement
    is the first that runs [try_advance]. *)
Theorem retire_first_advance_is_at_65th_retirement :
  let m0 := snd (Ebr.register_thread Ebr.EbrManager_init) in
  let m64 := Ebr.retire_many 64 0 1000 m0 in
  let m65 := Ebr.retire 0 1064 m64 in
  Ebr.global_epoch_ m64 = 0
  /\ map Ebr.op_count (Ebr.threads_ m64) = [64]
  /\ map Ebr.active (Ebr.threads_ m64) = [false]
  /\ map (fun t => length (Ebr.bin 0 t)) (Ebr.threads_ m64) = [64%nat]
  /\ Ebr.global_epoch_ (Ebr.try_advance m64) = 1
  /\ m65 = Ebr.retire_many 65 0 1000 m0
  /\ Ebr.global_epoch_ m65 = 1
  /\ map Ebr.op_count (Ebr.threads_ m65) = [0].
Proof. vm_compute. repeat split; reflexivity. Qed.

(** ** The poller *)

(** The eventfd is registered through [data.fd]; read back through
    [data.ptr] the word is the descriptor number, not [nullptr]. *)
Lemma wake_registration_data wfd :
  0 < wfd < 2 ^ 31 ->
  Epoll.data_ptr (Epoll.set_data_fd wfd (Epoll.set_events (Z.lor Epoll.EPOLLIN Epoll.EPOLLET)
                                                       Epoll.event_zero)) = wfd.
Proof.
  intros Hw. unfold Epoll.data_ptr, Epoll.set_data_fd, Epoll.set_events, Epoll.event_zero.
  simpl. rewrite Z.mod_small by lia. reflexivity.
Qed.

Lemma poller_new_interest efd wfd :
  Epoll.interest (Epoll.Poller_new efd wfd)
  = {[ wfd := Epoll.mkInterest
               (Epoll.set_data_fd wfd (Epoll.set_events (Z.lor Epoll.EPOLLIN Epoll.EPOLLET)
                                                        Epoll.event_zero))
               true ]}.
Proof.
  unfold Epoll.Poller_new, Epoll.epoll_ctl_add. simpl.
  rewrite lookup_empty. reflexivity.
Qed.

(** On Linux the self-wake event reaches the callback: for every eventfd
    descriptor other than 0, [wait] after a [wake] calls the callback
    with the descriptor number and does not read the eventfd. *)
Lemma linux_wait_calls_back_on_wake {St : Type} (cb : Z -> St -> St) efd wfd (s : St) :
  0 < wfd < 2 ^ 31 ->
  exists p',
    Epoll.wait [wfd] cb (Epoll.wake (Epoll.Poller_new efd wfd), s) = (1, (p', cb wfd s))
    /\ Epoll.wake_counter p' = 1.
Proof.
  intros Hw. unfold Epoll.wait, Epoll.epoll_wait. simpl.
  unfold Epoll.report. simpl. rewrite poller_new_interest.
  rewrite lookup_singleton_eq. simpl. rewrite Z.eqb_refl. simpl.
  rewrite Z.mod_small by lia. unfold Epoll.data_ptr. simpl.
  rewrite Z.shiftr_0_l, Z.shiftl_0_l, Z.lor_0_l.
  destruct (Z.eqb_spec wfd nullptr) as [He | _]; [unfold nullptr in He; lia |].
  eexists. split; reflexivity.
Qed.

(** What the loop of the Linux [wait] does with the events it is given:
    an event whose [data.ptr] is null makes it read the eventfd, every
    other event goes to the callback. *)
Lemma linux_wait_loop_calls {St : Type} (cb : Z -> St -> St) evs : forall p (s : St),
  snd (Epoll.wait_loop cb evs (p, s))
  = fold_left (fun s u => cb u s)
              (List.filter (fun u => negb (u =? nullptr)) (map Epoll.data_ptr evs)) s.
Proof.
  induction evs as [| ev evs IH]; intros p s; simpl; [reflexivity |].
  destruct (Epoll.data_ptr ev =? nullptr); simpl; apply IH.
Qed.

(** A one-shot registration with a non-null pointer is reported once
    and its pointer goes to the callback. *)
Lemma linux_wait_calls_back_registration {St : Type} (cb : Z -> St -> St)
    fd h p (s : St) :
  fd <> Epoll.wake_fd_ p ->
  0 < h < 2 ^ 64 ->
  exists p',
    Epoll.wait [fd; fd] cb (Epoll.add_read fd h p, s) = (1, (p', cb h s)).
Proof.
  intros Hfd Hh.
  assert (Hreg : exists p1,
             Epoll.add_read fd h p = p1
             /\ Epoll.wake_fd_ p1 = Epoll.wake_fd_ p
             /\ Epoll.interest p1 !! fd
                = Some (Epoll.mkInterest
                          (Epoll.mkEvent (Z.lor (Z.lor Epoll.EPOLLIN Epoll.EPOLLONESHOT)
                                                Epoll.EPOLLRDHUP) h) true)).
  { eexists. split; [reflexivity |].
    unfold Epoll.add_read, Epoll.add_interest, Epoll.epoll_ctl_add, Epoll.epoll_ctl_mod.
    unfold Epoll.set_data_ptr. simpl. rewrite Z.mod_small by lia.
    destruct (Epoll.interest p !! fd); simpl; rewrite lookup_insert_eq; auto. }
  destruct Hreg as (p1 & -> & Hwfd & Hint).
  unfold Epoll.wait, Epoll.epoll_wait. simpl.
  unfold Epoll.report at 1. rewrite Hint, Hwfd. simpl.
  destruct (Z.eqb_spec fd (Epoll.wake_fd_ p)) as [He | _]; [contradiction |]. simpl.
  unfold Epoll.report. simpl. rewrite lookup_insert_eq. simpl.
  unfold Epoll.data_ptr. simpl.
  destruct (Z.eqb_spec h nullptr) as [He | _]; [unfold nullptr in He; lia |].
  eexists. reflexivity.
Qed.

(** The kqueue [wait] skips every [EVFILT_USER] event and calls the
    callback once for every other event with a non-null pointer. *)
Lemma kqueue_wait_loop_calls {St : Type} (cb : Z -> St -> St) evs : forall (s : St),
  Kqueue.wait_loop cb evs s
  = fold_left (fun s u => cb u s)
      (map Kqueue.udata
         (List.filter (fun ev => negb (Kqueue.filter ev =? Kqueue.EVFILT_USER)
                                 && negb (Kqueue.udata ev =? nullptr)) evs)) s.
Proof.
  induction evs as [| ev evs IH]; intros s; simpl; [reflexivity |].
  destruct (Kqueue.filter ev =? Kqueue.EVFILT_USER); simpl; [apply IH |].
  destruct (Kqueue.udata ev =? nullptr); simpl; apply IH.
Qed.

Example kqueue_wait_skips_wake_event :
  Kqueue.wait [Kqueue.read_event 7 4096; Kqueue.wake_event; Kqueue.write_event 9 8192]
              Epoll.record_call []
  = (3, [4096; 8192]).
Proof. reflexivity. Qed.

(** A registration made with a null pointer is taken for the self-wake
    event by the Linux [wait] and is skipped by the kqueue one. *)
Example wait_skips_null_registration :
  snd (snd (Epoll.wait [7] Epoll.record_call
                       (Epoll.add_read 7 nullptr (Epoll.Poller_new 3 4), []))) = []
  /\ snd (Kqueue.wait [Kqueue.read_event 7 nullptr] Epoll.record_call []) = [].
Proof. split; reflexivity. Qed.

(** C3.  The Linux poller built on descriptors 3 (epoll) and 4 (eventfd):
    after one [wake()], [wait] gets one event, the self-wake event, and
    calls the callback for it, with the descriptor number 4 as the
    pointer; the eventfd is not read, its counter stays at 1. *)
Theorem linux_wait_invokes_callback_for_wake_event :
  let p := Epoll.wake (Epoll.Poller_new 3 4) in
  let r := Epoll.wait [4] Epoll.record_call (p, []) in
  fst r = 1
  /\ snd (snd r) = [4]
  /\ Epoll.wake_counter (fst (snd r)) = 1
  /\ Epoll.wake_pending (fst (snd r)) = false.
Proof. vm_compute. repeat split; reflexivity. Qed.

(** ** The reactor and the reference it holds *)

Lemma io_handler_heap udata w :
  Runtime.heap (Runtime.io_handler udata w) = Runtime.heap w.
Proof.
  unfold Runtime.io_handler. destruct (udata =? nullptr); [reflexivity |].
  apply spawn_from_address_heap.
Qed.

Lemma fire_expired_heap now ts : forall w,
  Runtime.heap (snd (Runtime.fire_expired now ts w)) = Runtime.heap w.
Proof.
  induction ts as [| t ts IH]; intros w; simpl; [reflexivity |].
  destruct (Runtime.expiry t <=? now); [| reflexivity].
  rewrite IH. apply spawn_from_address_heap.
Qed.

(** Firing timers adopts their handles: no count is read or written. *)
Lemma handle_timers_heap now w :
  Runtime.heap (Runtime.handle_timers now w) = Runtime.heap w.
Proof.
  unfold Runtime.handle_timers.
  pose proof (fire_expired_heap now (Runtime.timers_ (Runtime.reactor w)) w) as H.
  destruct (Runtime.fire_expired now _ w) as [ts w1]. simpl in *. exact H.
Qed.

(** A timer registration takes no reference. *)
Lemma sleep_registration_keeps_heap d now h w :
  Runtime.heap (Runtime.AsyncSleep_await_suspend d now h w) = Runtime.heap w.
Proof. reflexivity. Qed.

(** The I/O awaiters do take one, and the cycle is balanced: the count
    goes up by one at registration, firing moves that reference into the
    global queue, and the worker that ran the task gives it back. *)
Lemma io_registration_cycle_is_balanced fd h w n :
  h <> nullptr ->
  Task.count_of h (Runtime.heap w) = Some n ->
  - 2 ^ 31 <= n < 2 ^ 31 - 1 ->
  let w1 := Runtime.AsyncRead_await_suspend fd h w in
  let w2 := Runtime.io_handler h w1 in
  Task.count_of h (Runtime.heap w1) = Some (n + 1)
  /\ Runtime.heap w2 = Runtime.heap w1
  /\ Runtime.global_queue_ (Runtime.sched w2)
     = Runtime.global_queue_ (Runtime.sched w) ++ [Task.mkTask h]
  /\ Task.count_of h (Runtime.heap (Runtime.release (Task.mkTask h) w2)) = Some n.
Proof.
  intros Hh Hn Hrange w1 w2.
  assert (H1 : Task.count_of h (Runtime.heap w1) = Some (n + 1)).
  { subst w1. unfold Runtime.AsyncRead_await_suspend, Runtime.register_read. simpl.
    rewrite (count_of_fetch_add h _ n Hn). now rewrite wrap_int_id by lia. }
  assert (H2 : Runtime.heap w2 = Runtime.heap w1) by apply io_handler_heap.
  split; [exact H1 |]. split; [exact H2 |]. split.
  - subst w2. unfold Runtime.io_handler. rewrite (eqb_nullptr_false h Hh).
    rewrite spawn_from_address_global_queue by exact Hh. reflexivity.
  - unfold Runtime.release. simpl. rewrite H2.
    change h with (Task.handle (Task.mkTask h)) at 1.
    rewrite (count_of_drop (Task.mkTask h) _ (n + 1)); [| exact Hh | exact H1].
    rewrite wrap_int_id by lia. f_equal. lia.
Qed.

(** C1.  A task at [4096] whose only reference is the handle of the
    worker that resumes it awaits [sleep_for(50)] at clock 1000.
    - Registering the timer leaves the count at 1: no reference is taken.
    - When [resume] returns, the worker's handle is destroyed: the count
      is 0 and the frame is destroyed while the timer still holds it.
    - At clock 1050 the reactor adopts the timer's handle and spawns it;
      the global queue now holds a handle to the destroyed frame.
    - The worker that takes it from the queue and lets go of it brings
      the count to -1. *)
Theorem sleep_registration_takes_no_reference :
  let w0 := Runtime.mkWorld
              {[ 4096 := Task.Promise_init ]}
              (Runtime.mkScheduler
                 [] [Runtime.mkWorker 0 0 (StealQueue.StealQueue_new 8192 0)
                                      Parker.Parker_init] false)
              (Runtime.mkReactor (Epoll.Poller_new 3 4) true []) 0 in
  let running := Task.mkTask 4096 in
  let w1 := Runtime.AsyncSleep_await_suspend 50 1000 4096 w0 in
  let w2 := Runtime.release running w1 in
  let w3 := Runtime.handle_timers 1050 w2 in
  let '(popped, w4) := Runtime.pop_global w3 in
  let w5 := Runtime.release (default Task.Task_default popped) w4 in
  Task.count_of 4096 (Runtime.heap w0) = Some 1
  /\ Task.count_of 4096 (Runtime.heap w1) = Some 1
  /\ Runtime.timers_ (Runtime.reactor w1) = [Runtime.mkTimer 1050 4096]
  /\ Task.count_of 4096 (Runtime.heap w2) = Some 0
  /\ Task.destroyed_of 4096 (Runtime.heap w2) = Some 1%nat
  /\ Runtime.timers_ (Runtime.reactor w2) = [Runtime.mkTimer 1050 4096]
  /\ Runtime.global_queue_ (Runtime.sched w3) = [Task.mkTask 4096]
  /\ popped = Some (Task.mkTask 4096)
  /\ Task.count_of 4096 (Runtime.heap w5) = Some (-1).
Proof. vm_compute. repeat split; reflexivity. Qed.

(** * Further properties of the runtime *)

(** ** Task handles: the count and the destruction of the frame *)

Lemma drop_n_before_last h p hp (k : nat) : forall j : nat,
  h <> nullptr ->
  hp !! h = Some p ->
  Task.ref_count p = Z.of_nat k ->
  Z.of_nat k < 2 ^ 31 ->
  (j < k)%nat ->
  Task.drop_n j (Task.mkTask h) hp
  = <[h := Task.set_ref_count (Z.of_nat k - Z.of_nat j) p]> hp.
Proof.
  intros j Hh Hp Hk Hr. induction j as [| j IH]; intros Hj.
  - simpl. rewrite Z.sub_0_r, <- Hk. destruct p; simpl.
    symmetry. now apply insert_id.
  - simpl. rewrite IH by lia.
    unfold Task.Task_drop, Task.dec_ref. simpl.
    rewrite (eqb_nullptr_false h Hh), lookup_insert_eq. simpl.
    destruct (Z.eqb_spec (Z.of_nat k - Z.of_nat j) 1) as [He | _]; [lia |].
    rewrite insert_insert_eq, wrap_int_id by lia.
    unfold Task.set_ref_count. simpl.
    replace (Z.of_nat k - Z.of_nat j - 1) with (Z.of_nat k - Z.of_nat (S j)) by lia.
    reflexivity.
Qed.

(** X1.  A promise whose count is [k] (the number of handles to it):
    destroying the handles one after another leaves the frame alone for
    the first [k - 1] of them, and the last one takes the count to 0 and
    destroys the frame, once. *)
Theorem last_of_k_handles_destroys_the_frame (h : Z) (p : Task.Promise)
    (hp : Task.Heap) (k : nat) :
  h <> nullptr ->
  hp !! h = Some p ->
  Task.ref_count p = Z.of_nat k ->
  (1 <= k)%nat ->
  Z.of_nat k < 2 ^ 31 ->
  (forall j, (j < k)%nat ->
     Task.destroyed_of h (Task.drop_n j (Task.mkTask h) hp) = Some (Task.destroyed p)
     /\ Task.count_of h (Task.drop_n j (Task.mkTask h) hp) = Some (Z.of_nat (k - j)))
  /\ Task.destroyed_of h (Task.drop_n k (Task.mkTask h) hp) = Some (S (Task.destroyed p))
  /\ Task.count_of h (Task.drop_n k (Task.mkTask h) hp) = Some 0.
Proof.
  intros Hh Hp Hk H1 Hr. split.
  - intros j Hj. rewrite (drop_n_before_last h p hp k j Hh Hp Hk Hr Hj).
    unfold Task.destroyed_of, Task.count_of. rewrite lookup_insert_eq. simpl.
    split; [reflexivity |]. f_equal. lia.
  - destruct k as [| k']; [lia |]. simpl.
    rewrite (drop_n_before_last h p hp (S k') k' Hh Hp Hk Hr) by lia.
    unfold Task.Task_drop, Task.dec_ref, Task.destroyed_of, Task.count_of. simpl.
    rewrite (eqb_nullptr_false h Hh), lookup_insert_eq. simpl.
    destruct (Z.eqb_spec (Z.of_nat (S k') - Z.of_nat k') 1) as [_ | Hne]; [| lia].
    unfold Task.destroy. rewrite !lookup_alter_eq, !lookup_insert_eq. simpl.
    split; [reflexivity |]. f_equal. rewrite wrap_int_id by lia. lia.
Qed.

Lemma last_of_k_handles_destroys_the_frame_witness :
  let p := Task.mkPromise 3 false nullptr 0 in
  let hp : Task.Heap := {[ 4096 := p ]} in
  Task.destroyed_of 4096 (Task.drop_n 2 (Task.mkTask 4096) hp) = Some 0%nat
  /\ Task.destroyed_of 4096 (Task.drop_n 3 (Task.mkTask 4096) hp) = Some 1%nat
  /\ Task.count_of 4096 (Task.drop_n 3 (Task.mkTask 4096) hp) = Some 0.
Proof.
  intros p hp.
  assert (Hh : 4096 <> nullptr) by (unfold nullptr; lia).
  assert (Hp : hp !! 4096 = Some p) by reflexivity.
  assert (Hk : Task.ref_count p = Z.of_nat 3) by reflexivity.
  assert (H1 : (1 <= 3)%nat) by lia.
  assert (Hr : Z.of_nat 3 < 2 ^ 31) by lia.
  destruct (last_of_k_handles_destroys_the_frame 4096 p hp 3 Hh Hp Hk H1 Hr)
    as (Hbefore & Hd & Hc).
  split; [exact (proj1 (Hbefore 2%nat ltac:(lia))) |].
  split; [exact Hd | exact Hc].
Defined.

(** X2.  Copying a handle and destroying the copy leaves the count as
    it was. *)
Theorem copy_then_drop_keeps_count (t : Task.Task) (hp : Task.Heap) (n : Z) :
  Task.handle t <> nullptr ->
  Task.count_of (Task.handle t) hp = Some n ->
  - 2 ^ 31 <= n < 2 ^ 31 - 1 ->
  Task.count_of (Task.handle t) (snd (Task.Task_copy t hp)) = Some (n + 1)
  /\ Task.handle (fst (Task.Task_copy t hp)) = Task.handle t
  /\ Task.count_of (Task.handle t)
       (Task.Task_drop (fst (Task.Task_copy t hp)) (snd (Task.Task_copy t hp)))
     = Some n.
Proof.
  intros Hh Hn Hr.
  pose proof (copy_then_drop_is_neutral t hp n Hh Hn Hr) as Hcd.
  unfold Task.Task_copy in *. rewrite (eqb_nullptr_false _ Hh) in *. simpl.
  split; [| split; [reflexivity | exact Hcd]].
  rewrite (count_of_fetch_add _ _ n Hn). now rewrite wrap_int_id by lia.
Qed.

Lemma copy_then_drop_keeps_count_witness :
  let t := Task.mkTask 4096 in
  let hp : Task.Heap := {[ 4096 := Task.Promise_init ]} in
  Task.count_of 4096 (snd (Task.Task_copy t hp)) = Some 2
  /\ Task.count_of 4096
       (Task.Task_drop (fst (Task.Task_copy t hp)) (snd (Task.Task_copy t hp)))
     = Some 1.
Proof.
  intros t hp.
  assert (Hh : Task.handle t <> nullptr) by (unfold nullptr; simpl; lia).
  assert (Hn : Task.count_of (Task.handle t) hp = Some 1) by reflexivity.
  assert (Hr : - 2 ^ 31 <= 1 < 2 ^ 31 - 1) by lia.
  destruct (copy_then_drop_keeps_count t hp 1 Hh Hn Hr) as (H1 & _ & H2).
  split; [exact H1 | exact H2].
Defined.

(** ** Parker *)

Lemma unpark_state p : Parker.state (Parker.unpark p) = Parker.NOTIFIED.
Proof. unfold Parker.unpark. now destruct (Parker.state p). Qed.

Lemma unpark_iter_state n p :
  Parker.state (Nat.iter (S n) Parker.unpark p) = Parker.NOTIFIED.
Proof. simpl. apply unpark_state. Qed.

Lemma unpark_iter_notified n p :
  Parker.notified (Nat.iter (S n) Parker.unpark p)
  = match Parker.state p with
    | Parker.PARKED => S (Parker.notified p)
    | _ => Parker.notified p
    end.
Proof.
  induction n as [| n IH].
  - simpl. unfold Parker.unpark. now destruct (Parker.state p).
  - change (Nat.iter (S (S n)) Parker.unpark p)
      with (Parker.unpark (Nat.iter (S n) Parker.unpark p)).
    unfold Parker.unpark at 1. rewrite unpark_iter_state. simpl. exact IH.
Qed.

(** X3.  Any number of [unpark] calls before a [park] are consumed as
    one: the [park] returns without blocking and leaves the state
    [EMPTY], so the [park] after it blocks; [notify_one] was called only
    if a thread was parked at the first [unpark]. *)
Theorem unparks_coalesce_into_one_wakeup (p : Parker.Parker) (n : nat) :
  let p' := Nat.iter (S n) Parker.unpark p in
  Parker.park p' = Some (Parker.mkParker Parker.EMPTY (Parker.notified p'))
  /\ Parker.park (Parker.mkParker Parker.EMPTY (Parker.notified p')) = None
  /\ Parker.notified p'
     = match Parker.state p with
       | Parker.PARKED => S (Parker.notified p)
       | _ => Parker.notified p
       end.
Proof.
  intros p'. split; [| split].
  - unfold Parker.park, Parker.park_enter. subst p'.
    rewrite unpark_iter_state. reflexivity.
  - reflexivity.
  - apply unpark_iter_notified.
Qed.

(** X4.  A thread that parked on an [EMPTY] parker blocks; one [unpark]
    notifies it, the wait loop ends and [park] leaves the state [EMPTY]
    again. *)
Theorem unpark_releases_parked_thread (p : Parker.Parker) :
  Parker.state p = Parker.EMPTY ->
  let '(entered, p1) := Parker.park_enter p in
  let p2 := Parker.unpark p1 in
  entered = true
  /\ Parker.park_waiting p1 = true
  /\ Parker.park_waiting p2 = false
  /\ Parker.notified p2 = S (Parker.notified p)
  /\ Parker.park_exit p2 = Parker.mkParker Parker.EMPTY (S (Parker.notified p)).
Proof.
  intros He. unfold Parker.park_enter. rewrite He. simpl.
  repeat split; reflexivity.
Qed.

Lemma unpark_releases_parked_thread_witness :
  Parker.state Parker.Parker_init = Parker.EMPTY
  /\ Parker.park Parker.Parker_init = None
  /\ Parker.park_waiting (Parker.unpark (snd (Parker.park_enter Parker.Parker_init))) = false.
Proof.
  assert (He : Parker.state Parker.Parker_init = Parker.EMPTY) by reflexivity.
  pose proof (unpark_releases_parked_thread Parker.Parker_init He) as H.
  simpl in H. destruct H as (_ & _ & Hw & _).
  split; [exact He |]. split; [reflexivity | exact Hw].
Defined.

(** ** The global queue through [spawn] and [pop_global] *)

Lemma pop_global_front w t rest :
  Runtime.global_queue_ (Runtime.sched w) = t :: rest ->
  exists w',
    Runtime.pop_global w = (Some t, w')
    /\ Runtime.global_queue_ (Runtime.sched w') = rest
    /\ Runtime.heap w' = Runtime.heap w
    /\ Runtime.workers_ (Runtime.sched w') = Runtime.workers_ (Runtime.sched w)
    /\ Runtime.reactor w' = Runtime.reactor w.
Proof.
  intros Hq. unfold Runtime.pop_global, Runtime.GlobalQueue_pop. simpl.
  rewrite Hq. destruct t as [h]. simpl.
  eexists. split; [reflexivity |]. simpl. repeat split; reflexivity.
Qed.

Lemma pop_global_empty w :
  Runtime.global_queue_ (Runtime.sched w) = [] ->
  Runtime.pop_global w = (None, w).
Proof.
  intros Hq. destruct w as [hp [q ws st] r nx]. simpl in Hq. subst q. reflexivity.
Qed.

Lemma pop_global_n_drains q : forall w,
  Runtime.global_queue_ (Runtime.sched w) = q ->
  exists w',
    Runtime.pop_global_n (length q) w = (q, w')
    /\ Runtime.global_queue_ (Runtime.sched w') = []
    /\ Runtime.heap w' = Runtime.heap w.
Proof.
  induction q as [| t q IH]; intros w Hq.
  - exists w. simpl. auto.
  - destruct (pop_global_front w t q Hq) as (w1 & Hpop & Hq1 & Hh1 & _).
    destruct (IH w1 Hq1) as (w2 & Hn & Hq2 & Hh2).
    exists w2. simpl. rewrite Hpop, Hn. repeat split; [exact Hq2 | congruence].
Qed.

Lemma spawn_all_queue ts : forall w,
  Forall (fun t => Task.handle t <> nullptr) ts ->
  Runtime.global_queue_ (Runtime.sched (Runtime.spawn_all ts w))
  = Runtime.global_queue_ (Runtime.sched w) ++ ts
  /\ Runtime.heap (Runtime.spawn_all ts w) = Runtime.heap w.
Proof.
  induction ts as [| t ts IH]; intros w Hnn.
  - simpl. now rewrite app_nil_r.
  - inversion Hnn as [| ? ? Ht Hts]; subst.
    unfold Runtime.spawn_all in *. simpl.
    destruct (IH (Runtime.spawn t w) Hts) as [Hq Hh].
    rewrite Hq, Hh, spawn_global_queue, spawn_heap by exact Ht.
    now rewrite <- app_assoc.
Qed.

(** X5.  Tasks handed to [spawn] come back from [pop_global] in the
    order in which they were spawned, after those already queued; the
    queue is then empty, a further [pop_global] returns nothing, and no
    reference count was read or written on the way. *)
Theorem spawned_tasks_are_popped_in_order (ts : list Task.Task) (w : Runtime.World) :
  Forall (fun t => Task.handle t <> nullptr) ts ->
  let q := Runtime.global_queue_ (Runtime.sched w) in
  exists w',
    Runtime.pop_global_n (length (q ++ ts)) (Runtime.spawn_all ts w) = (q ++ ts, w')
    /\ Runtime.pop_global w' = (None, w')
    /\ Runtime.heap w' = Runtime.heap w.
Proof.
  intros Hnn q. destruct (spawn_all_queue ts w Hnn) as [Hq Hh].
  destruct (pop_global_n_drains (q ++ ts) (Runtime.spawn_all ts w) Hq)
    as (w' & Hn & Hq' & Hh').
  exists w'. split; [exact Hn |]. split; [now apply pop_global_empty | congruence].
Qed.

Lemma spawned_tasks_are_popped_in_order_witness :
  let w := Runtime.mkWorld
             {[ 4096 := Task.Promise_init; 8192 := Task.Promise_init ]}
             (Runtime.mkScheduler [] [] false)
             (Runtime.mkReactor (Epoll.Poller_new 3 4) true []) 0 in
  let ts := [Task.mkTask 4096; Task.mkTask 8192] in
  Forall (fun t => Task.handle t <> nullptr) ts
  /\ exists w',
       Runtime.pop_global_n 2 (Runtime.spawn_all ts w) = (ts, w')
       /\ Runtime.pop_global w' = (None, w')
       /\ Runtime.heap w' = Runtime.heap w.
Proof.
  intros w ts.
  assert (Hnn : Forall (fun t => Task.handle t <> nullptr) ts).
  { repeat constructor; unfold nullptr; simpl; lia. }
  split; [exact Hnn |].
  exact (spawned_tasks_are_popped_in_order ts w Hnn).
Defined.

(** ** Round-robin wake-up *)

Lemma spawn_sched t w :
  Task.handle t <> nullptr ->
  Runtime.sched (Runtime.spawn t w)
  = let s := Runtime.sched w in
    match Runtime.workers_ s with
    | [] => Runtime.mkScheduler (Runtime.global_queue_ s ++ [t]) [] (Runtime.stop_ s)
    | _ :: _ =>
        Runtime.mkScheduler
          (Runtime.global_queue_ s ++ [t])
          (alter Runtime.Worker_wake
                 (Z.to_nat (Runtime.next w mod Z.of_nat (length (Runtime.workers_ s))))
                 (Runtime.workers_ s))
          (Runtime.stop_ s)
    end.
Proof.
  intros Hn. destruct t as [h]. simpl in Hn.
  unfold Runtime.spawn, Task.detach. simpl.
  rewrite !(eqb_nullptr_false h Hn).
  unfold Runtime.GlobalQueue_push_ptr. rewrite from_address_task.
  unfold Runtime.GlobalQueue_push. simpl.
  destruct (Runtime.workers_ (Runtime.sched w)); reflexivity.
Qed.

Lemma spawn_null t w : Task.handle t = nullptr -> Runtime.spawn t w = w.
Proof.
  intros Hn. destruct w as [hp s r nx].
  unfold Runtime.spawn, Task.detach. rewrite Hn. reflexivity.
Qed.

Lemma spawn_workers_length t w :
  length (Runtime.workers_ (Runtime.sched (Runtime.spawn t w)))
  = length (Runtime.workers_ (Runtime.sched w)).
Proof.
  destruct (Z.eq_dec (Task.handle t) nullptr) as [He | Hne].
  - now rewrite spawn_null.
  - rewrite spawn_sched by exact Hne. simpl.
    destruct (Runtime.workers_ (Runtime.sched w)) eqn:Hw; [reflexivity |].
    simpl. now rewrite length_alter.
Qed.

Lemma spawn_keeps_notified t w k :
  Runtime.parker_state_at k w = Some Parker.NOTIFIED ->
  Runtime.parker_state_at k (Runtime.spawn t w) = Some Parker.NOTIFIED.
Proof.
  intros Hk. destruct (Z.eq_dec (Task.handle t) nullptr) as [He | Hne].
  - now rewrite spawn_null.
  - unfold Runtime.parker_state_at in *. rewrite spawn_sched by exact Hne. simpl.
    destruct (Runtime.workers_ (Runtime.sched w)) as [| w0 ws] eqn:Hw; [discriminate |].
    simpl. rewrite list_lookup_alter.
    case_decide as Hi; [| exact Hk].
    rewrite Hi in *. 
    destruct ((w0 :: ws) !! k) as [wk |]; [| discriminate]. simpl.
    now rewrite unpark_state.
Qed.

Lemma spawn_all_keeps_notified ts : forall w k,
  Runtime.parker_state_at k w = Some Parker.NOTIFIED ->
  Runtime.parker_state_at k (Runtime.spawn_all ts w) = Some Parker.NOTIFIED.
Proof.
  induction ts as [| t ts IH]; intros w k Hk; [exact Hk |].
  unfold Runtime.spawn_all in *. simpl. apply IH. now apply spawn_keeps_notified.
Qed.

Lemma spawn_next t w :
  Task.handle t <> nullptr ->
  Runtime.next (Runtime.spawn t w)
  = match Runtime.workers_ (Runtime.sched w) with
    | [] => Runtime.next w
    | _ :: _ => wrap_size_t (Runtime.next w + 1)
    end.
Proof.
  intros Hn. destruct t as [h]. simpl in Hn.
  unfold Runtime.spawn, Task.detach. simpl.
  rewrite !(eqb_nullptr_false h Hn).
  unfold Runtime.GlobalQueue_push_ptr. rewrite from_address_task.
  unfold Runtime.GlobalQueue_push. simpl.
  destruct (Runtime.workers_ (Runtime.sched w)); reflexivity.
Qed.

Lemma spawn_notifies_target t w :
  Task.handle t <> nullptr ->
  let n := Z.of_nat (length (Runtime.workers_ (Runtime.sched w))) in
  0 < n ->
  Runtime.parker_state_at (Z.to_nat (Runtime.next w mod n)) (Runtime.spawn t w)
  = Some Parker.NOTIFIED
  /\ Runtime.next (Runtime.spawn t w) = wrap_size_t (Runtime.next w + 1).
Proof.
  intros Hne n Hn. subst n.
  unfold Runtime.parker_state_at.
  rewrite spawn_sched, spawn_next by exact Hne. cbv zeta.
  destruct (Runtime.workers_ (Runtime.sched w)) as [| w0 ws] eqn:Hw; [simpl in Hn; lia |].
  simpl Runtime.workers_. split; [| reflexivity].
  rewrite list_lookup_alter_eq.
  assert (Hlt : (Z.to_nat (Runtime.next w mod Z.of_nat (length (w0 :: ws)))
                 < length (w0 :: ws))%nat).
  { pose proof (Z.mod_pos_bound (Runtime.next w) (Z.of_nat (length (w0 :: ws))) Hn). lia. }
  match goal with
  | |- context [?l !! ?i] => destruct (l !! i) as [wk |] eqn:Hwk
  end.
  - simpl. now rewrite unpark_state.
  - apply lookup_ge_None in Hwk. simpl length in *. lia.
Qed.

Lemma spawn_leaves_the_others t w k :
  k <> Z.to_nat (Runtime.next w mod Z.of_nat (length (Runtime.workers_ (Runtime.sched w)))) ->
  Runtime.parker_state_at k (Runtime.spawn t w) = Runtime.parker_state_at k w.
Proof.
  intros Hk. destruct (Z.eq_dec (Task.handle t) nullptr) as [He | Hne].
  - now rewrite spawn_null.
  - unfold Runtime.parker_state_at. rewrite spawn_sched by exact Hne. cbv zeta.
    destruct (Runtime.workers_ (Runtime.sched w)) as [| w0 ws] eqn:Hw; [reflexivity |].
    simpl Runtime.workers_. simpl length in Hk.
    rewrite list_lookup_alter_ne by (intros E; apply Hk; now rewrite E). reflexivity.
Qed.

Lemma spawn_event_workers_length e w :
  length (Runtime.workers_ (Runtime.sched (Runtime.spawn_event e w)))
  = length (Runtime.workers_ (Runtime.sched w)).
Proof. destruct e; [apply spawn_workers_length | reflexivity]. Qed.

Lemma spawn_events_keep_notified es : forall w k,
  Runtime.parker_state_at k w = Some Parker.NOTIFIED ->
  Runtime.parker_state_at k (Runtime.spawn_events es w) = Some Parker.NOTIFIED.
Proof.
  induction es as [| e es IH]; intros w k Hk; [exact Hk |].
  unfold Runtime.spawn_events in *. simpl. apply IH.
  destruct e; [now apply spawn_keeps_notified | exact Hk].
Qed.

Lemma spawn_events_app es1 es2 w :
  Runtime.spawn_events (es1 ++ es2) w = Runtime.spawn_events es2 (Runtime.spawn_events es1 w).
Proof. unfold Runtime.spawn_events. apply foldl_app. Qed.

Lemma spawn_events_here ts : forall w,
  Runtime.spawn_events (map Runtime.Here ts) w = Runtime.spawn_all ts w.
Proof.
  induction ts as [| t ts IH]; intros w; [reflexivity |].
  unfold Runtime.spawn_events, Runtime.spawn_all in *. simpl. apply IH.
Qed.

Lemma spawn_all_notifies ts : forall w (j : nat),
  Forall (fun t => Task.handle t <> nullptr) ts ->
  let n := Z.of_nat (length (Runtime.workers_ (Runtime.sched w))) in
  0 < n -> 0 <= Runtime.next w ->
  Runtime.next w + Z.of_nat (length ts) < 2 ^ 64 ->
  (j < length ts)%nat ->
  Runtime.parker_state_at (Z.to_nat ((Runtime.next w + Z.of_nat j) mod n))
                          (Runtime.spawn_all ts w)
  = Some Parker.NOTIFIED.
Proof.
  induction ts as [| t ts IH]; intros w j Hnn n Hn Hnext Hwrap Hj; [simpl in Hj; lia |].
  inversion Hnn as [| ? ? Ht Hts]; subst.
  destruct (spawn_notifies_target t w Ht Hn) as [Htarget Hnext'].
  fold n in Htarget.
  change (Runtime.spawn_all (t :: ts) w) with (Runtime.spawn_all ts (Runtime.spawn t w)).
  simpl length in Hwrap, Hj.
  destruct j as [| j'].
  - apply spawn_all_keeps_notified. simpl Z.of_nat. rewrite Z.add_0_r. exact Htarget.
  - rewrite wrap_size_t_id in Hnext' by lia.
    specialize (IH (Runtime.spawn t w) j' Hts). cbv zeta in IH.
    rewrite spawn_workers_length, Hnext' in IH. fold n in IH.
    replace (Runtime.next w + Z.of_nat (S j')) with (Runtime.next w + 1 + Z.of_nat j') by lia.
    apply IH; lia.
Qed.

(** Spawns on this scheduler, each followed by [m] spawns on others. *)
Lemma spaced_spawns_hit_one_worker ts : forall w k,
  let n := Z.of_nat (length (Runtime.workers_ (Runtime.sched w))) in
  0 < n -> 0 <= Runtime.next w ->
  Runtime.next w + n * Z.of_nat (length ts) < 2 ^ 64 ->
  k <> Z.to_nat (Runtime.next w mod n) ->
  Forall (fun t => Task.handle t <> nullptr) ts ->
  Runtime.parker_state_at k
    (Runtime.spawn_events
       (concat (map (fun t => Runtime.Here t :: replicate (Z.to_nat (n - 1)) Runtime.Elsewhere)
                    ts)) w)
  = Runtime.parker_state_at k w.
Proof.
  induction ts as [| t ts IH]; intros w k n Hn Hnext Hwrap Hk Hnn; [reflexivity |].
  inversion Hnn as [| ? ? Ht Hts]; subst.
  cbn [map concat]. rewrite <- app_comm_cons.
  change (Runtime.spawn_events (Runtime.Here t :: ?es) w)
    with (Runtime.spawn_events es (Runtime.spawn t w)).
  rewrite spawn_events_app.
  set (w1 := Runtime.spawn_events (replicate (Z.to_nat (n - 1)) Runtime.Elsewhere)
                                  (Runtime.spawn t w)).
  assert (Hshape : forall (m : nat) w0,
            0 <= Runtime.next w0 -> Runtime.next w0 + Z.of_nat m < 2 ^ 64 ->
            Runtime.sched (Runtime.spawn_events (replicate m Runtime.Elsewhere) w0)
            = Runtime.sched w0
            /\ Runtime.next (Runtime.spawn_events (replicate m Runtime.Elsewhere) w0)
               = Runtime.next w0 + Z.of_nat m).
  { clear. induction m as [| m IHm]; intros w0 H0 Hw.
    - split; [reflexivity | simpl; lia].
    - change (Runtime.spawn_events (replicate (S m) Runtime.Elsewhere) w0)
        with (Runtime.spawn_events (replicate m Runtime.Elsewhere) (Runtime.spawn_elsewhere w0)).
      assert (Hn1 : Runtime.next (Runtime.spawn_elsewhere w0) = Runtime.next w0 + 1).
      { unfold Runtime.spawn_elsewhere. simpl. apply wrap_size_t_id. lia. }
      destruct (IHm (Runtime.spawn_elsewhere w0)) as [Hs Hx]; [lia | lia |].
      rewrite Hs, Hx, Hn1. split; [reflexivity | lia]. }
  destruct (spawn_notifies_target t w Ht Hn) as [_ Hnext1]. fold n in Hnext1.
  simpl length in Hwrap.
  rewrite wrap_size_t_id in Hnext1 by nia.
  destruct (Hshape (Z.to_nat (n - 1)) (Runtime.spawn t w)) as [Hs1 Hx1]; [lia | nia |].
  fold w1 in Hs1, Hx1. rewrite Hnext1 in Hx1.
  assert (Hlen1 : length (Runtime.workers_ (Runtime.sched w1))
                  = length (Runtime.workers_ (Runtime.sched w))).
  { rewrite Hs1. apply spawn_workers_length. }
  assert (Hnext_w1 : Runtime.next w1 = Runtime.next w + n) by lia.
  specialize (IH w1 k). cbv zeta in IH. rewrite Hlen1, Hnext_w1 in IH. fold n in IH.
  rewrite IH; [| lia | lia | nia | | exact Hts].
  - unfold Runtime.parker_state_at. rewrite Hs1.
    apply (spawn_leaves_the_others t w k). exact Hk.
  - replace (Runtime.next w + n) with (Runtime.next w + 1 * n) by lia.
    rewrite Z.mod_add by lia. exact Hk.
Qed.

(** X6.  The round-robin counter of [spawn] belongs to the process.  With
    [n > 0] workers, [n] (or more) spawns on this scheduler that draw
    consecutive values of the counter unpark every worker, and whatever
    spawns follow leave them notified.  When each of those spawns is
    followed by [n - 1] spawns on other schedulers, they all select the
    same worker and every other worker keeps its parker state. *)
Theorem burst_of_spawns_wakes_every_worker (ts : list Task.Task)
    (later : list Runtime.SpawnEvent) (w : Runtime.World) :
  Forall (fun t => Task.handle t <> nullptr) ts ->
  let n := length (Runtime.workers_ (Runtime.sched w)) in
  (0 < n)%nat ->
  0 <= Runtime.next w ->
  Runtime.next w + Z.of_nat n * Z.of_nat (length ts) < 2 ^ 64 ->
  ((n <= length ts)%nat ->
   forall k, (k < n)%nat ->
     Runtime.parker_state_at k (Runtime.spawn_events (map Runtime.Here ts ++ later) w)
     = Some Parker.NOTIFIED)
  /\ (forall k, k <> Z.to_nat (Runtime.next w mod Z.of_nat n) ->
        Runtime.parker_state_at k
          (Runtime.spawn_events
             (concat (map (fun t => Runtime.Here t :: replicate (n - 1) Runtime.Elsewhere) ts))
             w)
        = Runtime.parker_state_at k w).
Proof.
  intros Hnn n Hpos Hnext Hwrap. split.
  - intros Hlen k Hk.
    rewrite spawn_events_app, spawn_events_here. apply spawn_events_keep_notified.
    set (nz := Z.of_nat n).
    set (j := Z.to_nat ((Z.of_nat k - Runtime.next w) mod nz)).
    assert (Hn : 0 < nz) by (unfold nz; lia).
    pose proof (Z.mod_pos_bound (Z.of_nat k - Runtime.next w) nz Hn) as Hjb.
    assert (Hj : (j < length ts)%nat) by (unfold j, nz in *; lia).
    assert (Hwrap' : Runtime.next w + Z.of_nat (length ts) < 2 ^ 64) by (unfold nz in *; nia).
    pose proof (spawn_all_notifies ts w j Hnn Hn Hnext Hwrap' Hj) as H.
    fold n nz in H.
    replace (Z.to_nat ((Runtime.next w + Z.of_nat j) mod nz)) with k in H; [exact H |].
    unfold j. rewrite Z2Nat.id by lia.
    rewrite Zplus_mod_idemp_r.
    replace (Runtime.next w + (Z.of_nat k - Runtime.next w)) with (Z.of_nat k) by lia.
    rewrite Z.mod_small by (unfold nz; lia). now rewrite Nat2Z.id.
  - intros k Hk.
    pose proof (spaced_spawns_hit_one_worker ts w k) as H. cbv zeta in H. fold n in H.
    replace (Z.to_nat (Z.of_nat n - 1)) with (n - 1)%nat in H by lia.
    apply H; [lia | exact Hnext | exact Hwrap | exact Hk | exact Hnn].
Qed.

Lemma burst_of_spawns_wakes_every_worker_witness :
  let wk i := Runtime.mkWorker i 0 (StealQueue.StealQueue_new 8192 0)
                               (Parker.mkParker Parker.PARKED 0) in
  let w := Runtime.mkWorld
             {[ 4096 := Task.Promise_init; 8192 := Task.Promise_init ]}
             (Runtime.mkScheduler [] [wk 0; wk 1] false)
             (Runtime.mkReactor (Epoll.Poller_new 3 4) true []) 3 in
  let t1 := Task.mkTask 4096 in
  let t2 := Task.mkTask 8192 in
  Forall (fun t => Task.handle t <> nullptr) [t1; t2]
  /\ Runtime.parker_state_at 0 (Runtime.spawn_events [Runtime.Here t1; Runtime.Here t2] w)
     = Some Parker.NOTIFIED
  /\ Runtime.parker_state_at 1 (Runtime.spawn_events [Runtime.Here t1; Runtime.Here t2] w)
     = Some Parker.NOTIFIED
  /\ Runtime.parker_state_at 0
       (Runtime.spawn_events
          [Runtime.Here t1; Runtime.Elsewhere; Runtime.Here t2; Runtime.Elsewhere] w)
     = Some Parker.PARKED.
Proof.
  intros wk w t1 t2.
  assert (Hnn : Forall (fun t => Task.handle t <> nullptr) [t1; t2]).
  { repeat constructor; unfold nullptr; simpl; lia. }
  assert (Hpos : (0 < length (Runtime.workers_ (Runtime.sched w)))%nat) by (simpl; lia).
  assert (Hnext : 0 <= Runtime.next w) by (simpl; lia).
  assert (Hwrap : Runtime.next w
                  + Z.of_nat (length (Runtime.workers_ (Runtime.sched w)))
                    * Z.of_nat (length [t1; t2]) < 2 ^ 64) by (simpl; lia).
  destruct (burst_of_spawns_wakes_every_worker [t1; t2] [] w Hnn Hpos Hnext Hwrap)
    as [Hall Hone].
  assert (Hlen : (length (Runtime.workers_ (Runtime.sched w)) <= length [t1; t2])%nat)
    by (simpl; lia).
  split; [exact Hnn |].
  split; [exact (Hall Hlen 0%nat ltac:(simpl; lia)) |].
  split; [exact (Hall Hlen 1%nat ltac:(simpl; lia)) |].
  exact (Hone 0%nat ltac:(vm_compute; lia)).
Defined.

(** ** The timer heap *)

Lemma timers_push_perm t ts : Runtime.timers_push t ts ≡ₚ t :: ts.
Proof.
  induction ts as [| u rest IH]; simpl; [reflexivity |].
  destruct (Runtime.expiry u <=? Runtime.expiry t); [| reflexivity].
  rewrite IH. apply Permutation_swap.
Qed.

Lemma timers_push_sorted t ts :
  Runtime.timers_sorted ts -> Runtime.timers_sorted (Runtime.timers_push t ts).
Proof.
  induction ts as [| u rest IH]; simpl; intros Hs.
  - split; [constructor | exact I].
  - destruct Hs as [Hu Hrest].
    destruct (Z.leb_spec (Runtime.expiry u) (Runtime.expiry t)) as [Hle | Hgt]; simpl.
    + split; [| now apply IH].
      rewrite (timers_push_perm t rest). constructor; assumption.
    + split; [| split; assumption].
      constructor; [lia |].
      eapply Forall_impl; [exact Hu |]. simpl. intros x Hx. lia.
Qed.

(** X7.  [add_timer] keeps the timers ordered by expiry and neither
    loses nor duplicates one; it wakes the poller exactly when no timer
    already queued expires before the new one. *)
Theorem add_timer_keeps_order_and_wakes_for_earliest
    (expiry_ h : Z) (w : Runtime.World) :
  let ts := Runtime.timers_ (Runtime.reactor w) in
  let w' := Runtime.add_timer expiry_ h w in
  Runtime.timers_sorted ts ->
  Runtime.timers_sorted (Runtime.timers_ (Runtime.reactor w'))
  /\ Runtime.timers_ (Runtime.reactor w') ≡ₚ Runtime.mkTimer expiry_ h :: ts
  /\ Runtime.poller_ (Runtime.reactor w')
     = (if forallb (fun u => expiry_ <=? Runtime.expiry u) ts
        then Epoll.wake (Runtime.poller_ (Runtime.reactor w))
        else Runtime.poller_ (Runtime.reactor w))
  /\ Runtime.heap w' = Runtime.heap w
  /\ Runtime.sched w' = Runtime.sched w.
Proof.
  intros ts w' Hs. subst w'. unfold Runtime.add_timer. simpl. fold ts.
  split; [now apply timers_push_sorted |].
  split; [apply timers_push_perm |].
  split; [| split; reflexivity].
  destruct ts as [| u rest]; simpl.
  - now rewrite Z.eqb_refl.
  - destruct Hs as [Hu _].
    destruct (Z.leb_spec (Runtime.expiry u) expiry_) as [Hle | Hgt]; simpl.
    + destruct (Z.eqb_spec (Runtime.expiry u) expiry_) as [He | Hne].
      * destruct (Z.leb_spec expiry_ (Runtime.expiry u)); [| lia]. simpl.
        replace (forallb _ rest) with true; [reflexivity |].
        symmetry. apply forallb_forall. intros x Hx.
        rewrite Forall_forall in Hu. apply list_elem_of_In in Hx.
        specialize (Hu x Hx). apply Z.leb_le. lia.
      * destruct (Z.leb_spec expiry_ (Runtime.expiry u)); [lia | reflexivity].
    + rewrite Z.eqb_refl.
      destruct (Z.leb_spec expiry_ (Runtime.expiry u)); [| lia]. simpl.
      replace (forallb _ rest) with true; [reflexivity |].
      symmetry. apply forallb_forall. intros x Hx.
      rewrite Forall_forall in Hu. apply list_elem_of_In in Hx.
      specialize (Hu x Hx). apply Z.leb_le. lia.
Qed.

Lemma add_timer_keeps_order_and_wakes_for_earliest_witness :
  let w := Runtime.add_timer 50 4096
             (Runtime.mkWorld ∅ (Runtime.mkScheduler [] [] false)
                (Runtime.mkReactor (Epoll.Poller_new 3 4) true []) 0) in
  let w' := Runtime.add_timer 70 8192 w in
  Runtime.timers_sorted (Runtime.timers_ (Runtime.reactor w))
  /\ Runtime.timers_sorted (Runtime.timers_ (Runtime.reactor w'))
  /\ Runtime.poller_ (Runtime.reactor w') = Runtime.poller_ (Runtime.reactor w).
Proof.
  intros w w'.
  assert (Hs : Runtime.timers_sorted (Runtime.timers_ (Runtime.reactor w))).
  { simpl. split; [constructor | exact I]. }
  destruct (add_timer_keeps_order_and_wakes_for_earliest 70 8192 w Hs)
    as (Hs' & _ & Hp & _).
  split; [exact Hs |]. split; [exact Hs' | exact Hp].
Defined.

Lemma fire_expired_none now ts w :
  Forall (fun u => now < Runtime.expiry u) ts ->
  Runtime.fire_expired now ts w = (ts, w)
  /\ List.filter (fun t => Runtime.expiry t <=? now) ts = []
  /\ List.filter (fun t => now <? Runtime.expiry t) ts = ts.
Proof.
  intros Hall. split.
  - destruct ts as [| t rest]; [reflexivity |].
    inversion Hall; subst. simpl.
    destruct (Z.leb_spec (Runtime.expiry t) now); [lia | reflexivity].
  - induction Hall as [| t rest Ht Hrest [IH1 IH2]]; simpl; [split; reflexivity |].
    destruct (Z.leb_spec (Runtime.expiry t) now); [lia |].
    destruct (Z.ltb_spec now (Runtime.expiry t)); [| lia].
    split; [exact IH1 | now rewrite IH2].
Qed.

Lemma fire_expired_sorted now ts : forall w,
  Runtime.timers_sorted ts ->
  Forall (fun t => Runtime.handle t <> nullptr) ts ->
  let '(rest, w') := Runtime.fire_expired now ts w in
  rest = List.filter (fun t => now <? Runtime.expiry t) ts
  /\ Runtime.global_queue_ (Runtime.sched w')
     = Runtime.global_queue_ (Runtime.sched w)
       ++ map (fun t => Task.mkTask (Runtime.handle t))
              (List.filter (fun t => Runtime.expiry t <=? now) ts)
  /\ Runtime.reactor w' = Runtime.reactor w.
Proof.
  induction ts as [| t ts IH]; intros w Hs Hnn.
  - simpl. now rewrite app_nil_r.
  - destruct Hs as [Ht Hs]. inversion Hnn as [| ? ? Hh Hnn']; subst.
    destruct (Z.leb_spec (Runtime.expiry t) now) as [Hexp | Hlater].
    + simpl. destruct (Z.leb_spec (Runtime.expiry t) now); [| lia].
      destruct (Z.ltb_spec now (Runtime.expiry t)); [lia |].
      specialize (IH (Runtime.spawn_from_address (Runtime.handle t) w) Hs Hnn').
      destruct (Runtime.fire_expired now ts _) as [rest w'].
      destruct IH as (Hrest & Hq & Hr). split; [exact Hrest |]. split.
      * rewrite Hq, spawn_from_address_global_queue by exact Hh.
        simpl. now rewrite <- app_assoc.
      * rewrite Hr. apply spawn_from_address_reactor.
    + assert (Hall : Forall (fun u => now < Runtime.expiry u) (t :: ts)).
      { constructor; [exact Hlater |].
        eapply Forall_impl; [exact Ht |]. simpl. intros x Hx. lia. }
      destruct (fire_expired_none now (t :: ts) w Hall) as (Hf & He & Hk).
      rewrite Hf, He, Hk. simpl. now rewrite app_nil_r.
Qed.

(** X8.  The timer block of the reactor loop, on ordered timers: every
    timer that has expired at [now] is removed and its handle spawned,
    in expiry order; every timer that has not expired stays; no frame is
    touched. *)
Theorem handle_timers_fires_exactly_the_expired (now : Z) (w : Runtime.World) :
  let ts := Runtime.timers_ (Runtime.reactor w) in
  let w' := Runtime.handle_timers now w in
  Runtime.timers_sorted ts ->
  Forall (fun t => Runtime.handle t <> nullptr) ts ->
  Runtime.timers_ (Runtime.reactor w') = List.filter (fun t => now <? Runtime.expiry t) ts
  /\ Runtime.global_queue_ (Runtime.sched w')
     = Runtime.global_queue_ (Runtime.sched w)
       ++ map (fun t => Task.mkTask (Runtime.handle t))
              (List.filter (fun t => Runtime.expiry t <=? now) ts)
  /\ Runtime.heap w' = Runtime.heap w.
Proof.
  intros ts w' Hs Hnn. subst w'.
  split; [| split; [| apply handle_timers_heap]].
  - unfold Runtime.handle_timers.
    pose proof (fire_expired_sorted now ts w Hs Hnn) as H. fold ts.
    destruct (Runtime.fire_expired now ts w) as [rest w1].
    destruct H as (Hrest & _ & _). simpl. exact Hrest.
  - unfold Runtime.handle_timers.
    pose proof (fire_expired_sorted now ts w Hs Hnn) as H. fold ts.
    destruct (Runtime.fire_expired now ts w) as [rest w1].
    destruct H as (_ & Hq & _). simpl. exact Hq.
Qed.

Lemma handle_timers_fires_exactly_the_expired_witness :
  let w := Runtime.add_timer 50 4096
             (Runtime.add_timer 70 8192
                (Runtime.mkWorld ∅ (Runtime.mkScheduler [] [] false)
                   (Runtime.mkReactor (Epoll.Poller_new 3 4) true []) 0)) in
  let w' := Runtime.handle_timers 60 w in
  Runtime.timers_ (Runtime.reactor w') = [Runtime.mkTimer 70 8192]
  /\ Runtime.global_queue_ (Runtime.sched w') = [Task.mkTask 4096].
Proof.
  intros w w'.
  assert (Hs : Runtime.timers_sorted (Runtime.timers_ (Runtime.reactor w))).
  { simpl. split; [constructor; [simpl; lia | constructor] |].
    split; [constructor | exact I]. }
  assert (Hnn : Forall (fun t => Runtime.handle t <> nullptr)
                       (Runtime.timers_ (Runtime.reactor w))).
  { simpl. repeat constructor; unfold nullptr; simpl; lia. }
  destruct (handle_timers_fires_exactly_the_expired 60 w Hs Hnn) as (Ht & Hq & _).
  split; [exact Ht | exact Hq].
Defined.

(** ** The poller: one-shot registrations *)

Lemma add_interest_lookup evmask fd h p :
  0 <= h < 2 ^ 64 ->
  Epoll.interest (Epoll.add_interest evmask fd h p) !! fd
  = Some (Epoll.mkInterest (Epoll.mkEvent evmask h) true)
  /\ Epoll.wake_fd_ (Epoll.add_interest evmask fd h p) = Epoll.wake_fd_ p.
Proof.
  intros Hh.
  unfold Epoll.add_interest, Epoll.epoll_ctl_add, Epoll.epoll_ctl_mod, Epoll.set_data_ptr.
  simpl. rewrite Z.mod_small by lia.
  destruct (Epoll.interest p !! fd); simpl; rewrite lookup_insert_eq; auto.
Qed.

Lemma wait_one_shot_armed {St : Type} (cb : Z -> St -> St) fd m h p (s : St) :
  Epoll.interest p !! fd = Some (Epoll.mkInterest (Epoll.mkEvent m h) true) ->
  Z.testbit m 30 = true ->
  fd <> Epoll.wake_fd_ p ->
  h <> nullptr ->
  Epoll.wait [fd] cb (p, s)
  = (1, (Epoll.set_interest
           (<[fd := Epoll.mkInterest (Epoll.mkEvent m h) false]> (Epoll.interest p)) p,
         cb h s)).
Proof.
  intros Hint Hbit Hfd Hh.
  unfold Epoll.wait, Epoll.epoll_wait. simpl.
  unfold Epoll.report. rewrite Hint.
  cbn [Epoll.armed Epoll.registered Epoll.events Epoll.data andb].
  rewrite Hbit.
  destruct (Z.eqb_spec fd (Epoll.wake_fd_ p)) as [He | _]; [contradiction |].
  cbn [negb orb length Z.of_nat Epoll.wait_loop fst snd Epoll.data_ptr Epoll.data
       Pos.of_succ_nat].
  now rewrite (eqb_nullptr_false h Hh).
Qed.

Lemma wait_disarmed {St : Type} (cb : Z -> St -> St) fd ev p (s : St) :
  Epoll.interest p !! fd = Some (Epoll.mkInterest ev false) ->
  Epoll.wait [fd] cb (p, s) = (0, (p, s)).
Proof.
  intros Hint. unfold Epoll.wait, Epoll.epoll_wait. simpl.
  unfold Epoll.report. rewrite Hint. simpl. now destruct p.
Qed.

(** X9.  A registration is one-shot: once its event went to the
    callback, the descriptor being ready again produces no event and no
    callback.  Registering the descriptor again (the kernel answers
    [EEXIST], the poller modifies the entry) arms it with the new
    pointer, which the next [wait] hands to the callback. *)
Theorem reregistration_rearms_one_shot {St : Type} (cb : Z -> St -> St)
    (fd h1 h2 : Z) (p : Epoll.Poller) (s : St) :
  fd <> Epoll.wake_fd_ p ->
  0 < h1 < 2 ^ 64 ->
  0 < h2 < 2 ^ 64 ->
  let r1 := Epoll.wait [fd] cb (Epoll.add_read fd h1 p, s) in
  let r2 := Epoll.wait [fd] cb (snd r1) in
  let r3 := Epoll.wait [fd] cb (Epoll.add_write fd h2 (fst (snd r2)), snd (snd r2)) in
  (fst r1 = 1 /\ snd (snd r1) = cb h1 s)
  /\ (fst r2 = 0 /\ snd r2 = snd r1)
  /\ (fst r3 = 1 /\ snd (snd r3) = cb h2 (cb h1 s)).
Proof.
  intros Hfd Hh1 Hh2.
  destruct (add_interest_lookup
              (Z.lor (Z.lor Epoll.EPOLLIN Epoll.EPOLLONESHOT) Epoll.EPOLLRDHUP)
              fd h1 p ltac:(lia)) as [Hint1 Hw1].
  fold (Epoll.add_read fd h1 p) in Hint1, Hw1.
  assert (Hn1 : h1 <> nullptr) by (unfold nullptr; lia).
  assert (Hn2 : h2 <> nullptr) by (unfold nullptr; lia).
  intros r1.
  assert (Hr1 : r1 = (1, (Epoll.set_interest
                            (<[fd := Epoll.mkInterest
                                       (Epoll.mkEvent
                                          (Z.lor (Z.lor Epoll.EPOLLIN Epoll.EPOLLONESHOT)
                                                 Epoll.EPOLLRDHUP) h1) false]>
                               (Epoll.interest (Epoll.add_read fd h1 p)))
                            (Epoll.add_read fd h1 p),
                          cb h1 s))).
  { subst r1. apply wait_one_shot_armed; auto. now rewrite Hw1. }
  rewrite Hr1. simpl snd. simpl fst.
  intros r2.
  assert (Hr2 : r2 = (0, snd (1, (Epoll.set_interest
                            (<[fd := Epoll.mkInterest
                                       (Epoll.mkEvent
                                          (Z.lor (Z.lor Epoll.EPOLLIN Epoll.EPOLLONESHOT)
                                                 Epoll.EPOLLRDHUP) h1) false]>
                               (Epoll.interest (Epoll.add_read fd h1 p)))
                            (Epoll.add_read fd h1 p),
                          cb h1 s)))).
  { subst r2. simpl snd. eapply wait_disarmed. simpl. apply lookup_insert_eq. }
  rewrite Hr2. simpl snd. simpl fst.
  intros r3. split; [split; reflexivity |]. split; [split; reflexivity |].
  match type of r3 with
  | _ => match eval unfold r3 in r3 with
         | Epoll.wait _ _ (Epoll.add_write _ _ ?q, _) =>
             destruct (add_interest_lookup
                         (Z.lor (Z.lor Epoll.EPOLLOUT Epoll.EPOLLONESHOT) Epoll.EPOLLRDHUP)
                         fd h2 q ltac:(lia)) as [Hint3 Hw3];
             fold (Epoll.add_write fd h2 q) in Hint3, Hw3
         end
  end.
  subst r3.
  erewrite wait_one_shot_armed; [split; reflexivity | exact Hint3 | reflexivity | | exact Hn2].
  rewrite Hw3. simpl. now rewrite Hw1.
Qed.

Lemma reregistration_rearms_one_shot_witness :
  let p := Epoll.Poller_new 3 4 in
  let r1 := Epoll.wait [7] Epoll.record_call (Epoll.add_read 7 4096 p, []) in
  let r2 := Epoll.wait [7] Epoll.record_call (snd r1) in
  let r3 := Epoll.wait [7] Epoll.record_call
                       (Epoll.add_write 7 8192 (fst (snd r2)), snd (snd r2)) in
  snd (snd r1) = [4096] /\ snd r2 = snd r1 /\ snd (snd r3) = [4096; 8192].
Proof.
  intros p.
  assert (Hfd : 7 <> Epoll.wake_fd_ p) by (unfold p; vm_compute; congruence).
  assert (Hh1 : 0 < 4096 < 2 ^ 64) by lia.
  assert (Hh2 : 0 < 8192 < 2 ^ 64) by lia.
  destruct (reregistration_rearms_one_shot Epoll.record_call 7 4096 8192 p []
              Hfd Hh1 Hh2) as ((_ & H1) & (_ & H2) & (_ & H3)).
  intros r1 r2 r3. split; [exact H1 |]. split; [exact H2 | exact H3].
Defined.

(** X10.  The kqueue [wait] returns the number of events it was given
    and calls the callback, in the order of the events, once for every
    event that is not the user (self-wake) event and carries a non-null
    pointer, with that pointer. *)
Theorem kqueue_wait_calls_back_io_events {St : Type} (cb : Z -> St -> St)
    (evs : list Kqueue.kevent_t) (s : St) :
  Kqueue.wait evs cb s
  = (Z.of_nat (length evs),
     fold_left (fun s u => cb u s)
       (map Kqueue.udata
          (List.filter (fun ev => negb (Kqueue.filter ev =? Kqueue.EVFILT_USER)
                                  && negb (Kqueue.udata ev =? nullptr)) evs)) s).
Proof. unfold Kqueue.wait. now rewrite kqueue_wait_loop_calls. Qed.

(** ** The reclaimer: nothing lost, nothing freed under a reader *)

Lemma bin_ptrs_split i (bins : list (list Ebr.Node)) :
  map Ebr.ptr (default [] (bins !! i)) ++ concat (map (map Ebr.ptr) (<[i := []]> bins))
  ≡ₚ concat (map (map Ebr.ptr) bins).
Proof.
  revert i. induction bins as [| b bins IH]; intros i; [now destruct i |].
  destruct i as [| i]; simpl.
  - reflexivity.
  - rewrite <- (IH i).
    rewrite !app_assoc. apply Permutation_app_tail, Permutation_app_comm.
Qed.

Lemma clear_bin_ptrs i t :
  map Ebr.ptr (Ebr.bin i t) ++ Ebr.local_ptrs (Ebr.clear_bin i t) ≡ₚ Ebr.local_ptrs t.
Proof. unfold Ebr.bin, Ebr.local_ptrs, Ebr.clear_bin. simpl. apply bin_ptrs_split. Qed.

Lemma concat_split_perm {A} (f g h : A -> list Z) (l : list A) :
  (forall x, f x ++ g x ≡ₚ h x) ->
  concat (map f l) ++ concat (map g l) ≡ₚ concat (map h l).
Proof.
  intros Hx. induction l as [| x l IH]; simpl; [reflexivity |].
  rewrite <- (Hx x), <- IH.
  rewrite <- !app_assoc. apply Permutation_app_head.
  rewrite !app_assoc. apply Permutation_app_tail, Permutation_app_comm.
Qed.

Lemma try_advance_locked_conserves g m :
  Ebr.deleted (Ebr.try_advance_locked g m) ++ Ebr.pending (Ebr.try_advance_locked g m)
  ≡ₚ Ebr.deleted m ++ Ebr.pending m.
Proof.
  unfold Ebr.try_advance_locked.
  destruct (existsb _ _); [reflexivity |]. simpl.
  unfold Ebr.pending. simpl. rewrite map_map, <- app_assoc.
  apply Permutation_app_head.
  apply (concat_split_perm _ (fun t => Ebr.local_ptrs (Ebr.clear_bin _ t))).
  intros t. apply clear_bin_ptrs.
Qed.

Lemma push_bin_ptrs i n (bins : list (list Ebr.Node)) :
  (i < length bins)%nat ->
  concat (map (map Ebr.ptr) (alter (fun b => b ++ [n]) i bins))
  ≡ₚ Ebr.ptr n :: concat (map (map Ebr.ptr) bins).
Proof.
  revert i. induction bins as [| b bins IH]; intros i Hi; [simpl in Hi; lia |].
  destruct i as [| i]; simpl.
  - rewrite map_app. simpl. rewrite <- app_assoc. simpl.
    symmetry. apply Permutation_middle.
  - assert (Hi' : (i < length bins)%nat) by (simpl in Hi; lia).
    specialize (IH i Hi'). unfold alter in IH. rewrite IH.
    symmetry. apply Permutation_middle.
Qed.

Lemma pending_alter f local p ths t :
  ths !! local = Some t ->
  Ebr.local_ptrs (f t) ≡ₚ p :: Ebr.local_ptrs t ->
  concat (map Ebr.local_ptrs (alter f local ths)) ≡ₚ p :: concat (map Ebr.local_ptrs ths).
Proof.
  unfold alter. revert local.
  induction ths as [| x ths IH]; intros local Ht Hf; [discriminate |].
  destruct local as [| local]; simpl in *.
  - inversion Ht; subst. now rewrite Hf.
  - rewrite (IH local Ht Hf). symmetry. apply Permutation_middle.
Qed.

Lemma pending_alter_same f local ths :
  (forall t, Ebr.local_ptrs (f t) = Ebr.local_ptrs t) ->
  map Ebr.local_ptrs (alter f local ths) = map Ebr.local_ptrs ths.
Proof.
  intros Hf. unfold alter. revert local.
  induction ths as [| x ths IH]; intros local; [reflexivity |].
  destruct local as [| local]; simpl; [now rewrite Hf | now rewrite IH].
Qed.

Lemma epoch_bin_in_range g : (Z.to_nat (g mod 3) < 3)%nat.
Proof. pose proof (Z.mod_pos_bound g 3 ltac:(lia)). lia. Qed.

(** X11.  [retire] never loses a pointer and never hands one to its
    deleter twice: after the call, the pointers waiting in the bins
    together with those already deleted are those from before the call
    plus the retired one. *)
Theorem retire_conserves_pointers (local : nat) (p : Z) (m : Ebr.EbrManager) :
  Ebr.bins_ok m ->
  (local < length (Ebr.threads_ m))%nat ->
  Ebr.deleted (Ebr.retire local p m) ++ Ebr.pending (Ebr.retire local p m)
  ≡ₚ p :: Ebr.deleted m ++ Ebr.pending m.
Proof.
  intros Hok Hlocal.
  destruct (lookup_lt_is_Some_2 _ _ Hlocal) as [t Ht].
  assert (Hbins : length (Ebr.retire_bins t) = 3%nat).
  { unfold Ebr.bins_ok in Hok. rewrite Forall_forall in Hok.
    apply Hok. eapply list_elem_of_lookup_2. exact Ht. }
  unfold Ebr.retire.
  set (f := fun t0 : Ebr.LocalState =>
              Ebr.set_op_count (wrap_size_t (Ebr.op_count t0 + 1))
                (Ebr.set_retire_bins
                   (alter (fun b => b ++ [Ebr.mkNode p])
                          (Z.to_nat (Ebr.global_epoch_ m mod 3)) (Ebr.retire_bins t0)) t0)).
  assert (Hpush : Ebr.pending (Ebr.set_threads (alter f local (Ebr.threads_ m)) m)
                  ≡ₚ p :: Ebr.pending m).
  { unfold Ebr.pending. simpl. apply pending_alter with (t := t); [exact Ht |].
    unfold f, Ebr.local_ptrs. simpl.
    apply (push_bin_ptrs _ (Ebr.mkNode p)). rewrite Hbins. apply epoch_bin_in_range. }
  simpl. rewrite list_lookup_alter_eq, Ht. simpl.
  destruct (64 <? wrap_size_t (Ebr.op_count t + 1)).
  - unfold Ebr.try_advance. rewrite try_advance_locked_conserves. simpl.
    unfold Ebr.pending in *. simpl in *.
    rewrite pending_alter_same by reflexivity.
    etransitivity; [| symmetry; apply Permutation_middle].
    apply Permutation_app_head. exact Hpush.
  - simpl. etransitivity; [| symmetry; apply Permutation_middle].
    apply Permutation_app_head. exact Hpush.
Qed.

Lemma retire_conserves_pointers_witness :
  let m := Ebr.mkEbr 0 [Ebr.mkLocal false 0 [[Ebr.mkNode 5]; []; [Ebr.mkNode 6]] 64] [] in
  Ebr.bins_ok m
  /\ (0 < length (Ebr.threads_ m))%nat
  /\ Ebr.deleted (Ebr.retire 0 77 m) = [6]
  /\ Ebr.deleted (Ebr.retire 0 77 m) ++ Ebr.pending (Ebr.retire 0 77 m)
     ≡ₚ 77 :: Ebr.deleted m ++ Ebr.pending m.
Proof.
  intros m.
  assert (Hok : Ebr.bins_ok m) by (constructor; [reflexivity | constructor]).
  assert (Hl : (0 < length (Ebr.threads_ m))%nat) by (simpl; lia).
  split; [exact Hok |]. split; [exact Hl |]. split; [reflexivity |].
  exact (retire_conserves_pointers 0 77 m Hok Hl).
Defined.













(** The cuts of [enter] and [retire] run back to back are the calls. *)
Lemma enter_is_its_accesses local m :
  Ebr.enter local m
  = Ebr.enter_store_active local (Ebr.enter_store_epoch (Ebr.global_epoch_ m) local m).
Proof.
  unfold Ebr.enter, Ebr.enter_store_active, Ebr.enter_store_epoch, Ebr.set_threads. simpl.
  f_equal. unfold alter. generalize (Ebr.threads_ m) as ths. revert local.
  induction local as [| local IH]; intros [| t ths]; simpl; try reflexivity.
  now rewrite IH.
Qed.

Lemma retire_is_its_accesses local p m :
  Ebr.retire local p m
  = let '(advance, m1) := Ebr.retire_push (Ebr.global_epoch_ m) local p m in
    if advance then Ebr.try_advance m1 else m1.
Proof.
  unfold Ebr.retire, Ebr.retire_push. cbv zeta.
  match goal with
  | |- context [match ?x with Some _ => _ | None => _ end] => destruct x as [t1 |]
  end; [| reflexivity].
  destruct (64 <? Ebr.op_count t1); reflexivity.
Qed.



(** Without the bound on the global epoch there is no protection.  The
    reader (thread 0) loads epoch 0 in [enter]; before it stores it,
    threads 2 and 3 advance the epoch to 2, and thread 1 has loaded
    epoch 0 in [try_advance] and waits for the lock.  The reader then
    becomes active with epoch 0, pointer 77 is retired under it into bin
    2, and thread 1 finds no lagging thread for its stale epoch: it sets
    the epoch back to 1 and deletes bin 2, pointer 77 included, while
    the reader is active. *)
Example reader_with_stale_epoch_is_not_protected :
  let idle n := Ebr.mkLocal false 0 [[]; []; []] n in
  let c := Ebr.mkConfig (Ebr.mkEbr 0 [idle 0; idle 64; idle 64; idle 64] [])
                        [Ebr.Idle; Ebr.Idle; Ebr.Idle; Ebr.Idle] in
  let entering :=
    [Ebr.CallEnter 0;
     Ebr.CallRetire 1 11; Ebr.Next 1; Ebr.Next 1;
     Ebr.CallRetire 2 12; Ebr.Next 2; Ebr.Next 2; Ebr.Next 2;
     Ebr.CallRetire 3 13; Ebr.Next 3; Ebr.Next 3; Ebr.Next 3;
     Ebr.Next 0; Ebr.Next 0] in
  let inside := [Ebr.CallRetire 2 77; Ebr.Next 2; Ebr.Next 1] in
  exists c1 c2,
    Ebr.run entering c = Some c1
    /\ Ebr.active <$> (Ebr.threads_ (Ebr.manager c1) !! 0%nat) = Some true
    /\ Ebr.pcs c1 = [Ebr.Idle; Ebr.AdvanceLoaded 0; Ebr.Idle; Ebr.Idle]
    /\ Ebr.global_epoch_ (Ebr.manager c1) = 2
    /\ (77 ∉ Ebr.deleted (Ebr.manager c1) ++ Ebr.pending (Ebr.manager c1))
    /\ Ebr.run inside c1 = Some c2
    /\ Ebr.active <$> (Ebr.threads_ (Ebr.manager c2) !! 0%nat) = Some true
    /\ Ebr.global_epoch_ (Ebr.manager c2) = 1
    /\ 77 ∈ Ebr.deleted (Ebr.manager c2).
Proof.
  intros idle c entering inside.
  destruct (Ebr.run entering c) as [c1 |] eqn:H1; [| vm_compute in H1; discriminate].
  destruct (Ebr.run inside c1) as [c2 |] eqn:H2;
    [| vm_compute in H1; inversion H1; subst; vm_compute in H2; discriminate].
  exists c1, c2.
  vm_compute in H1. inversion H1; subst c1. clear H1.
  vm_compute in H2. inversion H2; subst c2. clear H2.
  repeat split; try reflexivity.
  - vm_compute. intros H. repeat (apply elem_of_cons in H; destruct H as [H | H]; [lia |]).
    now apply elem_of_nil in H.
  - vm_compute. repeat ((apply list_elem_of_here) || (apply list_elem_of_further)).
Qed.

(** ** The steal deque as a sequence *)

Lemma slot_mod a i :
  StealQueue.wf_array a -> StealQueue.slot a i = Z.to_nat (i mod StealQueue.cap a).
Proof.
  intros (k & Hk & Hcap & Hmask & _). unfold StealQueue.slot, wrap_size_t.
  rewrite Hmask, Hcap. f_equal.
  replace (2 ^ k - 1) with (Z.ones k) by (rewrite Z.ones_equiv; lia).
  rewrite Z.land_ones by lia.
  apply Z.mod_mod_divide.
  exists (2 ^ (64 - k)). rewrite <- Z.pow_add_r by lia. f_equal. lia.
Qed.

Lemma wf_array_cap_pos a : StealQueue.wf_array a -> 0 < StealQueue.cap a.
Proof. intros (k & Hk & Hcap & _). rewrite Hcap. apply Z.pow_pos_nonneg; lia. Qed.

Lemma slot_in_range a i :
  StealQueue.wf_array a -> (StealQueue.slot a i < length (StealQueue.buffer a))%nat.
Proof.
  intros Hwf. rewrite (slot_mod a i Hwf).
  pose proof (wf_array_cap_pos a Hwf) as Hpos.
  destruct Hwf as (k & _ & _ & _ & Hlen). rewrite Hlen.
  pose proof (Z.mod_pos_bound i (StealQueue.cap a) Hpos). lia.
Qed.

Lemma wf_array_put i p a :
  StealQueue.wf_array a -> StealQueue.wf_array (StealQueue.put i p a).
Proof.
  intros (k & Hk & Hcap & Hmask & Hlen). exists k. unfold StealQueue.put. simpl.
  rewrite length_insert. auto.
Qed.

Lemma get_put_same i p a :
  StealQueue.wf_array a -> StealQueue.get i (StealQueue.put i p a) = p.
Proof.
  intros Hwf. unfold StealQueue.get, StealQueue.put. simpl.
  change (StealQueue.slot (StealQueue.mkArray _ _ _ _) i) with (StealQueue.slot a i).
  rewrite list_lookup_insert_eq by (now apply slot_in_range). reflexivity.
Qed.

Lemma get_put_other i j p a :
  StealQueue.wf_array a ->
  i mod StealQueue.cap a <> j mod StealQueue.cap a ->
  StealQueue.get j (StealQueue.put i p a) = StealQueue.get j a.
Proof.
  intros Hwf Hne. unfold StealQueue.get, StealQueue.put. simpl.
  change (StealQueue.slot (StealQueue.mkArray _ _ _ _) j) with (StealQueue.slot a j).
  rewrite list_lookup_insert_ne; [reflexivity |].
  rewrite !(slot_mod a _ Hwf).
  pose proof (wf_array_cap_pos a Hwf) as Hpos.
  pose proof (Z.mod_pos_bound i (StealQueue.cap a) Hpos).
  pose proof (Z.mod_pos_bound j (StealQueue.cap a) Hpos). lia.
Qed.

Lemma mod_window_inj c i j :
  0 < c -> Z.abs (i - j) < c -> i mod c = j mod c -> i = j.
Proof.
  intros Hc Habs Hmod.
  pose proof (Z.div_mod i c ltac:(lia)) as Hi.
  pose proof (Z.div_mod j c ltac:(lia)) as Hj.
  assert (Hd : i - j = c * (i / c - j / c)) by lia.
  assert (Hq : i / c - j / c = 0) by nia.
  nia.
Qed.

Lemma wf_array_new at_ k :
  0 <= k <= 62 -> StealQueue.wf_array (StealQueue.Array_new at_ (2 ^ k)).
Proof.
  intros Hk. exists k. unfold StealQueue.Array_new. simpl.
  assert (0 < 2 ^ k) by (apply Z.pow_pos_nonneg; lia).
  assert (2 ^ k <= 2 ^ 62) by (apply Z.pow_le_mono_r; lia).
  rewrite wrap_size_t_id by lia. rewrite length_replicate. auto.
Qed.

Lemma foldl_put_shape a l : forall acc,
  StealQueue.wf_array acc ->
  let r := foldl (fun new_arr i => StealQueue.put i (StealQueue.get i a) new_arr) acc l in
  StealQueue.wf_array r /\ StealQueue.cap r = StealQueue.cap acc
  /\ StealQueue.self r = StealQueue.self acc.
Proof.
  induction l as [| y l IH]; intros acc Hwf; simpl; [auto |].
  destruct (IH (StealQueue.put y (StealQueue.get y a) acc) (wf_array_put _ _ _ Hwf))
    as (H1 & H2 & H3).
  auto.
Qed.

Lemma foldl_put_get_notin a x l : forall acc,
  StealQueue.wf_array acc ->
  (forall j, j ∈ l -> j mod StealQueue.cap acc <> x mod StealQueue.cap acc) ->
  StealQueue.get x (foldl (fun new_arr i => StealQueue.put i (StealQueue.get i a) new_arr) acc l)
  = StealQueue.get x acc.
Proof.
  induction l as [| y l IH]; intros acc Hwf Hne; simpl; [reflexivity |].
  rewrite IH.
  - apply get_put_other; [exact Hwf |]. apply Hne. left.
  - now apply wf_array_put.
  - intros j Hj. simpl. apply Hne. now right.
Qed.

Lemma foldl_put_get_in a x l : forall acc,
  StealQueue.wf_array acc ->
  (forall i j, i ∈ l -> j ∈ l ->
     i mod StealQueue.cap acc = j mod StealQueue.cap acc -> i = j) ->
  NoDup l ->
  x ∈ l ->
  StealQueue.get x (foldl (fun new_arr i => StealQueue.put i (StealQueue.get i a) new_arr) acc l)
  = StealQueue.get x a.
Proof.
  induction l as [| y l IH]; intros acc Hwf Hinj Hnd Hx; [now apply elem_of_nil in Hx |].
  apply NoDup_cons in Hnd. destruct Hnd as [Hy Hnd]. simpl.
  apply elem_of_cons in Hx. destruct Hx as [-> | Hx].
  - rewrite foldl_put_get_notin.
    + now apply get_put_same.
    + now apply wf_array_put.
    + intros j Hj Hmod. simpl in Hmod.
      assert (j = y) by (apply Hinj; [now right | left | exact Hmod]).
      subst j. contradiction.
  - apply IH; [now apply wf_array_put | | exact Hnd | exact Hx].
    intros i j Hi Hj. simpl. intros Hmod. apply Hinj; [now right | now right | exact Hmod].
Qed.

(** X13.  [Array::resize(b, t)] on an array of capacity [2^k] gives an
    array of twice the capacity in which every index of [t .. b - 1]
    reads what it read in the old array. *)
Theorem resize_keeps_every_queued_slot (at_ b t : Z) (a : StealQueue.Array) :
  StealQueue.wf_array a ->
  2 * StealQueue.cap a <= 2 ^ 62 ->
  b - t <= 2 * StealQueue.cap a ->
  let r := StealQueue.resize at_ b t a in
  StealQueue.wf_array r
  /\ StealQueue.cap r = 2 * StealQueue.cap a
  /\ StealQueue.self r = at_
  /\ forall i, t <= i < b -> StealQueue.get i r = StealQueue.get i a.
Proof.
  intros Hwf Hcap Hsize r.
  pose proof (wf_array_cap_pos a Hwf) as Hpos.
  assert (Hnew : StealQueue.wf_array
                   (StealQueue.Array_new at_ (wrap_size_t (StealQueue.cap a * 2)))
                 /\ StealQueue.cap (StealQueue.Array_new at_ (wrap_size_t (StealQueue.cap a * 2)))
                    = 2 * StealQueue.cap a).
  { rewrite wrap_size_t_id by lia. split; [| simpl; lia].
    destruct Hwf as (k & Hk & Hc & _).
    replace (StealQueue.cap a * 2) with (2 ^ (k + 1))
      by (rewrite Z.pow_add_r by lia; rewrite Hc; lia).
    apply wf_array_new.
    assert (k + 1 <= 62); [| lia].
    apply (Z.pow_le_mono_r_iff 2); [lia | lia |].
    rewrite Z.pow_add_r by lia. rewrite <- Hc. lia. }
  destruct Hnew as [Hwfn Hcapn].
  destruct (foldl_put_shape a (seqZ t (b - t)) _ Hwfn) as (Hw & Hc & Hs).
  fold (StealQueue.resize at_ b t a) in Hw, Hc, Hs. fold r in Hw, Hc, Hs.
  split; [exact Hw |]. split; [now rewrite Hc |]. split; [exact Hs |].
  intros i Hi. subst r. unfold StealQueue.resize.
  apply foldl_put_get_in; [exact Hwfn | | apply NoDup_seqZ | apply elem_of_seqZ; lia].
  intros x y Hx Hy Hmod. rewrite Hcapn in Hmod.
  apply elem_of_seqZ in Hx. apply elem_of_seqZ in Hy.
  apply (mod_window_inj (2 * StealQueue.cap a)); [lia | lia | exact Hmod].
Qed.

Lemma resize_keeps_every_queued_slot_witness :
  let a := StealQueue.mkArray 8192 [10; 11; 12; 13] 4 3 in
  let r := StealQueue.resize 12288 8 5 a in
  StealQueue.wf_array a
  /\ StealQueue.cap r = 8
  /\ map (fun i => StealQueue.get i r) [5; 6; 7] = [11; 12; 13].
Proof.
  intros a r.
  assert (Hwf : StealQueue.wf_array a).
  { exists 2. simpl. repeat split; lia. }
  assert (Hcap : 2 * StealQueue.cap a <= 2 ^ 62) by (simpl; lia).
  assert (Hsize : 8 - 5 <= 2 * StealQueue.cap a) by (simpl; lia).
  destruct (resize_keeps_every_queued_slot 12288 8 5 a Hwf Hcap Hsize) as (_ & Hc & _ & Hget).
  split; [exact Hwf |]. split; [exact Hc |].
  simpl map. fold r in Hget.
  rewrite (Hget 5), (Hget 6), (Hget 7) by lia. reflexivity.
Defined.

Lemma to_address_ptr t hp : fst (Task.to_address t hp) = Task.handle t.
Proof.
  unfold Task.to_address, nullptr.
  destruct (Z.eqb_spec (Task.handle t) 0) as [-> | _]; reflexivity.
Qed.

Lemma seqZ_snoc m n : 0 <= n -> seqZ m (n + 1) = seqZ m n ++ [m + n].
Proof.
  intros Hn. rewrite seqZ_app by lia. reflexivity.
Qed.

Lemma contents_after_put q b p a' :
  StealQueue.wf_array a' ->
  StealQueue.top q <= b ->
  b - StealQueue.top q < StealQueue.cap a' ->
  (forall i, StealQueue.top q <= i < b -> StealQueue.get i a' = StealQueue.get i (StealQueue.array q)) ->
  StealQueue.bottom q = b ->
  StealQueue.contents
    (StealQueue.set_bottom (b + 1) (StealQueue.set_array (StealQueue.put b p a') q))
  = StealQueue.contents q ++ [p].
Proof.
  intros Hwf Htb Hsize Hsame Hb. unfold StealQueue.contents. simpl.
  replace (b + 1 - StealQueue.top q) with (b - StealQueue.top q + 1) by lia.
  rewrite seqZ_snoc by lia. rewrite map_app. simpl. rewrite Hb.
  replace (StealQueue.top q + (b - StealQueue.top q)) with b by lia.
  rewrite get_put_same by exact Hwf. f_equal.
  apply map_ext_in. intros i Hi. apply list_elem_of_In, elem_of_seqZ in Hi.
  rewrite get_put_other; [apply Hsame; lia | exact Hwf |].
  intros Hmod.
  assert (b = i); [| lia].
  apply (mod_window_inj (StealQueue.cap a')); [lia | lia | exact Hmod].
Qed.

(** X14.  [push] on a deque of the owner appends the task's address to
    the queued sequence and moves only [bottom].  While fewer than
    [cap - 1] tasks are queued the array stays and the reclaimer is not
    called; with [cap - 1] queued the array is replaced by one of twice
    the capacity and the old one is retired through the reclaimer. *)
Theorem push_appends_to_the_deque (at_ : Z) (item : Task.Task)
    (q : StealQueue.StealQueue) (hp : Task.Heap) (m : Ebr.EbrManager) :
  StealQueue.wf_queue q ->
  2 * StealQueue.cap (StealQueue.array q) <= 2 ^ 62 ->
  let '(q', hp', m') := StealQueue.push at_ item (q, hp, m) in
  StealQueue.contents q' = StealQueue.contents q ++ [Task.handle item]
  /\ StealQueue.wf_queue q'
  /\ StealQueue.top q' = StealQueue.top q
  /\ StealQueue.bottom q' = StealQueue.bottom q + 1
  /\ (if StealQueue.cap (StealQueue.array q) - 1 <=? StealQueue.bottom q - StealQueue.top q
      then StealQueue.cap (StealQueue.array q') = 2 * StealQueue.cap (StealQueue.array q)
           /\ StealQueue.self (StealQueue.array q') = at_
           /\ m' = Ebr.retire (StealQueue.local_state q)
                              (StealQueue.self (StealQueue.array q)) m
      else StealQueue.cap (StealQueue.array q') = StealQueue.cap (StealQueue.array q)
           /\ m' = m).
Proof.
  intros (Hwf & Htb & Hsize) Hcap.
  pose proof (wf_array_cap_pos _ Hwf) as Hpos.
  unfold StealQueue.push.
  destruct (Z.leb_spec (StealQueue.cap (StealQueue.array q) - 1)
                       (StealQueue.bottom q - StealQueue.top q)) as [Hfull | Hroom].
  - destruct (resize_keeps_every_queued_slot at_ (StealQueue.bottom q) (StealQueue.top q)
                (StealQueue.array q) Hwf Hcap ltac:(lia)) as (Hw & Hc & Hs & Hget).
    destruct (Task.to_address item hp) as [p hp1] eqn:Hto.
    assert (Hp : p = Task.handle item) by (rewrite <- (to_address_ptr item hp), Hto; reflexivity).
    subst p. cbv zeta. cbn [StealQueue.top StealQueue.bottom StealQueue.array
                              StealQueue.set_array StealQueue.set_bottom].
    split; [| split; [| split; [reflexivity | split; [reflexivity |]]]].
    + apply (contents_after_put q (StealQueue.bottom q) (Task.handle item)
               (StealQueue.resize at_ (StealQueue.bottom q) (StealQueue.top q)
                                  (StealQueue.array q)));
        auto; lia.
    + unfold StealQueue.wf_queue. simpl.
      split; [now apply wf_array_put |]. split; [lia |].
      change (StealQueue.cap (StealQueue.resize at_ (StealQueue.bottom q) (StealQueue.top q)
                                                (StealQueue.array q)))
        with (StealQueue.cap (StealQueue.resize at_ (StealQueue.bottom q) (StealQueue.top q)
                                                (StealQueue.array q))).
      unfold StealQueue.put. simpl. rewrite Hc. lia.
    + unfold StealQueue.put. simpl. auto.
  - destruct (Task.to_address item hp) as [p hp1] eqn:Hto.
    assert (Hp : p = Task.handle item) by (rewrite <- (to_address_ptr item hp), Hto; reflexivity).
    subst p. cbv zeta. cbn [StealQueue.top StealQueue.bottom StealQueue.array
                              StealQueue.set_array StealQueue.set_bottom].
    split; [| split; [| split; [reflexivity | split; [reflexivity |]]]].
    + apply (contents_after_put q (StealQueue.bottom q) (Task.handle item)
               (StealQueue.array q)); auto; lia.
    + unfold StealQueue.wf_queue. simpl.
      split; [now apply wf_array_put |]. split; [lia |].
      unfold StealQueue.put. simpl. lia.
    + unfold StealQueue.put. simpl. auto.
Qed.

Lemma push_appends_to_the_deque_witness :
  let q := StealQueue.mkQueue 5 8 (StealQueue.mkArray 8192 [10; 11; 12; 13] 4 3) 0 in
  let m := snd (Ebr.register_thread Ebr.EbrManager_init) in
  let '(q', hp', m') := StealQueue.push 12288 (Task.mkTask 4096)
                                        (q, {[ 4096 := Task.Promise_init ]}, m) in
  StealQueue.wf_queue q
  /\ StealQueue.contents q = [11; 12; 13]
  /\ StealQueue.contents q' = [11; 12; 13; 4096]
  /\ StealQueue.cap (StealQueue.array q') = 8
  /\ Ebr.pending m' = [8192].
Proof.
  intros q m.
  assert (Hwf : StealQueue.wf_queue q).
  { split; [exists 2; simpl; repeat split; lia | simpl; lia]. }
  assert (Hcap : 2 * StealQueue.cap (StealQueue.array q) <= 2 ^ 62) by (simpl; lia).
  pose proof (push_appends_to_the_deque 12288 (Task.mkTask 4096) q
                {[ 4096 := Task.Promise_init ]} m Hwf Hcap) as H.
  destruct (StealQueue.push 12288 (Task.mkTask 4096) (q, {[ 4096 := Task.Promise_init ]}, m))
    as [[q' hp'] m'] eqn:Hpush.
  destruct H as (Hc & _ & _ & _ & Hgrow).
  simpl in Hgrow. destruct Hgrow as (Hcap' & _ & Hm).
  split; [exact Hwf |]. split; [reflexivity |]. split; [exact Hc |].
  split; [exact Hcap' |]. rewrite Hm. reflexivity.
Defined.

Lemma contents_nil_iff q :
  StealQueue.top q <= StealQueue.bottom q ->
  StealQueue.contents q = [] <-> StealQueue.top q = StealQueue.bottom q.
Proof.
  intros Htb. unfold StealQueue.contents. split.
  - intros Hnil. apply (f_equal length) in Hnil.
    rewrite length_map, length_seqZ in Hnil. simpl in Hnil. lia.
  - intros ->. now rewrite Z.sub_diag.
Qed.

Lemma contents_snoc q :
  StealQueue.top q < StealQueue.bottom q ->
  StealQueue.contents q
  = map (fun i => StealQueue.get i (StealQueue.array q))
        (seqZ (StealQueue.top q) (StealQueue.bottom q - 1 - StealQueue.top q))
    ++ [StealQueue.get (StealQueue.bottom q - 1) (StealQueue.array q)].
Proof.
  intros Hlt. unfold StealQueue.contents.
  replace (StealQueue.bottom q - StealQueue.top q)
    with (StealQueue.bottom q - 1 - StealQueue.top q + 1) by lia.
  rewrite seqZ_snoc by lia. rewrite map_app. simpl. do 3 f_equal. lia.
Qed.

Lemma contents_cons q :
  StealQueue.top q < StealQueue.bottom q ->
  StealQueue.contents q
  = StealQueue.get (StealQueue.top q) (StealQueue.array q)
    :: StealQueue.contents (StealQueue.set_top (StealQueue.top q + 1) q).
Proof.
  intros Hlt. unfold StealQueue.contents. simpl.
  rewrite seqZ_cons by lia. simpl. do 3 f_equal; lia.
Qed.

(** X15.  The owner's [pop], run alone on its deque: it takes the
    newest queued task and leaves the others in place; on an empty
    deque it returns nothing and leaves the deque as it was. *)
Theorem pop_takes_the_newest (hp : Task.Heap) (q : StealQueue.StealQueue) :
  StealQueue.wf_queue q ->
  (StealQueue.contents q = [] -> StealQueue.pop hp q = (None, hp, q))
  /\ (forall l x, StealQueue.contents q = l ++ [x] ->
        exists q',
          StealQueue.pop hp q = (Some (Task.mkTask x), hp, q')
          /\ StealQueue.contents q' = l
          /\ StealQueue.wf_queue q'
          /\ StealQueue.array q' = StealQueue.array q).
Proof.
  intros (Hwf & Htb & Hsize). rewrite pop_alone. split.
  - intros Hnil. apply contents_nil_iff in Hnil; [| exact Htb].
    destruct (Z.ltb_spec (StealQueue.top q) (StealQueue.bottom q - 1)); [lia |].
    destruct (Z.eqb_spec (StealQueue.top q) (StealQueue.bottom q - 1)); [lia |].
    reflexivity.
  - intros l x Hc.
    assert (Hlt : StealQueue.top q < StealQueue.bottom q).
    { destruct (Z.eq_dec (StealQueue.top q) (StealQueue.bottom q)) as [He | Hne]; [| lia].
      apply contents_nil_iff in He; [| exact Htb]. rewrite He in Hc.
      now destruct l. }
    rewrite contents_snoc in Hc by exact Hlt.
    apply app_inj_tail in Hc. destruct Hc as [Hl Hx]. subst x.
    destruct (Z.ltb_spec (StealQueue.top q) (StealQueue.bottom q - 1)) as [Hmany | Hone].
    + eexists. split; [reflexivity |].
      unfold StealQueue.contents, StealQueue.wf_queue. simpl.
      repeat split; [exact Hl | exact Hwf | lia | lia].
    + destruct (Z.eqb_spec (StealQueue.top q) (StealQueue.bottom q - 1)) as [He | Hne]; [| lia].
      eexists. split; [reflexivity |].
      unfold StealQueue.contents, StealQueue.wf_queue. simpl.
      repeat split; [| exact Hwf | lia | pose proof (wf_array_cap_pos _ Hwf); lia].
      rewrite <- Hl.
      replace (StealQueue.bottom q - (StealQueue.top q + 1)) with 0 by lia.
      replace (StealQueue.bottom q - 1 - StealQueue.top q) with 0 by lia.
      reflexivity.
Qed.

Lemma pop_takes_the_newest_witness :
  let q := StealQueue.mkQueue 5 8 (StealQueue.mkArray 8192 [10; 11; 12; 13] 4 3) 0 in
  StealQueue.wf_queue q
  /\ StealQueue.contents q = [11; 12] ++ [13]
  /\ exists q',
       StealQueue.pop ∅ q = (Some (Task.mkTask 13), ∅, q')
       /\ StealQueue.contents q' = [11; 12]
       /\ StealQueue.wf_queue q'
       /\ StealQueue.array q' = StealQueue.array q.
Proof.
  intros q.
  assert (Hwf : StealQueue.wf_queue q).
  { split; [exists 2; simpl; repeat split; lia | simpl; lia]. }
  assert (Hc : StealQueue.contents q = [11; 12] ++ [13]) by reflexivity.
  split; [exact Hwf |]. split; [exact Hc |].
  exact (proj2 (pop_takes_the_newest ∅ q Hwf) [11; 12] 13 Hc).
Defined.

(** X16.  A thief's [steal], run alone: it takes the oldest queued task
    by advancing [top] and leaves the others in place; on an empty
    deque it returns nothing and leaves the deque as it was. *)
Theorem steal_takes_the_oldest (hp : Task.Heap) (q : StealQueue.StealQueue) :
  StealQueue.top q <= StealQueue.bottom q ->
  (StealQueue.contents q = [] -> StealQueue.steal hp q = (None, hp, q))
  /\ (forall x l, StealQueue.contents q = x :: l ->
        StealQueue.steal hp q
        = (Some (Task.mkTask x), hp, StealQueue.set_top (StealQueue.top q + 1) q)
        /\ StealQueue.contents (StealQueue.set_top (StealQueue.top q + 1) q) = l).
Proof.
  intros Htb. unfold StealQueue.steal, StealQueue.steal_load, StealQueue.steal_take. split.
  - intros Hnil. apply contents_nil_iff in Hnil; [| exact Htb].
    destruct (Z.ltb_spec (StealQueue.top q) (StealQueue.bottom q)); [lia | reflexivity].
  - intros x l Hc.
    assert (Hlt : StealQueue.top q < StealQueue.bottom q).
    { destruct (Z.eq_dec (StealQueue.top q) (StealQueue.bottom q)) as [He | Hne]; [| lia].
      apply contents_nil_iff in He; [| exact Htb]. rewrite He in Hc. discriminate. }
    rewrite contents_cons in Hc by exact Hlt. inversion Hc; subst.
    destruct (Z.ltb_spec (StealQueue.top q) (StealQueue.bottom q)); [| lia].
    rewrite cas_top_won by reflexivity. simpl. rewrite from_address_task.
    split; reflexivity.
Qed.

Lemma steal_takes_the_oldest_witness :
  let q := StealQueue.mkQueue 5 8 (StealQueue.mkArray 8192 [10; 11; 12; 13] 4 3) 0 in
  StealQueue.top q <= StealQueue.bottom q
  /\ StealQueue.contents q = 11 :: [12; 13]
  /\ StealQueue.steal ∅ q = (Some (Task.mkTask 11), ∅, StealQueue.set_top 6 q)
  /\ StealQueue.contents (StealQueue.set_top 6 q) = [12; 13].
Proof.
  intros q.
  assert (Htb : StealQueue.top q <= StealQueue.bottom q) by (simpl; lia).
  assert (Hc : StealQueue.contents q = 11 :: [12; 13]) by reflexivity.
  split; [exact Htb |]. split; [exact Hc |].
  exact (proj2 (steal_takes_the_oldest ∅ q Htb) 11 [12; 13] Hc).
Defined.

(** X17.  One task is queued and a thief has loaded [top] and [bottom]
    before the owner's [pop].  If the thief's compare-and-swap runs
    between the owner's load of [top] and the owner's own
    compare-and-swap, the thief gets the task and the owner gets
    nothing; if the owner's [pop] runs first, the owner gets the task
    and the thief gets nothing.  Either way the task is handed out once
    and the deque ends empty with [bottom] where it was. *)
Theorem last_task_goes_to_exactly_one (hp : Task.Heap) (q : StealQueue.StealQueue) :
  StealQueue.bottom q = StealQueue.top q + 1 ->
  let x := Task.mkTask (StealQueue.get (StealQueue.top q) (StealQueue.array q)) in
  let '(t0, b0) := StealQueue.steal_load q in
  let final := StealQueue.set_bottom (StealQueue.bottom q)
                 (StealQueue.set_top (StealQueue.top q + 1) q) in
  (let q1 := snd (StealQueue.pop_reserve q) in
   StealQueue.steal_take t0 b0 hp q1
   = (Some x, hp, StealQueue.set_top (StealQueue.top q + 1) q1)
   /\ StealQueue.pop_with (fun q => q) (fun q1 => snd (StealQueue.steal_take t0 b0 hp q1)) hp q
      = (None, hp, final))
  /\ (StealQueue.pop hp q = (Some x, hp, final)
      /\ StealQueue.steal_take t0 b0 hp final = (None, hp, final)).
Proof.
  intros Hone x. destruct q as [t b a ls]. simpl in *. subst b.
  unfold StealQueue.pop, StealQueue.pop_with, StealQueue.pop_reserve,
    StealQueue.pop_load_top, StealQueue.pop_take, StealQueue.steal_take,
    StealQueue.cas_top, StealQueue.set_bottom, StealQueue.set_top. simpl.
  replace (t + 1 - 1) with t by lia.
  assert (E1 : (t <? t + 1) = true) by (apply Z.ltb_lt; lia).
  assert (E2 : (t + 1 =? t) = false) by (apply Z.eqb_neq; lia).
  subst x.
  repeat (rewrite ?E1, ?E2, ?Z.eqb_refl, ?Z.leb_refl, ?from_address_task; simpl).
  repeat split; reflexivity.
Qed.

Lemma last_task_goes_to_exactly_one_witness :
  let q := StealQueue.mkQueue 5 6 (StealQueue.mkArray 8192 [10; 11; 12; 13] 4 3) 0 in
  StealQueue.bottom q = StealQueue.top q + 1
  /\ StealQueue.pop ∅ q = (Some (Task.mkTask 11), ∅, StealQueue.mkQueue 6 6 (StealQueue.array q) 0)
  /\ StealQueue.steal_take 5 6 ∅ (StealQueue.mkQueue 6 6 (StealQueue.array q) 0)
     = (None, ∅, StealQueue.mkQueue 6 6 (StealQueue.array q) 0).
Proof.
  intros q.
  assert (Hone : StealQueue.bottom q = StealQueue.top q + 1) by reflexivity.
  split; [exact Hone |].
  exact (proj2 (last_task_goes_to_exactly_one ∅ q Hone)).
Defined.

(** ** Channels: order of delivery *)

Section ChannelOrder.

Context {T : Type}.

Implicit Types (s : Channel.State T) (buf vs : list T).

Lemma co_send_all_buffered k sd rc w xs vs : forall buf,
  Forall2 (fun x v => sd !! fst x = Some (Channel.mkSendAwaiter v true)) xs vs ->
  Z.of_nat (length buf + length vs) <= k ->
  Channel.co_send_all xs
    (Channel.mkState (Channel.mkChannel k false buf [] []) sd rc w)
  = Some (replicate (length xs) (Channel.Returned true),
          Channel.mkState (Channel.mkChannel k false (buf ++ vs) [] []) sd rc w).
Proof.
  intros buf Hxs. revert buf.
  induction Hxs as [| [this h] v xs vs Hx Hrest IH]; intros buf Hlen.
  - simpl. now rewrite app_nil_r.
  - simpl in Hx, Hlen. simpl Channel.co_send_all.
    unfold Channel.co_send, Channel.send_await_suspend. simpl. rewrite Hx. simpl.
    destruct (Z.ltb_spec (Z.of_nat (length buf)) k); [| lia].
    unfold Channel.send_await_resume. simpl. rewrite Hx. simpl.
    rewrite IH by (rewrite length_app; simpl; lia).
    now rewrite <- app_assoc.
Qed.

Lemma co_recv_all_buffered k cl sd w ys : forall buf rc,
  (length ys <= length buf)%nat ->
  exists rc',
    Channel.co_recv_all ys
      (Channel.mkState (Channel.mkChannel k cl buf [] []) sd rc w)
    = Some (map (fun v => Channel.Returned (Some v)) (take (length ys) buf),
            Channel.mkState (Channel.mkChannel k cl (drop (length ys) buf) [] []) sd rc' w).
Proof.
  induction ys as [| [this h] ys IH]; intros buf rc Hlen.
  - exists rc. simpl. now rewrite drop_0.
  - destruct buf as [| b buf]; [simpl in Hlen; lia |].
    simpl Channel.co_recv_all.
    unfold Channel.co_recv, Channel.recv_await_suspend, Channel.recv_await_resume. simpl.
    rewrite lookup_insert_eq. simpl.
    destruct (IH buf (<[this := Channel.mkRecvAwaiter (Some b)]> rc)
                ltac:(simpl in Hlen; lia)) as (rc' & Hrec).
    rewrite Hrec. exists rc'. reflexivity.
Qed.

(** X18.  Values sent into an open channel that has room for them are
    buffered without suspending any sender, each send returning [true];
    receivers then get the buffered values in the order in which they
    were sent, without suspending. *)
Theorem buffered_channel_is_fifo
    (k : Z) (sd : gmap Z (Channel.SendAwaiter T)) (rc : gmap Z (Channel.RecvAwaiter T))
    (w : Runtime.World) (buf vs : list T) (xs ys : list (Z * Z)) :
  Forall2 (fun x v => sd !! fst x = Some (Channel.mkSendAwaiter v true)) xs vs ->
  Z.of_nat (length buf + length vs) <= k ->
  (length ys <= length (buf ++ vs))%nat ->
  exists s1 rc',
    Channel.co_send_all xs
      (Channel.mkState (Channel.mkChannel k false buf [] []) sd rc w)
    = Some (replicate (length xs) (Channel.Returned true), s1)
    /\ Channel.buffer_ (Channel.chan s1) = buf ++ vs
    /\ Channel.co_recv_all ys s1
       = Some (map (fun v => Channel.Returned (Some v)) (take (length ys) (buf ++ vs)),
               Channel.mkState
                 (Channel.mkChannel k false (drop (length ys) (buf ++ vs)) [] [])
                 sd rc' w).
Proof.
  intros Hxs Hlen Hys.
  destruct (co_recv_all_buffered k false sd w ys (buf ++ vs) rc Hys) as (rc' & Hrecv).
  exists (Channel.mkState (Channel.mkChannel k false (buf ++ vs) [] []) sd rc w), rc'.
  split; [apply co_send_all_buffered; assumption |].
  split; [reflexivity | exact Hrecv].
Qed.

Lemma co_recv_all_closed k sd w ys : forall buf rc,
  exists rc',
    Channel.co_recv_all ys
      (Channel.mkState (Channel.mkChannel k true buf [] []) sd rc w)
    = Some (map (fun v => Channel.Returned (Some v)) (take (length ys) buf)
            ++ replicate (length ys - length buf) (Channel.Returned None),
            Channel.mkState (Channel.mkChannel k true (drop (length ys) buf) [] []) sd rc' w).
Proof.
  induction ys as [| [this h] ys IH]; intros buf rc.
  - exists rc. simpl. now rewrite drop_0.
  - destruct buf as [| b buf].
    + simpl Channel.co_recv_all.
      unfold Channel.co_recv, Channel.recv_await_suspend, Channel.recv_await_resume. simpl.
      rewrite lookup_insert_eq. simpl.
      destruct (IH [] (<[this := Channel.mkRecvAwaiter None]> rc)) as (rc' & Hrec).
      rewrite Hrec. exists rc'. simpl.
      rewrite take_nil, drop_nil, Nat.sub_0_r. reflexivity.
    + simpl Channel.co_recv_all.
      unfold Channel.co_recv, Channel.recv_await_suspend, Channel.recv_await_resume. simpl.
      rewrite lookup_insert_eq. simpl.
      destruct (IH buf (<[this := Channel.mkRecvAwaiter (Some b)]> rc)) as (rc' & Hrec).
      rewrite Hrec. exists rc'. reflexivity.
Qed.

(** X19.  On a closed channel no receiver suspends: receivers first get
    the values still buffered, in order, and every receiver after that
    gets none. *)
Theorem closed_channel_drains_then_returns_none
    (k : Z) (sd : gmap Z (Channel.SendAwaiter T)) (rc : gmap Z (Channel.RecvAwaiter T))
    (w : Runtime.World) (buf : list T) (ys : list (Z * Z)) :
  exists rc',
    Channel.co_recv_all ys
      (Channel.mkState (Channel.mkChannel k true buf [] []) sd rc w)
    = Some (map (fun v => Channel.Returned (Some v)) (take (length ys) buf)
            ++ replicate (length ys - length buf) (Channel.Returned None),
            Channel.mkState (Channel.mkChannel k true (drop (length ys) buf) [] []) sd rc' w).
Proof. apply co_recv_all_closed. Qed.



End ChannelOrder.

Lemma buffered_channel_is_fifo_witness :
  let w := Runtime.mkWorld ∅ (Runtime.mkScheduler [] [] false)
                           (Runtime.mkReactor (Epoll.Poller_new 3 4) true []) 0 in
  let sd : gmap Z (Channel.SendAwaiter Z) :=
    {[ 100 := Channel.SendAwaiter_new 7; 200 := Channel.SendAwaiter_new 8 ]} in
  exists s1 rc',
    Channel.co_send_all [(100, 4096); (200, 8192)]
      (Channel.mkState (Channel.mkChannel 3 false [6] [] []) sd ∅ w)
    = Some ([Channel.Returned true; Channel.Returned true], s1)
    /\ Channel.buffer_ (Channel.chan s1) = [6; 7; 8]
    /\ Channel.co_recv_all [(300, 12288); (400, 16384)] s1
       = Some ([Channel.Returned (Some 6); Channel.Returned (Some 7)],
               Channel.mkState (Channel.mkChannel 3 false [8] [] []) sd rc' w).
Proof.
  intros w sd.
  assert (Hxs : Forall2 (fun x v => sd !! fst x = Some (Channel.mkSendAwaiter v true))
                        [(100, 4096); (200, 8192)] [7; 8]).
  { repeat constructor. }
  assert (Hlen : Z.of_nat (length [6] + length [7; 8]) <= 3) by (simpl; lia).
  pose (ys := [(300, 12288); (400, 16384)]).
  pose (sent := [6] ++ [7; 8]).
  assert (Hys : (length ys <= length sent)%nat) by (simpl; lia).
  exact (buffered_channel_is_fifo 3 sd ∅ w [6] [7; 8]
           [(100, 4096); (200, 8192)] ys Hxs Hlen Hys).
Defined.



Section ChannelClose.

Context {T : Type}.






End ChannelClose.


(** ** AsyncMutex: mutual exclusion *)

Lemma exclusive_step o c c' :
  AsyncMutex.exclusive c ->
  AsyncMutex.step o c = Some c' ->
  AsyncMutex.exclusive c'.
Proof.
  destruct c as [[l ws] w hs bt]. intros (Hlen & Hlock & Hinv) Hstep.
  unfold AsyncMutex.mutex_inv in Hinv. simpl in *.
  assert (Hfree : l = false -> hs = []).
  { intros ->. destruct hs; [reflexivity |].
    assert (false = true) by (apply Hlock; discriminate). discriminate. }
  destruct o as [h | h |]; simpl in Hstep.
  - unfold AsyncMutex.await_ready in Hstep. simpl in Hstep.
    destruct l; simpl in Hstep; inversion Hstep; subst; clear Hstep;
      unfold AsyncMutex.exclusive, AsyncMutex.mutex_inv; simpl.
    + repeat split; auto; try apply Hlock; auto.
    + rewrite (Hfree eq_refl). simpl. repeat split; auto; discriminate.
  - destruct (AsyncMutex.take_out h bt) as [others |]; [| discriminate].
    unfold AsyncMutex.await_suspend in Hstep. simpl in Hstep.
    destruct l; simpl in Hstep; inversion Hstep; subst; clear Hstep;
      unfold AsyncMutex.exclusive, AsyncMutex.mutex_inv; simpl.
    + repeat split; auto; try apply Hlock; auto.
    + rewrite (Hfree eq_refl). simpl. repeat split; auto; discriminate.
  - destruct hs as [| holder others]; [discriminate |].
    assert (Hl : l = true) by (apply Hlock; discriminate). subst l.
    assert (Ho : others = []) by (destruct others; [reflexivity | simpl in Hlen; lia]).
    subst others.
    destruct ws as [| next rest]; simpl in Hstep; inversion Hstep; subst; clear Hstep;
      unfold AsyncMutex.exclusive, AsyncMutex.mutex_inv; simpl.
    + repeat split; auto; try discriminate; try (intros Hne; now contradiction Hne).
    + repeat split; auto; try discriminate.
Qed.

Lemma exclusive_run ops : forall c c',
  AsyncMutex.exclusive c ->
  AsyncMutex.run ops c = Some c' ->
  AsyncMutex.exclusive c'.
Proof.
  induction ops as [| o ops IH]; intros c c' Hex Hrun; simpl in Hrun.
  - inversion Hrun; subst. exact Hex.
  - destruct (AsyncMutex.step o c) as [c1 |] eqn:Hstep; [| discriminate].
    eapply IH; [| exact Hrun]. eapply exclusive_step; eassumption.
Qed.

(** X23.  Mutual exclusion.  Starting from a new mutex, after any
    interleaving of [await_ready] calls, of the [await_suspend] calls
    of coroutines whose [await_ready] returned false (with whatever
    other calls in between), and of [unlock()] calls, each made while
    some coroutine owns a guard: at most one coroutine owns a guard,
    [locked_] is true exactly when one does, and coroutines wait only
    while the mutex is held. *)
Theorem mutex_has_at_most_one_holder (ops : list AsyncMutex.Op) (w : Runtime.World)
    (c : AsyncMutex.Config) :
  AsyncMutex.run ops (AsyncMutex.Config_new w) = Some c ->
  (length (AsyncMutex.holders c) <= 1)%nat
  /\ (AsyncMutex.locked_ (AsyncMutex.mutex c) = true <-> AsyncMutex.holders c <> [])
  /\ (AsyncMutex.waiters_ (AsyncMutex.mutex c) <> [] -> AsyncMutex.holders c <> []).
Proof.
  intros Hrun.
  assert (Hinit : AsyncMutex.exclusive (AsyncMutex.Config_new w)).
  { unfold AsyncMutex.exclusive, AsyncMutex.mutex_inv. simpl.
    repeat split; auto; try discriminate; intros H; now contradiction H. }
  pose proof (exclusive_run ops _ _ Hinit Hrun) as (Hlen & Hlock & Hinv).
  split; [exact Hlen |]. split; [exact Hlock |].
  intros Hw. apply Hlock. now apply Hinv.
Qed.

Lemma mutex_has_at_most_one_holder_witness :
  let w := Runtime.mkWorld ∅ (Runtime.mkScheduler [] [] false)
                           (Runtime.mkReactor (Epoll.Poller_new 3 4) true []) 0 in
  let ops := [AsyncMutex.OpReady 4096; AsyncMutex.OpReady 8192; AsyncMutex.OpReady 12288;
              AsyncMutex.OpSuspend 12288; AsyncMutex.OpUnlock; AsyncMutex.OpUnlock;
              AsyncMutex.OpSuspend 8192] in
  AsyncMutex.run ops (AsyncMutex.Config_new w)
  = Some (AsyncMutex.mkConfig (AsyncMutex.mkMutex true [])
                              (Runtime.spawn_from_address 12288 w) [8192] [])
  /\ (length [8192%Z] <= 1)%nat.
Proof.
  intros w ops.
  assert (Hrun : AsyncMutex.run ops (AsyncMutex.Config_new w)
                 = Some (AsyncMutex.mkConfig (AsyncMutex.mkMutex true [])
                                             (Runtime.spawn_from_address 12288 w) [8192] []))
    by reflexivity.
  split; [exact Hrun |].
  exact (proj1 (mutex_has_at_most_one_holder ops w _ Hrun)).
Defined.

(** ** The socket awaiters *)

(** X24.  The read and write awaiters.  When the eager call succeeds or
    fails with an error other than [EAGAIN]/[EWOULDBLOCK], [await_ready]
    is true and [await_resume] (with [errno] as that call left it)
    returns that call's value without calling again.  When it fails with
    [EAGAIN]/[EWOULDBLOCK], [await_ready] is false; [await_resume] then
    repeats the call and returns its value if [errno] of the resuming
    thread still holds such a code, and otherwise returns [-1] without
    calling. *)
Theorem io_awaiter_returns_the_call_result (EAGAIN EWOULDBLOCK : Z)
    (r : Socket.SysResult) (errno0 : Z) :
  (forall n, r = Socket.SysOk n -> 0 <= n) ->
  let '(ready, result_, e1) := Socket.await_ready EAGAIN EWOULDBLOCK r errno0 in
  (ready = true ->
     forall retry,
       Socket.await_resume EAGAIN EWOULDBLOCK result_ e1 retry
       = (Socket.sys_return r, false, e1))
  /\ (ready = false ->
        result_ = -1
        /\ Socket.would_block EAGAIN EWOULDBLOCK e1 = true
        /\ forall e2 retry,
             Socket.await_resume EAGAIN EWOULDBLOCK result_ e2 retry
             = if Socket.would_block EAGAIN EWOULDBLOCK e2
               then (Socket.sys_return retry, true, Socket.sys_errno retry e2)
               else (-1, false, e2)).
Proof.
  intros Hok. unfold Socket.await_ready, Socket.await_resume.
  destruct r as [n | e]; simpl.
  - specialize (Hok n eq_refl).
    destruct (Z.leb_spec 0 n); [| lia].
    split; [| discriminate]. intros _ retry.
    destruct (Z.ltb_spec n 0); [lia | reflexivity].
  - destruct (Socket.would_block EAGAIN EWOULDBLOCK e) eqn:Hwb.
    + split; [discriminate |]. intros _. repeat split. exact Hwb.
    + split; [| discriminate]. intros _ retry. simpl. now rewrite Hwb.
Qed.

Lemma io_awaiter_returns_the_call_result_witness :
  (forall n, Socket.SysErr 11 = Socket.SysOk n -> 0 <= n)
  /\ Socket.await_ready 11 11 (Socket.SysErr 11) 0 = (false, -1, 11)
  /\ Socket.await_resume 11 11 (-1) 11 (Socket.SysOk 42) = (42, true, 11)
  /\ Socket.await_resume 11 11 (-1) 2 (Socket.SysOk 42) = (-1, false, 2).
Proof.
  assert (Hok : forall n, Socket.SysErr 11 = Socket.SysOk n -> 0 <= n) by discriminate.
  pose proof (io_awaiter_returns_the_call_result 11 11 (Socket.SysErr 11) 0 Hok) as H.
  simpl in H. destruct H as (_ & H). destruct (H eq_refl) as (_ & _ & Hres).
  split; [exact Hok |]. split; [reflexivity |].
  split; [exact (Hres 11 (Socket.SysOk 42)) | exact (Hres 2 (Socket.SysOk 42))].
Defined.

(** ** An I/O registration through a turn of the reactor loop *)

Lemma handle_timers_none now w :
  Forall (fun u => now < Runtime.expiry u) (Runtime.timers_ (Runtime.reactor w)) ->
  Runtime.handle_timers now w = w.
Proof.
  intros Hall. unfold Runtime.handle_timers.
  destruct (fire_expired_none now _ w Hall) as (Hf & _). rewrite Hf.
  destruct w as [hp s [p run ts] nx]. reflexivity.
Qed.

(** X25.  A coroutine suspended by the read, write or accept awaiter on
    descriptor [fd] (not the eventfd) holds one more reference; the turn
    of the reactor loop in which [fd] is ready puts its handle at the
    end of the global queue, changes no reference count and leaves the
    timers that are not due; when the worker that then runs the task
    lets go of its handle, the count is what it was before the
    suspension. *)
Theorem io_suspension_is_resumed_by_the_reactor (fd h n now : Z) (w : Runtime.World) :
  fd <> Epoll.wake_fd_ (Runtime.poller_ (Runtime.reactor w)) ->
  0 < h < 2 ^ 64 ->
  Task.count_of h (Runtime.heap w) = Some n ->
  - 2 ^ 31 <= n < 2 ^ 31 - 1 ->
  Forall (fun u => now < Runtime.expiry u) (Runtime.timers_ (Runtime.reactor w)) ->
  forall suspend,
    suspend = Runtime.AsyncRead_await_suspend
    \/ suspend = Runtime.AsyncWrite_await_suspend
    \/ suspend = Runtime.AsyncAccept_await_suspend ->
    let w1 := suspend fd h w in
    let w2 := Runtime.loop_turn [fd] now w1 in
    Task.count_of h (Runtime.heap w1) = Some (n + 1)
    /\ Runtime.heap w2 = Runtime.heap w1
    /\ Runtime.global_queue_ (Runtime.sched w2)
       = Runtime.global_queue_ (Runtime.sched w) ++ [Task.mkTask h]
    /\ Runtime.timers_ (Runtime.reactor w2) = Runtime.timers_ (Runtime.reactor w)
    /\ Task.count_of h (Runtime.heap (Runtime.release (Task.mkTask h) w2)) = Some n.
Proof.
  intros Hfd Hh Hn Hrange Htimers suspend Hs w1 w2.
  assert (Hnn : h <> nullptr) by (unfold nullptr; lia).
  set (hp1 := Task.fetch_add_ref h (Runtime.heap w)).
  assert (Hshape : exists evmask,
             Z.testbit evmask 30 = true
             /\ w1 = Runtime.set_reactor
                       (Runtime.set_poller
                          (Epoll.add_interest evmask fd h (Runtime.poller_ (Runtime.reactor w)))
                          (Runtime.reactor w))
                       (Runtime.set_heap hp1 w)).
  { destruct Hs as [-> | [-> | ->]];
      [exists (Z.lor (Z.lor Epoll.EPOLLIN Epoll.EPOLLONESHOT) Epoll.EPOLLRDHUP)
      | exists (Z.lor (Z.lor Epoll.EPOLLOUT Epoll.EPOLLONESHOT) Epoll.EPOLLRDHUP)
      | exists (Z.lor (Z.lor Epoll.EPOLLIN Epoll.EPOLLONESHOT) Epoll.EPOLLRDHUP)];
      split; reflexivity. }
  destruct Hshape as (evmask & Hbit & Hw1).
  destruct (add_interest_lookup evmask fd h (Runtime.poller_ (Runtime.reactor w))
              ltac:(lia)) as [Hint Hwfd].
  assert (H1 : Task.count_of h (Runtime.heap w1) = Some (n + 1)).
  { rewrite Hw1. simpl. unfold hp1. rewrite (count_of_fetch_add h _ n Hn).
    now rewrite wrap_int_id by lia. }
  assert (Hturn : w2 = Runtime.set_reactor
                         (Runtime.set_poller
                            (Epoll.set_interest
                               (<[fd := Epoll.mkInterest (Epoll.mkEvent evmask h) false]>
                                  (Epoll.interest (Runtime.poller_ (Runtime.reactor w1))))
                               (Runtime.poller_ (Runtime.reactor w1)))
                            (Runtime.reactor (Runtime.io_handler h w1)))
                         (Runtime.io_handler h w1)).
  { subst w2. unfold Runtime.loop_turn.
    rewrite (wait_one_shot_armed Runtime.io_handler fd evmask h
               (Runtime.poller_ (Runtime.reactor w1)) w1);
      [| rewrite Hw1; exact Hint | exact Hbit | rewrite Hw1; simpl; now rewrite Hwfd
       | exact Hnn].
    apply handle_timers_none. simpl.
    unfold Runtime.io_handler. rewrite (eqb_nullptr_false h Hnn).
    rewrite spawn_from_address_reactor. rewrite Hw1. simpl. exact Htimers. }
  assert (Hio_heap : Runtime.heap (Runtime.io_handler h w1) = Runtime.heap w1)
    by apply io_handler_heap.
  assert (Hio_q : Runtime.global_queue_ (Runtime.sched (Runtime.io_handler h w1))
                  = Runtime.global_queue_ (Runtime.sched w) ++ [Task.mkTask h]).
  { unfold Runtime.io_handler. rewrite (eqb_nullptr_false h Hnn).
    rewrite spawn_from_address_global_queue by exact Hnn. rewrite Hw1. reflexivity. }
  split; [exact H1 |].
  rewrite Hturn. simpl.
  split; [exact Hio_heap |]. split; [exact Hio_q |]. split.
  - unfold Runtime.io_handler. rewrite (eqb_nullptr_false h Hnn).
    rewrite spawn_from_address_reactor. rewrite Hw1. reflexivity.
  - rewrite Hio_heap.
    change h with (Task.handle (Task.mkTask h)) at 1.
    rewrite (count_of_drop (Task.mkTask h) _ (n + 1)); [| exact Hnn | exact H1].
    rewrite wrap_int_id by lia. f_equal. lia.
Qed.

Lemma io_suspension_is_resumed_by_the_reactor_witness :
  let w := Runtime.mkWorld {[ 4096 := Task.Promise_init ]}
             (Runtime.mkScheduler [] [] false)
             (Runtime.mkReactor (Epoll.Poller_new 3 4) true [Runtime.mkTimer 90 8192]) 0 in
  let w2 := Runtime.loop_turn [7] 50 (Runtime.AsyncWrite_await_suspend 7 4096 w) in
  Runtime.global_queue_ (Runtime.sched w2) = [Task.mkTask 4096]
  /\ Task.count_of 4096 (Runtime.heap w2) = Some 2
  /\ Task.count_of 4096 (Runtime.heap (Runtime.release (Task.mkTask 4096) w2)) = Some 1.
Proof.
  intros w.
  assert (Hfd : 7 <> Epoll.wake_fd_ (Runtime.poller_ (Runtime.reactor w)))
    by (vm_compute; congruence).
  assert (Hh : 0 < 4096 < 2 ^ 64) by lia.
  assert (Hn : Task.count_of 4096 (Runtime.heap w) = Some 1) by reflexivity.
  assert (Hr : - 2 ^ 31 <= 1 < 2 ^ 31 - 1) by lia.
  assert (Ht : Forall (fun u => 50 < Runtime.expiry u) (Runtime.timers_ (Runtime.reactor w))).
  { simpl. constructor; [simpl; lia | constructor]. }
  destruct (io_suspension_is_resumed_by_the_reactor 7 4096 1 50 w Hfd Hh Hn Hr Ht
              Runtime.AsyncWrite_await_suspend (or_intror (or_introl eq_refl)))
    as (H1 & H2 & H3 & _ & H5).
  intros w2. split; [exact H3 |]. split; [| exact H5].
  fold w2 in H2. rewrite H2. exact H1.
Defined.

(** ** Scheduler::steal *)

Lemma steal_on_empty hp q :
  StealQueue.bottom q <= StealQueue.top q -> StealQueue.steal hp q = (None, hp, q).
Proof.
  intros He. unfold StealQueue.steal, StealQueue.steal_load, StealQueue.steal_take.
  destruct (Z.ltb_spec (StealQueue.top q) (StealQueue.bottom q)); [lia | reflexivity].
Qed.

Lemma steal_on_nonempty hp q :
  StealQueue.top q < StealQueue.bottom q ->
  StealQueue.steal hp q
  = (Some (Task.mkTask (StealQueue.get (StealQueue.top q) (StealQueue.array q))), hp,
     StealQueue.set_top (StealQueue.top q + 1) q).
Proof.
  intros Hlt. unfold StealQueue.steal, StealQueue.steal_load, StealQueue.steal_take.
  destruct (Z.ltb_spec (StealQueue.top q) (StealQueue.bottom q)); [| lia].
  rewrite cas_top_won by reflexivity. simpl. now rewrite from_address_task.
Qed.

Lemma Worker_steal_empty idx w wk :
  Runtime.workers_ (Runtime.sched w) !! idx = Some wk ->
  StealQueue.bottom (Runtime.local_queue_ wk) <= StealQueue.top (Runtime.local_queue_ wk) ->
  Runtime.Worker_steal idx w = Some (None, w).
Proof.
  intros Hwk He. unfold Runtime.Worker_steal. rewrite Hwk.
  rewrite steal_on_empty by exact He.
  destruct w as [hp [gq ws st] r nx]. simpl in *.
  destruct wk as [i e q p]. simpl. rewrite list_insert_id by exact Hwk. reflexivity.
Qed.

Lemma Worker_steal_nonempty idx w wk :
  Runtime.workers_ (Runtime.sched w) !! idx = Some wk ->
  StealQueue.top (Runtime.local_queue_ wk) < StealQueue.bottom (Runtime.local_queue_ wk) ->
  exists w',
    Runtime.Worker_steal idx w
    = Some (Some (Task.mkTask (StealQueue.get (StealQueue.top (Runtime.local_queue_ wk))
                                              (StealQueue.array (Runtime.local_queue_ wk)))),
            w').
Proof.
  intros Hwk Hlt. unfold Runtime.Worker_steal. rewrite Hwk.
  rewrite steal_on_nonempty by exact Hlt. eexists. reflexivity.
Qed.

Lemma steal_scan_all_empty idxs w :
  Forall (fun idx => (idx < length (Runtime.workers_ (Runtime.sched w)))%nat) idxs ->
  Forall (fun wk => StealQueue.bottom (Runtime.local_queue_ wk)
                    <= StealQueue.top (Runtime.local_queue_ wk))
         (Runtime.workers_ (Runtime.sched w)) ->
  Runtime.steal_scan idxs w = (None, w).
Proof.
  intros Hidx Hempty. induction Hidx as [| idx idxs Hlt Hrest IH]; [reflexivity |].
  destruct (lookup_lt_is_Some_2 _ _ Hlt) as [wk Hwk]. simpl.
  rewrite (Worker_steal_empty idx w wk Hwk); [exact IH |].
  rewrite Forall_forall in Hempty. apply Hempty.
  eapply list_elem_of_lookup_2. exact Hwk.
Qed.

Lemma steal_scan_finds idxs w k wk :
  Forall (fun idx => (idx < length (Runtime.workers_ (Runtime.sched w)))%nat) idxs ->
  k ∈ idxs ->
  Runtime.workers_ (Runtime.sched w) !! k = Some wk ->
  StealQueue.top (Runtime.local_queue_ wk) < StealQueue.bottom (Runtime.local_queue_ wk) ->
  exists t w', Runtime.steal_scan idxs w = (Some t, w').
Proof.
  intros Hidx Hk Hwk Hlt. induction Hidx as [| idx idxs Hi Hrest IH].
  - now apply elem_of_nil in Hk.
  - destruct (lookup_lt_is_Some_2 _ _ Hi) as [wi Hwi]. simpl.
    destruct (Z.lt_ge_cases (StealQueue.top (Runtime.local_queue_ wi))
                            (StealQueue.bottom (Runtime.local_queue_ wi))) as [Hne | He].
    + destruct (Worker_steal_nonempty idx w wi Hwi Hne) as (w' & Hs). rewrite Hs. eauto.
    + rewrite (Worker_steal_empty idx w wi Hwi He).
      apply IH. apply elem_of_cons in Hk. destruct Hk as [-> | Hk]; [| exact Hk].
      rewrite Hwi in Hwk. inversion Hwk; subst. lia.
Qed.

Lemma victims_in_range start (m : nat) :
  (0 < m)%nat ->
  Forall (fun idx => (idx < m)%nat)
         (map (fun i => Z.to_nat ((start + i) mod Z.of_nat m)) (seqZ 0 (Z.of_nat m))).
Proof.
  intros Hm. apply Forall_forall. intros idx Hin.
  apply list_elem_of_fmap in Hin. destruct Hin as (i & -> & _).
  pose proof (Z.mod_pos_bound (start + i) (Z.of_nat m) ltac:(lia)). lia.
Qed.

Lemma victims_cover start n (k : nat) :
  0 < n -> Z.of_nat k < n ->
  k ∈ map (fun i => Z.to_nat ((start + i) mod n)) (seqZ 0 n).
Proof.
  intros Hn Hk. apply list_elem_of_fmap.
  exists ((Z.of_nat k - start) mod n).
  pose proof (Z.mod_pos_bound (Z.of_nat k - start) n Hn) as Hb. split.
  - rewrite Zplus_mod_idemp_r.
    replace (start + (Z.of_nat k - start)) with (Z.of_nat k) by lia.
    rewrite Z.mod_small by lia. now rewrite Nat2Z.id.
  - apply elem_of_seqZ. lia.
Qed.

(** X26.  [Scheduler::steal], run alone.  With at most one worker it
    returns nothing.  With two or more, whatever starting victim the
    random generator draws: if every worker's deque is empty it returns
    nothing and changes nothing; if some worker's deque holds a task it
    returns a task. *)
Theorem scheduler_steal_finds_queued_work (start : Z) (w : Runtime.World) :
  let ws := Runtime.workers_ (Runtime.sched w) in
  ((length ws <= 1)%nat -> Runtime.Scheduler_steal start w = (None, w))
  /\ (Forall (fun wk => StealQueue.bottom (Runtime.local_queue_ wk)
                        <= StealQueue.top (Runtime.local_queue_ wk)) ws ->
      Runtime.Scheduler_steal start w = (None, w))
  /\ ((2 <= length ws)%nat ->
      Exists (fun wk => StealQueue.top (Runtime.local_queue_ wk)
                        < StealQueue.bottom (Runtime.local_queue_ wk)) ws ->
      exists t w', Runtime.Scheduler_steal start w = (Some t, w')).
Proof.
  intros ws. unfold Runtime.Scheduler_steal. fold ws. split; [| split].
  - intros Hn. destruct (Z.leb_spec (Z.of_nat (length ws)) 1); [reflexivity | lia].
  - intros Hempty. destruct (Z.leb_spec (Z.of_nat (length ws)) 1) as [| Hn]; [reflexivity |].
    apply steal_scan_all_empty; [| exact Hempty].
    apply victims_in_range. lia.
  - intros Hn Hex. destruct (Z.leb_spec (Z.of_nat (length ws)) 1); [lia |].
    apply Exists_exists in Hex. destruct Hex as (wk & Hin & Hlt).
    apply list_elem_of_lookup_1 in Hin. destruct Hin as [k Hk].
    apply (steal_scan_finds _ w k wk); [| | exact Hk | exact Hlt].
    + apply victims_in_range. lia.
    + apply victims_cover; [lia |]. apply lookup_lt_Some in Hk. lia.
Qed.

Lemma scheduler_steal_finds_queued_work_witness :
  let idle i := Runtime.mkWorker i 0 (StealQueue.mkQueue 0 0 (StealQueue.Array_new 8192 4) 0)
                                 Parker.Parker_init in
  let busy := Runtime.mkWorker 2 0
                (StealQueue.mkQueue 0 1 (StealQueue.put 0 4096 (StealQueue.Array_new 8192 4)) 0)
                Parker.Parker_init in
  let w := Runtime.mkWorld {[ 4096 := Task.Promise_init ]}
             (Runtime.mkScheduler [] [idle 0; idle 1; busy] false)
             (Runtime.mkReactor (Epoll.Poller_new 3 4) true []) 3 in
  (2 <= length (Runtime.workers_ (Runtime.sched w)))%nat
  /\ Exists (fun wk => StealQueue.top (Runtime.local_queue_ wk)
                       < StealQueue.bottom (Runtime.local_queue_ wk))
            (Runtime.workers_ (Runtime.sched w))
  /\ exists t w', Runtime.Scheduler_steal 1 w = (Some t, w').
Proof.
  intros idle busy w.
  assert (Hn : (2 <= length (Runtime.workers_ (Runtime.sched w)))%nat) by (simpl; lia).
  assert (Hex : Exists (fun wk => StealQueue.top (Runtime.local_queue_ wk)
                                  < StealQueue.bottom (Runtime.local_queue_ wk))
                       (Runtime.workers_ (Runtime.sched w))).
  { simpl. apply Exists_cons_tl, Exists_cons_tl, Exists_cons_hd. simpl. lia. }
  split; [exact Hn |]. split; [exact Hex |].
  exact (proj2 (proj2 (scheduler_steal_finds_queued_work 1 w)) Hn Hex).
Defined.

(** ** The request tokenizer of mini_redis *)

Lemma find_from_bounds l i rn :
  MiniRedis.find_from l i = Some rn -> (i <= rn /\ rn + 2 <= i + length l)%nat.
Proof.
  revert i. induction l as [| a tl IH]; intros i H; [discriminate |].
  simpl in H. destruct tl as [| b tl']; [discriminate |].
  destruct (Ascii.eqb a MiniRedis.CR && Ascii.eqb b MiniRedis.LF).
  - inversion H; subst. simpl. lia.
  - apply IH in H. simpl in *. lia.
Qed.

Lemma find_from_shift l i k :
  MiniRedis.find_from l (i + k) = (fun r => (r + k)%nat) <$> MiniRedis.find_from l i.
Proof.
  revert i. induction l as [| a tl IH]; intros i; [reflexivity |].
  simpl. destruct tl as [| b tl']; [reflexivity |].
  destruct (Ascii.eqb a MiniRedis.CR && Ascii.eqb b MiniRedis.LF); [reflexivity |].
  apply (IH (S i)).
Qed.

Lemma find_bounds data pos rn :
  MiniRedis.find data pos = Some rn -> (pos <= rn /\ rn + 2 <= length data)%nat.
Proof.
  unfold MiniRedis.find. intros H. apply find_from_bounds in H.
  rewrite length_drop in H. lia.
Qed.

Lemma find_from_cons a b tl i :
  MiniRedis.find_from (a :: b :: tl) i
  = if Ascii.eqb a MiniRedis.CR && Ascii.eqb b MiniRedis.LF then Some i
    else MiniRedis.find_from (b :: tl) (S i).
Proof. reflexivity. Qed.

Lemma find_from_line line rest i :
  MiniRedis.find_from line 0 = None ->
  MiniRedis.find_from (line ++ MiniRedis.CR :: MiniRedis.LF :: rest) i = Some (i + length line)%nat.
Proof.
  revert i. induction line as [| a tl IH]; intros i Hnone.
  - simpl. f_equal. lia.
  - destruct tl as [| b tl'].
    + simpl. destruct (Ascii.eqb a MiniRedis.CR); simpl; f_equal; lia.
    + rewrite find_from_cons in Hnone.
      change ((a :: b :: tl') ++ MiniRedis.CR :: MiniRedis.LF :: rest)
        with (a :: b :: (tl' ++ MiniRedis.CR :: MiniRedis.LF :: rest)).
      rewrite find_from_cons.
      destruct (Ascii.eqb a MiniRedis.CR && Ascii.eqb b MiniRedis.LF); [discriminate |].
      rewrite (find_from_shift _ 0 1) in Hnone.
      destruct (MiniRedis.find_from (b :: tl') 0) eqn:E; [discriminate |].
      change (b :: tl' ++ MiniRedis.CR :: MiniRedis.LF :: rest)
        with ((b :: tl') ++ MiniRedis.CR :: MiniRedis.LF :: rest).
      rewrite (IH (S i) eq_refl). simpl. f_equal. lia.
Qed.

Lemma find_after_prefix pre data pos :
  MiniRedis.find (pre ++ data) (length pre + pos)
  = (fun r => (r + length pre)%nat) <$> MiniRedis.find data pos.
Proof.
  unfold MiniRedis.find. rewrite drop_app_add.
  replace (length pre + pos)%nat with (pos + length pre)%nat by lia.
  apply find_from_shift.
Qed.

Lemma parse_loop_after_prefix fuel pre data pos tokens :
  MiniRedis.parse_loop fuel (pre ++ data) (length pre + pos) tokens
  = MiniRedis.parse_loop fuel data pos tokens.
Proof.
  revert pos tokens. induction fuel as [| fuel IH]; intros pos tokens.
  - simpl. rewrite length_app.
    destruct (Nat.ltb_spec (length pre + pos) (length pre + length data)),
             (Nat.ltb_spec pos (length data)); try lia; reflexivity.
  - cbn [MiniRedis.parse_loop]. rewrite length_app.
    destruct (Nat.ltb_spec (length pre + pos) (length pre + length data)),
             (Nat.ltb_spec pos (length data)); try lia; [| reflexivity].
    rewrite find_after_prefix.
    destruct (MiniRedis.find data pos) as [rn |] eqn:Hf; [| reflexivity].
    apply find_bounds in Hf. cbn [fmap option_fmap option_map].
    unfold MiniRedis.substr. rewrite drop_app_add.
    replace (rn + length pre - (length pre + pos))%nat with (rn - pos)%nat by lia.
    replace (rn + length pre + 2)%nat with (length pre + (rn + 2))%nat by lia.
    rewrite !IH. reflexivity.
Qed.

Lemma parse_loop_tokens fuel data pos pre tokens :
  MiniRedis.parse_loop fuel data pos (pre ++ tokens)
  = (fun r => pre ++ r) <$> MiniRedis.parse_loop fuel data pos tokens.
Proof.
  revert pos tokens. induction fuel as [| fuel IH]; intros pos tokens.
  - simpl. destruct (pos <? length data)%nat; reflexivity.
  - cbn [MiniRedis.parse_loop]. destruct (pos <? length data)%nat; [| reflexivity].
    destruct (MiniRedis.find data pos) as [rn |]; [| reflexivity].
    cbv zeta. destruct (MiniRedis.substr data pos (rn - pos)) as [| c line]; [apply IH |].
    destruct (Ascii.eqb c "*" || Ascii.eqb c "$"); [apply IH |].
    rewrite <- IH. now rewrite app_assoc.
Qed.

Lemma parse_loop_fuel fuel1 fuel2 data pos tokens :
  (length data - pos <= fuel1)%nat -> (length data - pos <= fuel2)%nat ->
  MiniRedis.parse_loop fuel1 data pos tokens = MiniRedis.parse_loop fuel2 data pos tokens.
Proof.
  revert fuel2 pos tokens. induction fuel1 as [| fuel1 IH]; intros fuel2 pos tokens H1 H2.
  - destruct fuel2; cbn [MiniRedis.parse_loop];
      destruct (Nat.ltb_spec pos (length data)); try lia; reflexivity.
  - destruct fuel2; cbn [MiniRedis.parse_loop];
      destruct (Nat.ltb_spec pos (length data)); try lia; try reflexivity.
    destruct (MiniRedis.find data pos) as [rn |] eqn:Hf; [| reflexivity].
    apply find_bounds in Hf. cbv zeta.
    destruct (MiniRedis.substr data pos (rn - pos)) as [| c line]; [apply IH; lia |].
    destruct (Ascii.eqb c "*" || Ascii.eqb c "$"); apply IH; lia.
Qed.

Lemma parse_loop_returns fuel data pos tokens :
  (length data - pos <= fuel)%nat -> is_Some (MiniRedis.parse_loop fuel data pos tokens).
Proof.
  revert pos tokens. induction fuel as [| fuel IH]; intros pos tokens Hf;
    cbn [MiniRedis.parse_loop]; destruct (Nat.ltb_spec pos (length data)); try lia; eauto.
  destruct (MiniRedis.find data pos) as [rn |] eqn:Hfind; [| eauto].
  apply find_bounds in Hfind. cbv zeta.
  destruct (MiniRedis.substr data pos (rn - pos)) as [| c line]; [apply IH; lia |].
  destruct (Ascii.eqb c "*" || Ascii.eqb c "$"); apply IH; lia.
Qed.

Lemma parse_resp_line line rest :
  MiniRedis.find_from line 0 = None ->
  MiniRedis.parse_resp (line ++ MiniRedis.CR :: MiniRedis.LF :: rest)
  = (fun r => (if MiniRedis.is_token line then [line] else []) ++ r)
      <$> MiniRedis.parse_resp rest.
Proof.
  intros Hline. unfold MiniRedis.parse_resp.
  rewrite length_app. cbn [length].
  replace (length line + S (S (length rest)))%nat with (S (length line + 1 + length rest)) by lia.
  cbn [MiniRedis.parse_loop]. rewrite length_app. cbn [length].
  destruct (Nat.ltb_spec 0 (length line + S (S (length rest)))); [| lia].
  unfold MiniRedis.find at 1. rewrite drop_0, (find_from_line line rest 0 Hline).
  cbv zeta. unfold MiniRedis.substr. rewrite drop_0, Nat.sub_0_r, Nat.add_0_l.
  rewrite take_app_length.
  assert (Hrest : forall tokens,
    MiniRedis.parse_loop (length line + 1 + length rest)
      (line ++ MiniRedis.CR :: MiniRedis.LF :: rest) (length line + 2) tokens
    = (fun r => tokens ++ r) <$> MiniRedis.parse_loop (length rest) rest 0 []).
  { intros tokens.
    replace (line ++ MiniRedis.CR :: MiniRedis.LF :: rest)
      with ((line ++ [MiniRedis.CR; MiniRedis.LF]) ++ rest) by now rewrite <- app_assoc.
    replace (length line + 2)%nat
      with (length (line ++ [MiniRedis.CR; MiniRedis.LF]) + 0)%nat
      by (rewrite length_app; simpl; lia).
    rewrite parse_loop_after_prefix.
    rewrite (parse_loop_fuel _ (length rest)) by lia.
    rewrite <- parse_loop_tokens. now rewrite app_nil_r. }
  destruct line as [| c line']; [apply Hrest |].
  cbn [MiniRedis.is_token].
  destruct (Ascii.eqb c "*" || Ascii.eqb c "$"); cbn [negb]; apply Hrest.
Qed.

Lemma parse_resp_unterminated tail :
  MiniRedis.find_from tail 0 = None -> MiniRedis.parse_resp tail = Some [].
Proof.
  intros Hnone. unfold MiniRedis.parse_resp.
  destruct tail as [| c tail']; [reflexivity |].
  cbn [length MiniRedis.parse_loop]. cbn [Nat.ltb Nat.leb].
  unfold MiniRedis.find. rewrite drop_0, Hnone. reflexivity.
Qed.

(** X27.  [parse_resp] on a request made of lines, each closed by CR LF
    and holding no CR LF inside, followed by a tail without CR LF:
    it returns, in order, exactly the lines that are not empty and do not
    begin with [*] or [$]; the unterminated tail is dropped. *)
Theorem parse_resp_keeps_the_argument_lines (lines : list (list ascii)) (tail : list ascii) :
  Forall (fun line => MiniRedis.find_from line 0 = None) lines ->
  MiniRedis.find_from tail 0 = None ->
  MiniRedis.parse_resp
    (concat (map (fun line => line ++ [MiniRedis.CR; MiniRedis.LF]) lines) ++ tail)
  = Some (filter (fun line => MiniRedis.is_token line = true) lines).
Proof.
  intros Hlines Htail. induction Hlines as [| line lines Hline _ IH].
  - simpl. now apply parse_resp_unterminated.
  - cbn [map concat]. rewrite <- !app_assoc. cbn [app].
    rewrite (parse_resp_line line _ Hline), IH. cbn [fmap option_fmap option_map].
    rewrite filter_cons. destruct (MiniRedis.is_token line) eqn:E.
    + rewrite decide_True by reflexivity. reflexivity.
    + rewrite decide_False by discriminate. reflexivity.
Qed.

Lemma parse_resp_keeps_the_argument_lines_witness :
  let set := ["S"; "E"; "T"]%char in
  let k := ["k"]%char in
  let lines := [["*"; "2"]; ["$"; "3"]; set; ["$"; "1"]; k]%char in
  Forall (fun line => MiniRedis.find_from line 0 = None) lines
  /\ MiniRedis.find_from ["x"]%char 0 = None
  /\ MiniRedis.parse_resp
       (concat (map (fun line => line ++ [MiniRedis.CR; MiniRedis.LF]) lines) ++ ["x"]%char)
     = Some [set; k].
Proof.
  intros set k lines.
  assert (Hl : Forall (fun line => MiniRedis.find_from line 0 = None) lines)
    by (repeat constructor).
  assert (Ht : MiniRedis.find_from ["x"]%char 0 = None) by reflexivity.
  split; [exact Hl |]. split; [exact Ht |].
  exact (parse_resp_keeps_the_argument_lines lines ["x"]%char Hl Ht).
Defined.

(** ** The upload loop of the HTTP server *)

Lemma receive_loop_bounded reads content_length total reqs :
  0 <= total <= content_length ->
  Forall (fun rd : Z -> Z => forall c, rd c <= c) reads ->
  Forall (fun c => 1 <= c <= HttpServer.buf_size) reqs ->
  let u := HttpServer.receive_loop reads content_length total total reqs in
  0 <= HttpServer.file_bytes u <= content_length
  /\ Forall (fun c => 1 <= c <= HttpServer.buf_size) (HttpServer.requests u)
  /\ (HttpServer.returned u = true ->
      Forall (fun rd : Z -> Z => forall c, 0 < c -> 0 < rd c) reads ->
      HttpServer.file_bytes u = content_length).
Proof.
  intros Htot Hreads. revert total reqs Htot.
  induction Hreads as [| rd rest Hrd _ IH]; intros total reqs Htot Hreqs; cbv zeta.
  - cbn [HttpServer.receive_loop].
    destruct (Z.ltb_spec total content_length); cbn.
    + split; [lia |]. split; [| discriminate].
      apply Forall_app. split; [exact Hreqs |]. repeat constructor; unfold HttpServer.buf_size; lia.
    + split; [lia |]. split; [exact Hreqs |]. intros _ _. lia.
  - cbn [HttpServer.receive_loop].
    destruct (Z.ltb_spec total content_length) as [Hlt | Hge].
    + assert (Hreqs' : Forall (fun c => 1 <= c <= HttpServer.buf_size)
                         (reqs ++ [Z.min HttpServer.buf_size (content_length - total)])).
      { apply Forall_app. split; [exact Hreqs |].
        repeat constructor; unfold HttpServer.buf_size; lia. }
      cbv zeta.
      pose proof (Hrd (Z.min HttpServer.buf_size (content_length - total))) as Hle.
      destruct (Z.leb_spec (rd (Z.min HttpServer.buf_size (content_length - total))) 0)
        as [Hn | Hn]; cbn.
      * split; [lia |]. split; [exact Hreqs' |].
        intros _ Hpos. inversion Hpos as [| ? ? Hp _]; subst.
        specialize (Hp (Z.min HttpServer.buf_size (content_length - total))).
        unfold HttpServer.buf_size in *. lia.
      * assert (Htot' : 0 <= total + rd (Z.min HttpServer.buf_size (content_length - total))
                        <= content_length) by lia.
        specialize (IH _ _ Htot' Hreqs'). cbv zeta in IH.
        destruct IH as (Hb & Hr & Hfull). split; [exact Hb |]. split; [exact Hr |].
        intros Hret Hpos. apply Hfull; [exact Hret |]. now inversion Hpos.
    + cbn. split; [lia |]. split; [exact Hreqs |]. intros _ _. lia.
Qed.

(** X28.  [HttpServer::receive_to_file], with [read] returning at most
    the size it is asked for: the file never receives more than
    [content_length] bytes, every read asks for at least one byte and at
    most the 8192 bytes of the buffer, and when the file could be opened,
    every read delivers data and the function returns, the file holds
    exactly [content_length] bytes. *)
Theorem upload_writes_at_most_content_length (is_open : bool)
    (content_length initial_size : Z) (reads : list (Z -> Z)) :
  0 <= content_length -> 0 <= initial_size ->
  Forall (fun rd : Z -> Z => forall c, rd c <= c) reads ->
  let u := HttpServer.receive_to_file is_open content_length initial_size reads in
  0 <= HttpServer.file_bytes u <= content_length
  /\ Forall (fun c => 1 <= c <= HttpServer.buf_size) (HttpServer.requests u)
  /\ (is_open = true -> HttpServer.returned u = true ->
      Forall (fun rd : Z -> Z => forall c, 0 < c -> 0 < rd c) reads ->
      HttpServer.file_bytes u = content_length).
Proof.
  intros Hcl Hinit Hreads. unfold HttpServer.receive_to_file.
  destruct is_open; cbn [negb].
  - assert (H0 : 0 <= 0 <= content_length) by lia.
    assert (Hw : 0 <= Z.min initial_size content_length <= content_length) by lia.
    destruct (initial_size =? 0); cbn [negb].
    + destruct (receive_loop_bounded reads content_length 0 [] H0 Hreads (Forall_nil_2 _))
        as (Hb & Hr & Hfull).
      cbv zeta. split; [exact Hb |]. split; [exact Hr |]. intros _. exact Hfull.
    + destruct (receive_loop_bounded reads content_length (Z.min initial_size content_length) []
                  Hw Hreads (Forall_nil_2 _)) as (Hb & Hr & Hfull).
      cbv zeta. split; [exact Hb |]. split; [exact Hr |]. intros _. exact Hfull.
  - cbn. split; [lia |]. split; [constructor |]. discriminate.
Qed.

Lemma upload_writes_at_most_content_length_witness :
  let reads := [(fun c => Z.min c 5000); (fun c => c); (fun c => c)] in
  Forall (fun rd : Z -> Z => forall c, rd c <= c) reads
  /\ HttpServer.file_bytes (HttpServer.receive_to_file true 10000 100 reads) = 10000
  /\ HttpServer.requests (HttpServer.receive_to_file true 10000 100 reads) = [8192; 4900].
Proof.
  intros reads.
  assert (Hreads : Forall (fun rd : Z -> Z => forall c, rd c <= c) reads).
  { repeat constructor; intros c; lia. }
  assert (Hpos : Forall (fun rd : Z -> Z => forall c, 0 < c -> 0 < rd c) reads).
  { repeat constructor; intros c; lia. }
  assert (Hcl : 0 <= 10000) by lia.
  assert (Hin : 0 <= 100) by lia.
  split; [exact Hreads |].
  split; [| reflexivity].
  exact (proj2 (proj2 (upload_writes_at_most_content_length true 10000 100 reads Hcl Hin Hreads))
           eq_refl eq_refl Hpos).
Defined.

(** ** Header lookup of the HTTP parser *)

Lemma header_test_same_name hname nm :
  (length hname =? length nm)%nat && HttpRequest.names_match hname nm = true
  <-> HttpRequest.same_name hname nm.
Proof.
  unfold HttpRequest.same_name. revert nm.
  induction hname as [| d hname IH]; intros [| c nm]; simpl.
  - split; [constructor | reflexivity].
  - split; [discriminate | intros H; inversion H].
  - split; [discriminate | intros H; inversion H].
  - change (length hname =? length nm)%nat with (Nat.eqb (length hname) (length nm)).
    destruct (Ascii.eqb_spec (HttpRequest.tolower d) (HttpRequest.tolower c)) as [E | E].
    + rewrite IH. split; [now constructor | intros H; now inversion H].
    + split.
      * rewrite andb_false_r. discriminate.
      * intros H. inversion H; subst. contradiction.
Qed.

Lemma same_name_trans a b c :
  HttpRequest.same_name a b -> HttpRequest.same_name b c -> HttpRequest.same_name a c.
Proof.
  unfold HttpRequest.same_name. intros Hab. revert c.
  induction Hab as [| x y a b Hxy _ IH]; intros c Hbc; inversion Hbc; subst; constructor.
  - congruence.
  - now apply IH.
Qed.

Lemma same_name_sym a b : HttpRequest.same_name a b -> HttpRequest.same_name b a.
Proof.
  unfold HttpRequest.same_name. induction 1; constructor; auto.
Qed.

(** X29.  [HttpRequest::get_header] does not see letter case and takes
    the first match: two names that agree after [tolower] get the same
    answer from any header list, and a header whose name agrees with the
    one asked for, behind headers whose names do not, gives its value. *)
Theorem get_header_ignores_case_takes_first (pre post : list HttpRequest.Header)
    (h : HttpRequest.Header) (n1 n2 : list ascii) :
  HttpRequest.same_name n1 n2 ->
  HttpRequest.same_name (HttpRequest.name h) n1 ->
  Forall (fun g => ~ HttpRequest.same_name (HttpRequest.name g) n1) pre ->
  HttpRequest.get_header (pre ++ h :: post) n1 = HttpRequest.value h
  /\ HttpRequest.get_header (pre ++ h :: post) n2 = HttpRequest.value h.
Proof.
  intros H12 Hh Hpre.
  assert (Hgen : forall nm, HttpRequest.same_name n1 nm ->
            HttpRequest.get_header (pre ++ h :: post) nm = HttpRequest.value h).
  { intros nm Hnm. induction Hpre as [| g pre Hg _ IH]; cbn [app HttpRequest.get_header].
    - destruct ((length (HttpRequest.name h) =? length nm)%nat
                && HttpRequest.names_match (HttpRequest.name h) nm) eqn:E; [reflexivity |].
      exfalso. apply not_true_iff_false in E. apply E.
      apply header_test_same_name. eapply same_name_trans; eassumption.
    - destruct ((length (HttpRequest.name g) =? length nm)%nat
                && HttpRequest.names_match (HttpRequest.name g) nm) eqn:E; [| exact IH].
      exfalso. apply Hg. apply header_test_same_name in E.
      eapply same_name_trans; [exact E |]. now apply same_name_sym. }
  split; apply Hgen; [| exact H12].
  unfold HttpRequest.same_name. clear. induction n1; constructor; auto.
Qed.

Lemma get_header_ignores_case_takes_first_witness :
  let host := ["H"; "o"; "s"; "t"]%char in
  let upper := ["H"; "O"; "S"; "T"]%char in
  let lower := ["h"; "o"; "s"; "t"]%char in
  let v := ["a"]%char in
  let hs := [HttpRequest.mkHeader ["A"; "g"; "e"]%char ["1"]%char] in
  HttpRequest.get_header (hs ++ [HttpRequest.mkHeader host v]) upper = v
  /\ HttpRequest.get_header (hs ++ [HttpRequest.mkHeader host v]) lower = v.
Proof.
  intros host upper lower v hs.
  assert (H12 : HttpRequest.same_name upper lower) by (repeat constructor).
  assert (Hh : HttpRequest.same_name (HttpRequest.name (HttpRequest.mkHeader host v)) upper)
    by (repeat constructor).
  assert (Hpre : Forall (fun g => ~ HttpRequest.same_name (HttpRequest.name g) upper) hs).
  { constructor; [| constructor]. intros H. inversion H as [| ? ? ? ? Hc _]. vm_compute in Hc. discriminate. }
  exact (get_header_ignores_case_takes_first hs [] (HttpRequest.mkHeader host v) upper lower
           H12 Hh Hpre).
Defined.
